(** * GoSDGQueryToJsonConverter: the query front end, embedded in Rocq

    The repository holds two copies of the same program (two [package main]
    files): [main.go] and a second file whose buckets are typed
    [[]ParsedQuery].  Both are embedded here, each in a module of its own:
    [MainGo] for [main.go] and [Part0] for the second file.  The Go library
    functions both of them call ([strings], [regexp]) are modelled once, in
    [GoStrings] and [GoRegexp].

    Go strings are byte sequences; they are modelled as [list ascii].  Every
    character the program tests for is ASCII, and the bytes of a multi-byte
    UTF-8 rune are all above 127, so the byte-level reading of the regular
    expressions agrees with Go's rune-level one. *)

From Stdlib Require Import String.
From Stdlib Require Import List Ascii ZArith Lia Bool Arith PeanoNat.
From Stdlib Require Import Permutation.
Import ListNotations.

Local Open Scope list_scope.

(** ** Go's [strings] package *)

Module GoStrings.

Definition gostring := list ascii.

(** A Go string literal. *)
Definition lit (s : String.string) : gostring :=
  String.list_ascii_of_string s.

Definition dquote : ascii := "034"%char.
Definition backslash : ascii := "092"%char.
Definition q : gostring := [dquote].

Definition eqs (a b : gostring) : bool :=
  if list_eq_dec ascii_dec a b then true else false.

(** [strings.HasPrefix]. *)
Fixpoint HasPrefix (s prefix : gostring) {struct prefix} : bool :=
  match prefix, s with
  | [], _ => true
  | _ :: _, [] => false
  | p :: prefix', c :: s' => Ascii.eqb p c && HasPrefix s' prefix'
  end.

(** [strings.HasSuffix]. *)
Definition HasSuffix (s suffix : gostring) : bool :=
  HasPrefix (rev s) (rev suffix).

(** [strings.Contains], for a non-empty [substr]. *)
Fixpoint Contains (s substr : gostring) : bool :=
  HasPrefix s substr ||
  match s with
  | [] => false
  | _ :: s' => Contains s' substr
  end.

(** [strings.Count(s, substr)] for a one-byte [substr]. *)
Definition Count (s : gostring) (c : ascii) : nat :=
  length (filter (Ascii.eqb c) s).

(** [strings.Repeat] of a one-byte string. *)
Definition Repeat (c : ascii) (n : nat) : gostring := repeat c n.

(** [strings.ReplaceAll(s, old, new)] for a non-empty [old]: the
    occurrences of [old] are found left to right and do not overlap.
    [skip] is the number of bytes of an occurrence still to be passed. *)
Fixpoint replace_from (old new : gostring) (skip : nat) (s : gostring)
  : gostring :=
  match s with
  | [] => []
  | c :: s' =>
      match skip with
      | S k => replace_from old new k s'
      | O =>
          if HasPrefix s old
          then new ++ replace_from old new (length old - 1) s'
          else c :: replace_from old new 0 s'
      end
  end.

Definition ReplaceAll (s old new : gostring) : gostring :=
  replace_from old new 0 s.

(** [s[a:b]]. *)
Definition slice (s : gostring) (a b : nat) : gostring :=
  firstn (b - a) (skipn a s).

(** The white space of [unicode.IsSpace], as UTF-8: the six ASCII
    characters, U+0085, U+00A0, U+1680, U+2000..U+200A, U+2028, U+2029,
    U+202F, U+205F, U+3000.  [space_width s] is the width of the white-space
    rune [s] starts with, or 0. *)
Definition asciiSpace (c : ascii) : bool :=
  let n := nat_of_ascii c in
  (n =? 9) || (n =? 10) || (n =? 11) || (n =? 12) || (n =? 13) || (n =? 32).

Definition bytes (l : list nat) : gostring := map ascii_of_nat l.

Definition space_width (s : gostring) : nat :=
  match s with
  | [] => 0
  | c :: _ =>
      if asciiSpace c then 1
      else if HasPrefix s (bytes [194; 133]) || HasPrefix s (bytes [194; 160])
      then 2
      else if HasPrefix s (bytes [225; 154; 128])
              || HasPrefix s (bytes [226; 129; 159])
              || HasPrefix s (bytes [227; 128; 128])
      then 3
      else if HasPrefix s (bytes [226; 128])
      then match skipn 2 s with
           | z :: _ =>
               let n := nat_of_ascii z in
               if ((128 <=? n) && (n <=? 138)) || (n =? 168) || (n =? 169)
                  || (n =? 175)
               then 3 else 0
           | [] => 0
           end
      else 0
  end.

(** The same, for the rune [s] ends with ([rs] is [s] reversed). *)
Definition space_width_last (rs : gostring) : nat :=
  match rs with
  | c :: _ =>
      if asciiSpace c then 1
      else
        let w2 := space_width (rev (firstn 2 rs)) in
        let w3 := space_width (rev (firstn 3 rs)) in
        if w2 =? 2 then 2 else if w3 =? 3 then 3 else 0
  | [] => 0
  end.

Fixpoint trim_left (fuel : nat) (s : gostring) : gostring :=
  match fuel with
  | O => s
  | S fuel' =>
      match space_width s with
      | O => s
      | w => trim_left fuel' (skipn w s)
      end
  end.

Fixpoint trim_right (fuel : nat) (rs : gostring) : gostring :=
  match fuel with
  | O => rs
  | S fuel' =>
      match space_width_last rs with
      | O => rs
      | w => trim_right fuel' (skipn w rs)
      end
  end.

(** [strings.TrimSpace]: leading white space goes first, then trailing. *)
Definition TrimSpace (s : gostring) : gostring :=
  let l := trim_left (length s) s in
  rev (trim_right (length l) (rev l)).

Fixpoint drop_while (p : ascii -> bool) (s : gostring) : gostring :=
  match s with
  | [] => []
  | c :: s' => if p c then drop_while p s' else s
  end.

(** [strings.Trim(s, cutset)] for a one-byte [cutset]. *)
Definition Trim (s : gostring) (c : ascii) : gostring :=
  rev (drop_while (Ascii.eqb c) (rev (drop_while (Ascii.eqb c) s))).

(** [strings.Split(s, sep)] for a one-byte [sep]: one more part than there
    are separators. *)
Fixpoint Split (s : gostring) (sep : ascii) : list gostring :=
  match s with
  | [] => [[]]
  | c :: s' =>
      if Ascii.eqb c sep then [] :: Split s' sep
      else match Split s' sep with
           | p :: ps => (c :: p) :: ps
           | [] => [[c]]
           end
  end.

End GoStrings.

(** ** Go's [regexp] package

    Go's matcher returns the leftmost match and, among the matches that
    start there, the one a backtracking search finds first.  [rmatch] is that
    backtracking search, in continuation-passing style; [search] tries the
    start positions from left to right. *)

Module GoRegexp.
Import GoStrings.

Inductive regex : Type :=
| Chr (c : ascii)                 (* a literal byte *)
| Cls (p : ascii -> bool)         (* a character class *)
| Cat (r1 r2 : regex)             (* r1 r2 *)
| Alt (r1 r2 : regex)             (* r1|r2, r1 preferred *)
| Star (r : regex)                (* r*, greedy *)
| Plus (r : regex)                (* r+, greedy *)
| PlusLazy (r : regex)            (* r+?, shortest first *)
| Group (i : nat) (r : regex).    (* the i-th capturing group *)

(** A capture is kept as the input left at its start and at its end. *)
Definition captures := list (nat * (gostring * gostring)).

Section Matcher.
Context {A : Type}.

Definition cont := gostring -> captures -> option A.
Definition matcher := gostring -> captures -> cont -> option A.

(** Greedy iteration: one more round of [body] is tried before the
    continuation.  A round that consumes nothing ends the iteration. *)
Fixpoint greedy_loop (body : matcher) (fuel : nat) : matcher :=
  fun s cs k =>
    match fuel with
    | O => k s cs
    | S fuel' =>
        match body s cs (fun s' cs' =>
                           if length s' <? length s
                           then greedy_loop body fuel' s' cs' k
                           else None) with
        | Some a => Some a
        | None => k s cs
        end
    end.

(** Lazy iteration: the continuation is tried before one more round. *)
Fixpoint lazy_loop (body : matcher) (fuel : nat) : matcher :=
  fun s cs k =>
    match k s cs with
    | Some a => Some a
    | None =>
        match fuel with
        | O => None
        | S fuel' =>
            body s cs (fun s' cs' =>
                         if length s' <? length s
                         then lazy_loop body fuel' s' cs' k
                         else None)
        end
    end.

Fixpoint rmatch (r : regex) : matcher :=
  match r with
  | Chr c => fun s cs k =>
      match s with
      | x :: s' => if Ascii.eqb x c then k s' cs else None
      | [] => None
      end
  | Cls p => fun s cs k =>
      match s with
      | x :: s' => if p x then k s' cs else None
      | [] => None
      end
  | Cat r1 r2 => fun s cs k =>
      rmatch r1 s cs (fun s' cs' => rmatch r2 s' cs' k)
  | Alt r1 r2 => fun s cs k =>
      match rmatch r1 s cs k with
      | Some a => Some a
      | None => rmatch r2 s cs k
      end
  | Star r1 => fun s cs k => greedy_loop (rmatch r1) (length s) s cs k
  | Plus r1 => fun s cs k =>
      rmatch r1 s cs (fun s' cs' =>
                        greedy_loop (rmatch r1) (length s') s' cs' k)
  | PlusLazy r1 => fun s cs k =>
      rmatch r1 s cs (fun s' cs' =>
                        lazy_loop (rmatch r1) (length s') s' cs' k)
  | Group i r1 => fun s cs k =>
      rmatch r1 s cs (fun s' cs' => k s' ((i, (s, s')) :: cs'))
  end.
End Matcher.

(** A match anchored at the start of [s]: what is left of [s], and the
    captures. *)
Definition exec (r : regex) (s : gostring) : option (gostring * captures) :=
  rmatch r s [] (fun s' cs => Some (s', cs)).

(** The leftmost match in [s], which starts at offset [pos] of the whole
    input: its start, its end and its captures. *)
Fixpoint search (r : regex) (pos : nat) (s : gostring)
  : option (nat * nat * captures) :=
  match exec r s with
  | Some (s', cs) => Some (pos, pos + (length s - length s'), cs)
  | None =>
      match s with
      | [] => None
      | _ :: s' => search r (S pos) s'
      end
  end.

(** The successive non-overlapping matches, each as [(match[0], match[1])].
    The expressions of this program match at least one byte; an empty match
    (for which Go has a rule of its own) ends the enumeration here, which
    [search_nonempty] shows never to happen.  The number of rounds is
    bounded by [fuel]; [find_all_bound] shows that the bound
    [FindAllStringSubmatchIndex] takes is enough. *)
Fixpoint find_all (r : regex) (fuel pos : nat) (s : gostring)
  : list (nat * nat) :=
  match fuel with
  | O => []
  | S fuel' =>
      match search r pos s with
      | None => []
      | Some (a, b, _) =>
          if b <=? a then []
          else (a, b) :: find_all r fuel' b (skipn (b - pos) s)
      end
  end.

(** [re.FindAllStringSubmatchIndex(s, -1)], the first two indices of each
    match. *)
Definition FindAllStringSubmatchIndex (r : regex) (s : gostring)
  : list (nat * nat) :=
  find_all r (S (length s)) 0 s.

Fixpoint capture (i : nat) (cs : captures) : gostring :=
  match cs with
  | [] => []
  | (j, (a, b)) :: cs' =>
      if i =? j then firstn (length a - length b) a else capture i cs'
  end.

(** [re.FindStringSubmatch(s)] for an expression with [n] groups: nil when
    nothing matches, else the match followed by the text of each group. *)
Definition FindStringSubmatch (r : regex) (n : nat) (s : gostring)
  : list gostring :=
  match search r 0 s with
  | None => []
  | Some (a, b, cs) =>
      slice s a b :: map (fun i => capture i cs) (seq 1 n)
  end.

(** The expression that matches the bytes of [s] one after the other. *)
Fixpoint str (s : gostring) : regex :=
  match s with
  | [] => Star (Cls (fun _ => false))
  | [c] => Chr c
  | c :: s' => Cat (Chr c) (str s')
  end.

(** [\s] is [[\t\n\f\r ]]. *)
Definition space_class : regex :=
  Cls (fun c => let n := nat_of_ascii c in
                (n =? 9) || (n =? 10) || (n =? 12) || (n =? 13) || (n =? 32)).

Definition not_char (c : ascii) : regex := Cls (fun x => negb (Ascii.eqb x c)).

(** [.] matches everything but a line feed. *)
Definition any_char : regex := Cls (fun x => negb (nat_of_ascii x =? 10)).

End GoRegexp.

(** ** What the two files share: tokens, fields and the tokenizer

    The declarations of [Token], [Field] and the token constants are the
    same in both files; the two [tokenize] functions differ only in their
    two regular expressions, which are the parameters of [tokenize] here. *)

Module Lexer.
Import GoStrings GoRegexp.

Local Open Scope Z_scope.

Definition TokenField : Z := 0.
Definition TokenOR : Z := 1.
Definition TokenAND : Z := 2.
Definition TokenANDNOT : Z := 3.
Definition TokenOpenParen : Z := 4.
Definition TokenCloseParen : Z := 5.

Record Token : Type := mkToken { Type_ : Z; Value : gostring }.

(** The zero value of [Token], which [var token Token] declares. *)
Definition zeroToken : Token := mkToken 0 [].

Record Field : Type := mkField { fField : gostring; fValue : gostring }.

Local Close Scope Z_scope.

(** [(TITLE-ABS-KEY|TITLE-ABS|TITLE|AUTHKEY)] as group 1. *)
Definition field_names : regex :=
  Group 1 (Alt (str (lit "TITLE-ABS-KEY"))
          (Alt (str (lit "TITLE-ABS"))
          (Alt (str (lit "TITLE")) (str (lit "AUTHKEY"))))).

(** [NAMES\s*\(QVALUEQ\)], where Q is the double quote and [VALUE] is
    group 2. *)
Definition field_call (value : regex) : regex :=
  Cat field_names
 (Cat (Star space_class)
 (Cat (Chr "(")
 (Cat (Chr dquote)
 (Cat (Group 2 value)
 (Cat (Chr dquote) (Chr ")")))))).

(** [FIELDCALL|OR|AND_NOT|AND|\(|\)|QVALUEQ], where Q is the double quote
    and the last [VALUE] is group 3. *)
Definition token_regex (value : regex) : regex :=
  Alt (field_call value)
 (Alt (str (lit "OR"))
 (Alt (str (lit "AND_NOT"))
 (Alt (str (lit "AND"))
 (Alt (Chr "(")
 (Alt (Chr ")")
      (Cat (Chr dquote) (Cat (Group 3 value) (Chr dquote)))))))).

Section Tokenize.
(** [re] is the expression of the scan, [re_field] the one the default
    case applies to a match that contains a parenthesis. *)
Variables re re_field : regex.

(** The [switch] on [fullMatch]. *)
Definition classify (fullMatch : gostring) : Token :=
  if eqs fullMatch (lit "OR") then mkToken TokenOR fullMatch
  else if eqs fullMatch (lit "AND") then mkToken TokenAND fullMatch
  else if eqs fullMatch (lit "AND_NOT") then mkToken TokenANDNOT fullMatch
  else if eqs fullMatch (lit "(") then mkToken TokenOpenParen fullMatch
  else if eqs fullMatch (lit ")") then mkToken TokenCloseParen fullMatch
  else if Contains fullMatch (lit "(") then
    match FindStringSubmatch re_field 2 fullMatch with
    | [_; fieldType; value] =>
        mkToken TokenField (fieldType ++ lit ":" ++ value)
    | _ => zeroToken
    end
  else if HasPrefix fullMatch q && HasSuffix fullMatch q then
    mkToken TokenField (lit "ANY:" ++ Trim fullMatch dquote)
  else zeroToken.

Definition is_operator (t : Z) : bool :=
  (t =? TokenOR)%Z || (t =? TokenAND)%Z || (t =? TokenANDNOT)%Z.

(** [tokens[len(tokens)-2].Type], read when [len(tokens) > 1]. *)
Definition type_before_last (tokens : list Token) : Z :=
  Type_ (nth (length tokens - 2) tokens zeroToken).

(** The body of the loop over [matches], for the match of index
    [matchIndex]. *)
Definition tokenize_step (query : gostring) (matches : list (nat * nat))
    (matchIndex : nat) (m : nat * nat) (tokens : list Token) : list Token :=
  let fullMatch := TrimSpace (slice query (fst m) (snd m)) in
  let token := classify fullMatch in
  if negb (Type_ token =? 0)%Z || negb (eqs (Value token) []) then
    let tokens := tokens ++ [token] in
    if (S matchIndex <? length matches) && (Type_ token =? TokenField)%Z then
      let nextStart := fst (nth (S matchIndex) matches (0, 0)) in
      let between := TrimSpace (slice query (snd m) nextStart) in
      if eqs between [] && (1 <? length tokens)
         && negb (is_operator (type_before_last tokens))
      then tokens ++ [mkToken TokenAND (lit "AND")]
      else tokens
    else tokens
  else tokens.

Fixpoint tokenize_loop (query : gostring) (matches : list (nat * nat))
    (matchIndex : nat) (rest : list (nat * nat)) (tokens : list Token)
  : list Token :=
  match rest with
  | [] => tokens
  | m :: rest' =>
      tokenize_loop query matches (S matchIndex) rest'
        (tokenize_step query matches matchIndex m tokens)
  end.

(** The line as the scan sees it: parentheses balanced, the spacing
    inside parentheses removed, the operators respelled. *)
Definition preprocess (query : gostring) : gostring :=
  let openCount := Count query "(" in
  let closeCount := Count query ")" in
  let query :=
    if closeCount <? openCount
    then query ++ Repeat ")" (openCount - closeCount)
    else query in
  let query := ReplaceAll query (lit "( ") (lit "(") in
  let query := ReplaceAll query (lit " )") (lit ")") in
  let query := ReplaceAll query (lit " AND NOT ") (lit " AND_NOT ") in
  let query := ReplaceAll query (lit " AND ") (lit " AND ") in
  let query := ReplaceAll query (lit " OR ") (lit " OR ") in
  query.

Definition tokenize (query : gostring) : list Token :=
  let query := preprocess query in
  let matches := FindAllStringSubmatchIndex re query in
  tokenize_loop query matches 0 matches [].
End Tokenize.

End Lexer.

(** ** The second file: typed buckets, collapsing normalizer

    [ParsedQuery] has three buckets of type [[]ParsedQuery] and an optional
    leaf.  The file only ever takes the length of a bucket, so a nil and an
    empty slice are the same list here.  A [*ParsedQuery] is an
    [option ParsedQuery], nil being [None]. *)

Module Part0.
Import GoStrings GoRegexp Lexer.

Local Set Warnings "-register-all".

Inductive ParsedQuery : Type :=
  mkQuery {
    AND : list ParsedQuery;
    OR : list ParsedQuery;
    AND_NOT : list ParsedQuery;
    Field_ : option Field
  }.

(** [&ParsedQuery{}]. *)
Definition emptyQuery : ParsedQuery := mkQuery [] [] [] None.

Definition is_nil {A : Type} (o : option A) : bool :=
  match o with None => true | Some _ => false end.

Definition isEmptyQuery (query : option ParsedQuery) : bool :=
  match query with
  | None => true
  | Some query =>
      is_nil (Field_ query)
      && (length (AND query) =? 0)
      && (length (OR query) =? 0)
      && (length (AND_NOT query) =? 0)
  end.

(** The recursion of [cleanupQuery] is not structural (a collapsed node is
    cleaned again), so the function is defined on a bound of the depth of
    the calls; the outer [option] is [None] when the bound is reached.
    [cleanup_fuel_total] shows that one more than the height of the tree is
    enough, and [cleanup_fuel_bound] that any larger bound gives the same
    result. *)
Section Cleanup.
Variable cleanup : ParsedQuery -> option (option ParsedQuery).

(** One of the three loops: the cleaned children that are not empty. *)
Fixpoint clean_bucket (bucket : list ParsedQuery)
  : option (list ParsedQuery) :=
  match bucket with
  | [] => Some []
  | subQuery :: bucket' =>
      match cleanup subQuery, clean_bucket bucket' with
      | Some cleanedSub, Some rest =>
          match cleanedSub with
          | Some c => if isEmptyQuery cleanedSub then Some rest
                      else Some (c :: rest)
          | None => Some rest
          end
      | _, _ => None
      end
  end.

Definition cleanup_body (query : ParsedQuery)
  : option (option ParsedQuery) :=
  match clean_bucket (AND query), clean_bucket (OR query),
        clean_bucket (AND_NOT query) with
  | Some cAND, Some cOR, Some cANDNOT =>
      let cleaned := mkQuery cAND cOR cANDNOT (Field_ query) in
      if isEmptyQuery (Some cleaned) then Some None
      else if (length cAND =? 1) && (length cOR =? 0)
              && (length cANDNOT =? 0) && is_nil (Field_ cleaned)
      then cleanup (hd emptyQuery cAND)
      else if (length cOR =? 1) && (length cAND =? 0)
              && (length cANDNOT =? 0) && is_nil (Field_ cleaned)
      then cleanup (hd emptyQuery cOR)
      else if (length cANDNOT =? 1) && (length cAND =? 0)
              && (length cOR =? 0) && is_nil (Field_ cleaned)
      then cleanup (hd emptyQuery cANDNOT)
      else Some (Some cleaned)
  | _, _, _ => None
  end.
End Cleanup.

Fixpoint cleanup_fuel (fuel : nat) (query : ParsedQuery)
  : option (option ParsedQuery) :=
  match fuel with
  | O => None
  | S fuel' => cleanup_body (cleanup_fuel fuel') query
  end.

Fixpoint height (query : ParsedQuery) : nat :=
  S (Nat.max (list_max (map height (AND query)))
    (Nat.max (list_max (map height (OR query)))
             (list_max (map height (AND_NOT query))))).

Definition cleanupQuery (query : option ParsedQuery) : option ParsedQuery :=
  match query with
  | None => None
  | Some query =>
      match cleanup_fuel (S (height query)) query with
      | Some r => r
      | None => None
      end
  end.

(** The [StackItem] of [parseTokens]; its [query] pointer is never nil. *)
Record StackItem : Type :=
  mkItem { query : ParsedQuery; operator : Z }.

(** [item.query.BUCKET = append(item.query.BUCKET, child)], the bucket being
    the one [item.operator] selects; any other operator value appends
    nothing. *)
Definition attach (item : StackItem) (child : ParsedQuery) : StackItem :=
  let qy := query item in
  if (operator item =? TokenAND)%Z then
    mkItem (mkQuery (AND qy ++ [child]) (OR qy) (AND_NOT qy) (Field_ qy))
           (operator item)
  else if (operator item =? TokenOR)%Z then
    mkItem (mkQuery (AND qy) (OR qy ++ [child]) (AND_NOT qy) (Field_ qy))
           (operator item)
  else if (operator item =? TokenANDNOT)%Z then
    mkItem (mkQuery (AND qy) (OR qy) (AND_NOT qy ++ [child]) (Field_ qy))
           (operator item)
  else item.

(** The state of the loop of [parseTokens]: [stack], its top first, and
    [current].  A frame and [current] never point to the same node: a
    frame's node is written only when the frame is popped and becomes
    [current], so the nodes are passed by value. *)
Definition state : Type := (list StackItem * StackItem)%type.

Definition freshItem : StackItem := mkItem emptyQuery TokenAND.

Definition parse_step (st : state) (token : Token) : state :=
  let '(stack, current) := st in
  if (Type_ token =? TokenField)%Z then
    match Split (Value token) ":" with
    | [p0; p1] =>
        (stack, attach current (mkQuery [] [] [] (Some (mkField p0 p1))))
    | _ => st
    end
  else if is_operator (Type_ token) then
    (stack, mkItem (query current) (Type_ token))
  else if (Type_ token =? TokenOpenParen)%Z then
    (current :: stack, freshItem)
  else if (Type_ token =? TokenCloseParen)%Z then
    match stack with
    | [] => st
    | parent :: stack' =>
        let cleaned := cleanupQuery (Some (query current)) in
        match cleaned with
        | Some c =>
            if isEmptyQuery cleaned then (stack', parent)
            else (stack', attach parent c)
        | None => (stack', parent)
        end
    end
  else st.

Definition parse_loop (tokens : list Token) (st : state) : state :=
  fold_left parse_step tokens st.

Definition parseTokens (tokens : list Token) : option ParsedQuery :=
  cleanupQuery (Some (query (snd (parse_loop tokens ([], freshItem))))).

(** One or more bytes other than the double quote, shortest first:
    the lazy class-plus of the scan expression. *)
Definition quoted_value : regex := PlusLazy (not_char dquote).

(** One or more of: a byte other than the double quote and the backslash,
    or a backslash and the byte after it (not a line feed). *)
Definition escaped_value : regex :=
  Plus (Alt (Cls (fun c => negb (Ascii.eqb c dquote)
                           && negb (Ascii.eqb c backslash)))
            (Cat (Chr backslash) any_char)).

Definition tokenize : gostring -> list Token :=
  Lexer.tokenize (token_regex quoted_value) (field_call escaped_value).

(** The error value [fmt.Errorf] builds, by its message. *)
Definition error : Type := gostring.

(** The two results of [processQuery], as Go returns them. *)
Definition processQuery (line : gostring)
  : option ParsedQuery * option error :=
  let tokens := tokenize line in
  let parsedQuery := parseTokens tokens in
  if isEmptyQuery parsedQuery
  then (None, Some (lit "query parsed to empty structure"))
  else (parsedQuery, None).

End Part0.

(** ** [main.go]: buckets of [interface{}], normalizer in place

    A bucket is a [[]interface{}]; [cleanupQuery] tells four kinds of
    element apart by their dynamic type.  The function rebuilds every bucket
    that is not nil and leaves nil the ones that come out empty, so a nil
    and an empty slice are again the same list.  It changes its argument in
    place and returns it; the embedding returns the changed value. *)

Module MainGo.
Import GoStrings GoRegexp Lexer.

Local Set Warnings "-register-all".

Inductive ParsedQuery : Type :=
| mkQuery (AND OR AND_NOT : list Item) (Field_ : option Field)
with Item : Type :=
| ItemQuery (subQuery : ParsedQuery)            (* a [ParsedQuery] *)
| ItemPointer (subQuery : option ParsedQuery)   (* a [*ParsedQuery] *)
| ItemField (field : Field)                     (* a [Field] *)
| ItemOther.                                    (* any other dynamic type *)

Definition AND (query : ParsedQuery) : list Item :=
  let 'mkQuery a _ _ _ := query in a.
Definition OR (query : ParsedQuery) : list Item :=
  let 'mkQuery _ o _ _ := query in o.
Definition AND_NOT (query : ParsedQuery) : list Item :=
  let 'mkQuery _ _ n _ := query in n.
Definition Field_ (query : ParsedQuery) : option Field :=
  let 'mkQuery _ _ _ f := query in f.

Definition is_nil {A : Type} (o : option A) : bool :=
  match o with None => true | Some _ => false end.

Definition isEmptyQuery (query : option ParsedQuery) : bool :=
  match query with
  | None => true
  | Some query =>
      is_nil (Field_ query)
      && (length (AND query) =? 0)
      && (length (OR query) =? 0)
      && (length (AND_NOT query) =? 0)
  end.

(** One of the three loops of [cleanupQuery]: the bucket rebuilt from its
    elements, by their dynamic type. *)
Section CleanItems.
Variable cleanup : ParsedQuery -> ParsedQuery.

Fixpoint clean_items (items : list Item) : list Item :=
  match items with
  | [] => []
  | item :: items' =>
      match item with
      | ItemQuery subQuery =>
          let cleaned := cleanup subQuery in
          if isEmptyQuery (Some cleaned) then clean_items items'
          else ItemQuery cleaned :: clean_items items'
      | ItemPointer (Some subQuery) =>
          let cleaned := cleanup subQuery in
          if isEmptyQuery (Some cleaned) then clean_items items'
          else ItemQuery cleaned :: clean_items items'
      | ItemPointer None => clean_items items'
      | ItemField field =>
          ItemQuery (mkQuery [] [] [] (Some field)) :: clean_items items'
      | ItemOther => clean_items items'
      end
  end.
End CleanItems.

(** [cleanupQuery] on a pointer that is not nil. *)
Fixpoint cleanup (query : ParsedQuery) : ParsedQuery :=
  match query with
  | mkQuery a o n f =>
      mkQuery (clean_items cleanup a) (clean_items cleanup o)
              (clean_items cleanup n) f
  end.

Definition cleanupQuery (query : option ParsedQuery) : option ParsedQuery :=
  match query with
  | None => None
  | Some query => Some (cleanup query)
  end.

(** [group.BUCKET = append(group.BUCKET, child)], the bucket being the one
    [currentOperator] selects, [AND] by default. *)
Definition attach (currentOperator : Z) (group child : ParsedQuery)
  : ParsedQuery :=
  if (currentOperator =? TokenOR)%Z then
    mkQuery (AND group) (OR group ++ [ItemQuery child]) (AND_NOT group)
            (Field_ group)
  else if (currentOperator =? TokenANDNOT)%Z then
    mkQuery (AND group) (OR group) (AND_NOT group ++ [ItemQuery child])
            (Field_ group)
  else
    mkQuery (AND group ++ [ItemQuery child]) (OR group) (AND_NOT group)
            (Field_ group).

Definition emptyQuery : ParsedQuery := mkQuery [] [] [] None.

(** The state of the loop of [parseTokens]: [stack] (its top first),
    [currentGroup] and [currentOperator].  A group on the stack is written
    only once it is popped and is [currentGroup] again, and a closed group
    is copied into its parent, so the nodes are passed by value. *)
Record state : Type :=
  mkState {
    stack : list ParsedQuery;
    currentGroup : option ParsedQuery;
    currentOperator : Z
  }.

Definition parse_step (st : state) (token : Token) : state :=
  if (Type_ token =? TokenField)%Z then
    match Split (Value token) ":" with
    | [p0; p1] =>
        let group := match currentGroup st with
                     | Some g => g
                     | None => emptyQuery
                     end in
        let newQuery := mkQuery [] [] [] (Some (mkField p0 p1)) in
        mkState (stack st)
                (Some (attach (currentOperator st) group newQuery))
                (currentOperator st)
    | _ => st
    end
  else if is_operator (Type_ token) then
    mkState (stack st) (currentGroup st) (Type_ token)
  else if (Type_ token =? TokenOpenParen)%Z then
    match currentGroup st with
    | Some g => mkState (g :: stack st) (Some emptyQuery) (currentOperator st)
    | None => mkState (stack st) (Some emptyQuery) (currentOperator st)
    end
  else if (Type_ token =? TokenCloseParen)%Z then
    match stack st, currentGroup st with
    | parent :: stack', Some g =>
        let cleaned := cleanupQuery (Some g) in
        match cleaned with
        | Some c =>
            if isEmptyQuery cleaned
            then mkState stack' (Some parent) (currentOperator st)
            else mkState stack'
                         (Some (attach (currentOperator st) parent c))
                         (currentOperator st)
        | None => mkState stack' (Some parent) (currentOperator st)
        end
    | _, _ => st
    end
  else st.

Definition parse_loop (tokens : list Token) (st : state) : state :=
  fold_left parse_step tokens st.

Definition parseTokens (tokens : list Token) : option ParsedQuery :=
  cleanupQuery (currentGroup (parse_loop tokens (mkState [] None TokenAND))).

(** One or more bytes other than the double quote, longest first: the
    class-plus of both expressions of this file. *)
Definition quoted_value : regex := Plus (not_char dquote).

Definition tokenize : gostring -> list Token :=
  Lexer.tokenize (token_regex quoted_value) (field_call quoted_value).

Definition error : Type := gostring.

Definition processQuery (line : gostring)
  : option ParsedQuery * option error :=
  let tokens := tokenize line in
  let parsedQuery := parseTokens tokens in
  if isEmptyQuery parsedQuery
  then (None, Some (lit "query parsed to empty structure"))
  else (parsedQuery, None).

End MainGo.

(** ** Comparing the trees of the two files

    A tree of the second file, read as a tree of [main.go]: every child of a
    bucket is a [ParsedQuery] value. *)
Fixpoint embed (t : Part0.ParsedQuery) : MainGo.ParsedQuery :=
  MainGo.mkQuery
    (map (fun c => MainGo.ItemQuery (embed c)) (Part0.AND t))
    (map (fun c => MainGo.ItemQuery (embed c)) (Part0.OR t))
    (map (fun c => MainGo.ItemQuery (embed c)) (Part0.AND_NOT t))
    (Part0.Field_ t).

Definition embed_result (r : option Part0.ParsedQuery * option Part0.error)
  : option MainGo.ParsedQuery * option MainGo.error :=
  (option_map embed (fst r), snd r).

(** ** The lines and trees of the scenarios *)

Module Scenarios.
Import GoStrings Lexer.

(** [NAME(QvalueQ)], Q being the double quote. *)
Definition call (name value : gostring) : gostring :=
  name ++ lit "(" ++ q ++ value ++ q ++ lit ")".

(** [QvalueQ]. *)
Definition quoted (value : gostring) : gostring := q ++ value ++ q.

Definition leaf (name value : string) : Part0.ParsedQuery :=
  Part0.mkQuery [] [] [] (Some (mkField (lit name) (lit value))).

(** [(Qdeep learningQ OR Qneural networkQ) AND TITLE(QsurveyQ)] *)
Definition line_survey : gostring :=
  lit "(" ++ quoted (lit "deep learning") ++ lit " OR "
  ++ quoted (lit "neural network") ++ lit ") AND "
  ++ call (lit "TITLE") (lit "survey").

(** [And{ Or{deep learning, neural network}, survey }] *)
Definition tree_survey_claimed : Part0.ParsedQuery :=
  Part0.mkQuery
    [ Part0.mkQuery []
        [leaf "ANY" "deep learning"; leaf "ANY" "neural network"] [] None;
      leaf "TITLE" "survey" ]
    [] [] None.

(** The group keeps its first term in its AND bucket. *)
Definition tree_survey_part0 : Part0.ParsedQuery :=
  Part0.mkQuery
    [ Part0.mkQuery [leaf "ANY" "deep learning"]
                    [leaf "ANY" "neural network"] [] None;
      leaf "TITLE" "survey" ]
    [] [] None.

(** No group at all: the three terms are in the buckets of the root. *)
Definition tree_survey_main : Part0.ParsedQuery :=
  Part0.mkQuery [leaf "ANY" "deep learning"; leaf "TITLE" "survey"]
                [leaf "ANY" "neural network"] [] None.

(** [TITLE-ABS-KEY(QbatteryQ) AND NOT AUTHKEY(QrecyclingQ)] *)
Definition line_battery : gostring :=
  call (lit "TITLE-ABS-KEY") (lit "battery") ++ lit " AND NOT "
  ++ call (lit "AUTHKEY") (lit "recycling").

Definition tree_battery : Part0.ParsedQuery :=
  Part0.mkQuery [leaf "TITLE-ABS-KEY" "battery"] []
                [leaf "AUTHKEY" "recycling"] None.

(** [TITLE(QaQ) TITLE(QbQ)] and [TITLE(QaQ) AND TITLE(QbQ)] *)
Definition line_implicit : gostring :=
  call (lit "TITLE") (lit "a") ++ lit " " ++ call (lit "TITLE") (lit "b").

Definition line_explicit : gostring :=
  call (lit "TITLE") (lit "a") ++ lit " AND " ++ call (lit "TITLE") (lit "b").

(** The message of the error of [processQuery]. *)
Definition empty_error : gostring := lit "query parsed to empty structure".

Definition tree_a_b : Part0.ParsedQuery :=
  Part0.mkQuery [leaf "TITLE" "a"; leaf "TITLE" "b"] [] [] None.

(** The four field functions. *)
Definition field_function_names : list gostring :=
  [lit "TITLE-ABS-KEY"; lit "TITLE-ABS"; lit "TITLE"; lit "AUTHKEY"].

Definition is_field_name (name : gostring) : bool :=
  existsb (eqs name) field_function_names.

(** No byte of [s] is [c]. *)
Definition lacks (c : ascii) (s : gostring) : bool :=
  forallb (fun x => negb (Ascii.eqb x c)) s.

Definition has_colon (value : gostring) : bool :=
  existsb (Ascii.eqb ":") value.

(** The value leaves no parenthesis open, so that the tokenizer appends
    nothing to the line of its term. *)
Definition parens_closed (value : gostring) : bool :=
  Count value "(" <=? Count value ")".

(** The value as the scan sees it, after the five replacements of the
    tokenizer. *)
Definition scan_value (value : gostring) : gostring :=
  ReplaceAll
    (ReplaceAll
       (ReplaceAll
          (ReplaceAll (ReplaceAll value (lit "( ") (lit "("))
             (lit " )") (lit ")"))
          (lit " AND NOT ") (lit " AND_NOT "))
       (lit " AND ") (lit " AND "))
    (lit " OR ") (lit " OR ").

(** The [Field] token of the term [name(QvalueQ)]. *)
Definition field_token (name value : gostring) : Token :=
  mkToken TokenField (name ++ lit ":" ++ value).

(** Tokens, as the tokenizer writes them. *)
Definition tok (type : Z) (value : string) : Token := mkToken type (lit value).
Definition tok_open : Token := tok TokenOpenParen "(".
Definition tok_close : Token := tok TokenCloseParen ")".
Definition tok_or : Token := tok TokenOR "OR".
Definition tok_title (value : string) : Token :=
  mkToken TokenField (lit "TITLE:" ++ lit value).

(** The tokens of [TITLE(QxQ) AND (TITLE(QaQ) OR TITLE(QbQ))] after the
    first term. *)
Definition tokens_group : list Token :=
  [tok_open; tok_title "a"; tok_or; tok_title "b"; tok_close].

(** [{AND: [a], OR: [b]}], the group of [tokens_group]. *)
Definition tree_group : Part0.ParsedQuery :=
  Part0.mkQuery [leaf "TITLE" "a"] [leaf "TITLE" "b"] [] None.

(** The state of the parser of [main.go]. *)
Definition main_state (stack : list Part0.ParsedQuery)
    (group : Part0.ParsedQuery) (operator : Z) : MainGo.state :=
  MainGo.mkState (map embed stack) (Some (embed group)) operator.

End Scenarios.

(** ** Shapes of trees *)

Module Shapes.
Import Scenarios.

(** A node with no leaf and one child in all: one bucket of size 1, the
    other two empty. *)
Definition single_child_wrapper (t : Part0.ParsedQuery) : bool :=
  Part0.is_nil (Part0.Field_ t)
  && (length (Part0.AND t) + length (Part0.OR t) + length (Part0.AND_NOT t)
      =? 1).

(** [every_node p t]: [p] holds of [t] and of every node below it. *)
Fixpoint every_node (p : Part0.ParsedQuery -> bool) (t : Part0.ParsedQuery)
  : bool :=
  p t
  && forallb (every_node p) (Part0.AND t)
  && forallb (every_node p) (Part0.OR t)
  && forallb (every_node p) (Part0.AND_NOT t).

(** [closes_matched depth tokens]: every closing parenthesis of [tokens]
    closes a parenthesis opened in [tokens] or one of the [depth] that are
    open already, and none of those stays open. *)
Fixpoint closes_matched (depth : nat) (tokens : list Lexer.Token) : bool :=
  match tokens with
  | [] => depth =? 0
  | token :: tokens' =>
      if (Lexer.Type_ token =? Lexer.TokenOpenParen)%Z
      then closes_matched (S depth) tokens'
      else if (Lexer.Type_ token =? Lexer.TokenCloseParen)%Z
      then match depth with
           | O => false
           | S depth' => closes_matched depth' tokens'
           end
      else closes_matched depth tokens'
  end.

(** What closing a group does to its parent in the second file: the
    normalized group, if there is one, goes to the bucket the operator saved
    with the parent selects. *)
Definition part0_close (parent group : Part0.StackItem) : Part0.StackItem :=
  match Part0.cleanupQuery (Some (Part0.query group)) with
  | Some c => Part0.attach parent c
  | None => parent
  end.

(** What closing a group does in [main.go]: the normalized group, if it is
    not empty, goes to the bucket of the parent that [operator] selects. *)
Definition main_close (operator : Z) (parent group : MainGo.ParsedQuery)
  : MainGo.ParsedQuery :=
  if MainGo.isEmptyQuery (Some (MainGo.cleanup group)) then parent
  else MainGo.attach operator parent (MainGo.cleanup group).

(** No token is a parenthesis. *)
Definition no_paren_tokens (tokens : list Lexer.Token) : bool :=
  forallb (fun t => negb (Lexer.Type_ t =? Lexer.TokenOpenParen)%Z
                    && negb (Lexer.Type_ t =? Lexer.TokenCloseParen)%Z)
          tokens.

(** No byte of the line is a backslash. *)
Definition no_backslash (line : GoStrings.gostring) : bool :=
  forallb (fun c => negb (Ascii.eqb c GoStrings.backslash)) line.

(** A node that is a leaf and nothing else. *)
Definition is_leaf (t : Part0.ParsedQuery) : Prop :=
  exists field, t = Part0.mkQuery [] [] [] (Some field).

(** A node without a leaf whose children are all leaves: what the parsers
    build from tokens without parentheses. *)
Definition is_flat (t : Part0.ParsedQuery) : Prop :=
  Part0.Field_ t = None
  /\ Forall is_leaf (Part0.AND t) /\ Forall is_leaf (Part0.OR t)
  /\ Forall is_leaf (Part0.AND_NOT t).

(** The root replaced by its only child, if it is a single-child wrapper. *)
Definition collapse_root (t : Part0.ParsedQuery) : Part0.ParsedQuery :=
  if single_child_wrapper t
  then hd t (Part0.AND t ++ Part0.OR t ++ Part0.AND_NOT t)
  else t.

(** What [processQuery] returns for the tree [t], nil or empty meaning the
    error. *)
Definition main_result (t : Part0.ParsedQuery)
  : option MainGo.ParsedQuery * option MainGo.error :=
  if Part0.isEmptyQuery (Some t) then (None, Some empty_error)
  else (Some (embed t), None).

Definition part0_result (t : Part0.ParsedQuery)
  : option Part0.ParsedQuery * option Part0.error :=
  if Part0.isEmptyQuery (Some t) then (None, Some empty_error)
  else (Some t, None).

(** The states of the two parsers that correspond, outside parentheses:
    the same operator, one of the three, and the same flat group, nil in
    [main.go] as long as it is empty. *)
Definition flat_states (st0 : Part0.state) (st1 : MainGo.state) : Prop :=
  fst st0 = [] /\ MainGo.stack st1 = []
  /\ Part0.operator (snd st0) = MainGo.currentOperator st1
  /\ Lexer.is_operator (MainGo.currentOperator st1) = true
  /\ is_flat (Part0.query (snd st0))
  /\ MainGo.currentGroup st1
     = if Part0.isEmptyQuery (Some (Part0.query (snd st0))) then None
       else Some (embed (Part0.query (snd st0))).

(** [*currentGroup], the empty node standing for nil. *)
Definition main_group_of (st : MainGo.state) : MainGo.ParsedQuery :=
  match MainGo.currentGroup st with
  | Some g => g
  | None => MainGo.emptyQuery
  end.

(** The same shape, in a tree of [main.go]. *)
Definition main_single_child_wrapper (t : MainGo.ParsedQuery) : bool :=
  MainGo.is_nil (MainGo.Field_ t)
  && (length (MainGo.AND t) + length (MainGo.OR t)
      + length (MainGo.AND_NOT t) =? 1).

(** [{AND: [child]}], as [main.go] holds it. *)
Definition main_and_wrapper (child : MainGo.ParsedQuery)
  : MainGo.ParsedQuery :=
  MainGo.mkQuery [MainGo.ItemQuery child] [] [] None.

Definition main_leaf (field : Lexer.Field) : MainGo.ParsedQuery :=
  MainGo.mkQuery [] [] [] (Some field).

(** The height of a result of [Part0.cleanupQuery], nil counting for 0. *)
Definition result_height (r : option Part0.ParsedQuery) : nat :=
  match r with Some t => Part0.height t | None => 0 end.

(** [p] holds of the tree an element of a [main.go] bucket carries, if it
    carries one. *)
Definition item_holds (p : MainGo.ParsedQuery -> Prop) (item : MainGo.Item)
  : Prop :=
  match item with
  | MainGo.ItemQuery s => p s
  | MainGo.ItemPointer (Some s) => p s
  | _ => True
  end.

End Shapes.

(** ** Notions for reasoning about the scan *)

Module ScanFacts.
Import GoStrings GoRegexp.

Definition not_quote (c : ascii) : bool := negb (Ascii.eqb c dquote).

(** A continuation that fails on any input that starts with a byte other
    than the double quote: what follows a quoted value in every expression
    of the program. *)
Definition quote_guarded {A : Type} (k : @cont A) : Prop :=
  forall x s cs, not_quote x = true -> k (x :: s) cs = None.

(** What matching one or more bytes other than the double quote, and then
    [k], comes to when [k] is guarded: [k] runs once, after the whole run
    of such bytes. *)
Definition after_value {A : Type} (k : @cont A) (s : gostring)
    (cs : captures) : option A :=
  match s with
  | x :: s' => if not_quote x then k (drop_while not_quote s') cs else None
  | [] => None
  end.

Definition is_suffix (s' s : gostring) : Prop := exists p, s = p ++ s'.

(** On the suffixes of [s], [body] matches one byte other than the double
    quote. *)
Definition steps_like_class {A : Type} (body : @matcher A) (s : gostring)
  : Prop :=
  forall x s' cs k, is_suffix (x :: s') s ->
    body (x :: s') cs k = if not_quote x then k s' cs else None.

(** Two expressions that match alike on the strings whose bytes all
    satisfy [P]. *)
Definition same_on (P : ascii -> Prop) (r1 r2 : regex) : Prop :=
  forall (A : Type) s cs (k : @cont A),
    Forall P s -> rmatch r1 s cs k = rmatch r2 s cs k.

(** An expression that matches like a quoted value on those strings. *)
Definition value_on (P : ascii -> Prop) (v : regex) : Prop :=
  forall (A : Type) s cs (k : @cont A),
    Forall P s -> quote_guarded k -> rmatch v s cs k = after_value k s cs.

Definition not_backslash (c : ascii) : Prop := c <> backslash.

(** [consumes r]: by its shape, [r] matches one byte at least. *)
Fixpoint consumes (r : regex) : bool :=
  match r with
  | Chr _ | Cls _ => true
  | Cat r1 r2 => consumes r1 || consumes r2
  | Alt r1 r2 => consumes r1 && consumes r2
  | Star _ => false
  | Plus r1 | PlusLazy r1 | Group _ r1 => consumes r1
  end.

End ScanFacts.

(** ** The terms of a tree and of a token sequence *)

Module Terms.
Import GoStrings Lexer.

(** The leaves of a tree of part_000: the leaf of a node, then those of its
    [AND], [OR] and [AND_NOT] buckets. *)
Fixpoint leaves (t : Part0.ParsedQuery) : list Field :=
  match Part0.Field_ t with Some f => [f] | None => [] end
  ++ flat_map leaves (Part0.AND t)
  ++ flat_map leaves (Part0.OR t)
  ++ flat_map leaves (Part0.AND_NOT t).

Definition result_leaves (r : option Part0.ParsedQuery) : list Field :=
  match r with Some t => leaves t | None => [] end.

(** The leaves an element of a [main.go] bucket carries: those of its tree,
    or the [Field] itself. *)
Definition item_leaves (leaves_of : MainGo.ParsedQuery -> list Field)
    (item : MainGo.Item) : list Field :=
  match item with
  | MainGo.ItemQuery s => leaves_of s
  | MainGo.ItemPointer (Some s) => leaves_of s
  | MainGo.ItemPointer None => []
  | MainGo.ItemField f => [f]
  | MainGo.ItemOther => []
  end.

Fixpoint main_leaves (t : MainGo.ParsedQuery) : list Field :=
  match t with
  | MainGo.mkQuery a o n f =>
      match f with Some x => [x] | None => [] end
      ++ flat_map (item_leaves main_leaves) a
      ++ flat_map (item_leaves main_leaves) o
      ++ flat_map (item_leaves main_leaves) n
  end.

Definition main_result_leaves (r : option MainGo.ParsedQuery) : list Field :=
  match r with Some t => main_leaves t | None => [] end.

(** The leaf [parseTokens] builds from a token, if it builds one: the token
    is a [Field] token and its payload has exactly one colon. *)
Definition token_fields (token : Token) : list Field :=
  if (Type_ token =? TokenField)%Z then
    match Split (Value token) ":" with
    | [p0; p1] => [mkField p0 p1]
    | _ => []
    end
  else [].

Definition fields_of (tokens : list Token) : list Field :=
  flat_map token_fields tokens.

(** The number of groups open after [tokens], [depth] of them being open
    before; a closing parenthesis with no group open closes nothing. *)
Fixpoint open_groups (depth : nat) (tokens : list Token) : nat :=
  match tokens with
  | [] => depth
  | token :: tokens' =>
      if (Type_ token =? TokenOpenParen)%Z
      then open_groups (S depth) tokens'
      else if (Type_ token =? TokenCloseParen)%Z
      then open_groups (pred depth) tokens'
      else open_groups depth tokens'
  end.

(** Every closing parenthesis of [tokens] closes a group opened in [tokens]
    or one of the [depth] open before; groups may stay open. *)
Fixpoint closes_within (depth : nat) (tokens : list Token) : bool :=
  match tokens with
  | [] => true
  | token :: tokens' =>
      if (Type_ token =? TokenOpenParen)%Z
      then closes_within (S depth) tokens'
      else if (Type_ token =? TokenCloseParen)%Z
      then match depth with
           | O => false
           | S depth' => closes_within depth' tokens'
           end
      else closes_within depth tokens'
  end.

(** The operator in force after [tokens]: the type of the last operator
    token, [AND] if there is none. *)
Definition last_operator (tokens : list Token) : Z :=
  fold_left (fun op token =>
               if is_operator (Type_ token) then Type_ token else op)
            tokens TokenAND.

(** A node of part_000 that is not empty. *)
Definition nonempty (t : Part0.ParsedQuery) : bool :=
  negb (Part0.isEmptyQuery (Some t)).

(** An element of a [main.go] bucket that is a [ParsedQuery] value, not
    empty, and normal below. *)
Definition item_normal (normal : MainGo.ParsedQuery -> bool)
    (item : MainGo.Item) : bool :=
  match item with
  | MainGo.ItemQuery s => negb (MainGo.isEmptyQuery (Some s)) && normal s
  | _ => false
  end.

(** A tree of [main.go] whose buckets hold such elements only, at every
    level. *)
Fixpoint main_normal (t : MainGo.ParsedQuery) : bool :=
  match t with
  | MainGo.mkQuery a o n _ =>
      forallb (item_normal main_normal) a
      && forallb (item_normal main_normal) o
      && forallb (item_normal main_normal) n
  end.

(** The saved operators of a state of part_000 are among the three. *)
Definition operators_set (st : Part0.state) : Prop :=
  Forall (fun item => is_operator (Part0.operator item) = true) (fst st)
  /\ is_operator (Part0.operator (snd st)) = true.

(** The leaves held in a state of [parseTokens]: those of the groups on the
    stack and those of the current group. *)
Definition state_leaves (st : Part0.state) : list Field :=
  flat_map (fun item => leaves (Part0.query item)) (fst st)
  ++ leaves (Part0.query (snd st)).

Definition main_state_leaves (st : MainGo.state) : list Field :=
  flat_map main_leaves (MainGo.stack st)
  ++ main_result_leaves (MainGo.currentGroup st).

(** The bytes a match of the scan expressions can start with: [T] and [A]
    of the field names, [O] and [A] of the operators, the parentheses and
    the double quote. *)
Definition starts_token (c : ascii) : bool :=
  Ascii.eqb c "T" || Ascii.eqb c "A" || Ascii.eqb c "O"
  || Ascii.eqb c "(" || Ascii.eqb c ")" || Ascii.eqb c dquote.

(** What [tokenize] may emit: a [Field] token whose payload has a colon, or
    an operator or parenthesis token that carries its spelling. *)
Definition token_ok (t : Token) : bool :=
  ((Type_ t =? TokenField)%Z && existsb (Ascii.eqb ":") (Value t))
  || ((Type_ t =? TokenOR)%Z && eqs (Value t) (lit "OR"))
  || ((Type_ t =? TokenAND)%Z && eqs (Value t) (lit "AND"))
  || ((Type_ t =? TokenANDNOT)%Z && eqs (Value t) (lit "AND_NOT"))
  || ((Type_ t =? TokenOpenParen)%Z && eqs (Value t) (lit "("))
  || ((Type_ t =? TokenCloseParen)%Z && eqs (Value t) (lit ")")).

End Terms.

(** ** [processFile]: the output path and the loop over the lines

    [processFile] opens the input, creates the output, reads the input line
    by line, and encodes what it has collected.  The file system and the
    encoder are not modelled; what is modelled is what the function computes
    in between: the path of the output, and the collected trees and the
    warnings as a function of the lines the scanner yields. *)

Module GoPath.
Import GoStrings.

(** The loop of [filepath.Ext], from the last byte of the path backwards
    ([rpath] is what is left of the path, reversed, [tail] what has been
    passed): up to the first separator, which on Unix is the slash. *)
Fixpoint ext_scan (rpath tail : gostring) : gostring :=
  match rpath with
  | [] => []
  | c :: rpath' =>
      if Ascii.eqb c "/" then []
      else if Ascii.eqb c "." then c :: tail
      else ext_scan rpath' (c :: tail)
  end.

(** [filepath.Ext]. *)
Definition Ext (path : gostring) : gostring := ext_scan (rev path) [].

(** [strings.TrimSuffix]. *)
Definition TrimSuffix (s suffix : gostring) : gostring :=
  if HasSuffix s suffix then firstn (length s - length suffix) s else s.

(** [outputPath] of [processFile], the same expression in both files. *)
Definition outputPath (inputPath : gostring) : gostring :=
  TrimSuffix inputPath (Ext inputPath) ++ lit ".json".

End GoPath.

Module FileLoop.
Import GoStrings.

Section Loop.
(** [Tree] is [ParsedQuery]; the two files differ in [processQuery] and
    [isEmptyQuery] only. *)
Variable Tree : Type.
Variable processQuery : gostring -> option Tree * option gostring.
Variable isEmptyQuery : option Tree -> bool.

(** [lineNumber], [allQueries], and the line numbers of the warnings
    printed, in the order of printing. *)
Record progress : Type :=
  mkProgress {
    lineNumber : nat;
    allQueries : list Tree;
    warnings : list nat
  }.

(** The body of the loop [for scanner.Scan()], for the line [text] the
    scanner yields.  [isEmptyQuery] is true of nil, so the pointer that is
    appended (in part_000, dereferenced) is not nil. *)
Definition scan_step (p : progress) (text : gostring) : progress :=
  let lineNumber := S (lineNumber p) in
  let line := TrimSpace text in
  if eqs line [] then mkProgress lineNumber (allQueries p) (warnings p)
  else
    match processQuery line with
    | (_, Some _) =>
        mkProgress lineNumber (allQueries p) (warnings p ++ [lineNumber])
    | (parsedQuery, None) =>
        if negb (isEmptyQuery parsedQuery) then
          match parsedQuery with
          | Some t => mkProgress lineNumber (allQueries p ++ [t]) (warnings p)
          | None => mkProgress lineNumber (allQueries p) (warnings p)
          end
        else mkProgress lineNumber (allQueries p) (warnings p)
    end.

Definition scan_lines (lines : list gostring) : progress :=
  fold_left scan_step lines (mkProgress 0 [] []).

(** [n] is the number of a line of [lines], counted from 1, for which
    [processQuery] returns an error. *)
Definition warned (lines : list gostring) (n : nat) : Prop :=
  1 <= n
  /\ exists text e, nth_error lines (n - 1) = Some text
                    /\ processQuery (TrimSpace text) = (None, Some e).

(** [t] is the tree [processQuery] returns for a line of [lines]. *)
Definition collected (lines : list gostring) (t : Tree) : Prop :=
  exists text, In text lines /\ processQuery (TrimSpace text) = (Some t, None).

(** What holds of the loop after the lines [done]. *)
Definition accounted (done : list gostring) (p : progress) : Prop :=
  lineNumber p = length done
  /\ length (allQueries p) + length (warnings p)
     = length (filter (fun text => negb (eqs (TrimSpace text) [])) done)
  /\ Forall (collected done) (allQueries p)
  /\ Forall (warned done) (warnings p).
End Loop.

Arguments lineNumber {Tree} _.
Arguments allQueries {Tree} _.
Arguments warnings {Tree} _.

End FileLoop.

Module Part0File.
Definition processFile
  : list GoStrings.gostring -> FileLoop.progress Part0.ParsedQuery :=
  FileLoop.scan_lines Part0.ParsedQuery Part0.processQuery Part0.isEmptyQuery.
End Part0File.

Module MainGoFile.
Definition processFile
  : list GoStrings.gostring -> FileLoop.progress MainGo.ParsedQuery :=
  FileLoop.scan_lines MainGo.ParsedQuery MainGo.processQuery
                      MainGo.isEmptyQuery.
End MainGoFile.

(** ** Lines of two terms and an operator *)

Module Binary.
Import GoStrings Lexer Scenarios.

(** The three operators as a line spells them, each with the token the
    tokenizer makes of it. *)
Definition operator_words : list (gostring * Token) :=
  [ (lit "OR", tok TokenOR "OR");
    (lit "AND", tok TokenAND "AND");
    (lit "AND NOT", tok TokenANDNOT "AND_NOT") ].

(** [term1 WORD term2]. *)
Definition binary_line (term1 word term2 : gostring) : gostring :=
  term1 ++ lit " " ++ word ++ lit " " ++ term2.

(** A value that is not empty, has no double quote, backslash or colon, and
    leaves no parenthesis open. *)
Definition plain_value (value : gostring) : bool :=
  negb (eqs value []) && lacks dquote value && lacks backslash value
  && lacks ":" value && parens_closed value.

(** The group of two leaves: the first in [AND], the second in the bucket
    of the operator. *)
Definition binary_tree (operator : Z) (l r : Part0.ParsedQuery)
  : Part0.ParsedQuery :=
  if (operator =? TokenOR)%Z then Part0.mkQuery [l] [r] [] None
  else if (operator =? TokenANDNOT)%Z then Part0.mkQuery [l] [] [r] None
  else Part0.mkQuery [l; r] [] [] None.

End Binary.

(** * Theorems *)

Import GoStrings GoRegexp Lexer Scenarios Shapes ScanFacts.

(** ** The scenarios *)

(** C1, as the specification states it, fails in both files: neither
    pipeline produces [And{ Or{deep learning, neural network}, survey }] for
    the line [(Qdeep learningQ OR Qneural networkQ) AND TITLE(QsurveyQ)]. *)
Lemma C1_claimed_tree_not_produced :
  Part0.parseTokens (Part0.tokenize line_survey) <> Some tree_survey_claimed
  /\ MainGo.parseTokens (MainGo.tokenize line_survey)
     <> Some (embed tree_survey_claimed).
Proof. split; vm_compute; discriminate. Qed.

(** C1, amended: in the second file the root is an AND node with two
    children, a node with [deep learning] in its AND bucket and
    [neural network] in its OR bucket, and the leaf [survey]; in [main.go]
    the root itself holds [deep learning] and [survey] in its AND bucket and
    [neural network] in its OR bucket. *)
Theorem C1_survey_trees :
  Part0.parseTokens (Part0.tokenize line_survey) = Some tree_survey_part0
  /\ MainGo.parseTokens (MainGo.tokenize line_survey)
     = Some (embed tree_survey_main).
Proof. split; vm_compute; reflexivity. Qed.

(** C5: the line [TITLE-ABS-KEY(QbatteryQ) AND NOT AUTHKEY(QrecyclingQ)]
    gives, in both files, one root with [battery] alone in its AND bucket,
    [recycling] alone in its AND_NOT bucket, an empty OR bucket and no leaf;
    the normalizer leaves that node as it is. *)
Theorem C5_battery_tree :
  Part0.processQuery line_battery = (Some tree_battery, None)
  /\ MainGo.processQuery line_battery = (Some (embed tree_battery), None)
  /\ Part0.cleanupQuery (Some tree_battery) = Some tree_battery
  /\ MainGo.cleanupQuery (Some (embed tree_battery))
     = Some (embed tree_battery).
Proof. repeat split; vm_compute; reflexivity. Qed.

(** C6: [TITLE(QaQ) TITLE(QbQ)] gives, in both files, the AND node with the
    two leaves [{TITLE, a}] and [{TITLE, b}], the tree that
    [TITLE(QaQ) AND TITLE(QbQ)] gives. *)
Theorem C6_implicit_and :
  Part0.processQuery line_implicit = (Some tree_a_b, None)
  /\ Part0.processQuery line_implicit = Part0.processQuery line_explicit
  /\ MainGo.processQuery line_implicit = (Some (embed tree_a_b), None)
  /\ MainGo.processQuery line_implicit = MainGo.processQuery line_explicit.
Proof. repeat split; vm_compute; reflexivity. Qed.

(** ** The normalizer of the second file *)

Section Part0Cleanup.
Import Part0.

Lemma height_children (t : ParsedQuery) (c : ParsedQuery) :
  In c (AND t) \/ In c (OR t) \/ In c (AND_NOT t) -> height c < height t.
Proof.
  destruct t as [a o n f]; simpl.
  assert (M : forall l, In c l -> height c <= list_max (map height l)).
  { intros l Hin. 
    assert (H := proj1 (list_max_le (map height l) (list_max (map height l))) (le_n _)).
    rewrite Forall_forall in H. apply H. now apply in_map. }
  intros [H | [H | H]]; apply M in H; lia.
Qed.

(** What [clean_bucket] returns: the elements it keeps are results of
    [cleanup] that are not empty, in the order of the bucket. *)
Lemma clean_bucket_kept (f : ParsedQuery -> option (option ParsedQuery))
    (l l' : list ParsedQuery) :
  clean_bucket f l = Some l' ->
  Forall (fun c => isEmptyQuery (Some c) = false
                   /\ exists x, In x l /\ f x = Some (Some c)) l'.
Proof.
  revert l'; induction l as [| x l IH]; simpl; intros l' H.
  - injection H as <-. constructor.
  - destruct (f x) as [[c |] |] eqn:Fx; try discriminate;
      destruct (clean_bucket f l) as [rest |] eqn:Cl; try discriminate.
    + specialize (IH rest eq_refl).
      assert (IH' : Forall (fun c0 => isEmptyQuery (Some c0) = false /\
                       exists x0, In x0 (x :: l) /\ f x0 = Some (Some c0)) rest).
      { eapply Forall_impl; [| exact IH]. intros c0 [E [x0 [I F]]].
        split; [exact E |]. exists x0; split; [now right | exact F]. }
      destruct (isEmptyQuery (Some c)) eqn:E; injection H as <-.
      * exact IH'.
      * constructor; [| exact IH']. split; [exact E |].
        exists x; split; [now left | exact Fx].
    + injection H as <-. specialize (IH rest eq_refl).
      eapply Forall_impl; [| exact IH]. intros c0 [E [x0 [I F]]].
      split; [exact E |]. exists x0; split; [now right | exact F].
Qed.

Lemma clean_bucket_total (f : ParsedQuery -> option (option ParsedQuery))
    (l : list ParsedQuery) :
  (forall x, In x l -> exists r, f x = Some r) ->
  exists l', clean_bucket f l = Some l'.
Proof.
  induction l as [| x l IH]; simpl; intros H.
  - now exists [].
  - destruct (H x (or_introl eq_refl)) as [r Fx]. rewrite Fx.
    destruct IH as [rest Cl]; [intros y Hy; apply H; now right |].
    rewrite Cl. destruct r as [c |]; [destruct (isEmptyQuery (Some c)) |];
      eauto.
Qed.

(** A bucket of normal, non-empty trees is left as it is. *)
Lemma clean_bucket_fixed (f : ParsedQuery -> option (option ParsedQuery))
    (l : list ParsedQuery) :
  Forall (fun c => f c = Some (Some c) /\ isEmptyQuery (Some c) = false) l ->
  clean_bucket f l = Some l.
Proof.
  induction 1 as [| c l [Fc E] _ IH]; simpl; [reflexivity |].
  now rewrite Fc, IH, E.
Qed.

Lemma clean_bucket_mono (f g : ParsedQuery -> option (option ParsedQuery))
    (l l' : list ParsedQuery) :
  (forall x r, f x = Some r -> g x = Some r) ->
  clean_bucket f l = Some l' -> clean_bucket g l = Some l'.
Proof.
  intros FG; revert l'; induction l as [| x l IH]; simpl; intros l' H;
    [exact H |].
  destruct (f x) as [r |] eqn:Fx; [| discriminate].
  destruct (clean_bucket f l) as [rest |] eqn:Cl; [| destruct r; discriminate].
  rewrite (FG _ _ Fx), (IH rest eq_refl). exact H.
Qed.

(** The three outcomes of [cleanup_body]: nothing left, a single child
    cleaned again, or the rebuilt node. *)
Lemma cleanup_body_cases (f : ParsedQuery -> option (option ParsedQuery))
    (t : ParsedQuery) (r : option ParsedQuery) :
  cleanup_body f t = Some r ->
  exists cA cO cN,
    clean_bucket f (AND t) = Some cA /\ clean_bucket f (OR t) = Some cO
    /\ clean_bucket f (AND_NOT t) = Some cN
    /\ let cleaned := mkQuery cA cO cN (Field_ t) in
       (isEmptyQuery (Some cleaned) = true /\ r = None)
       \/ (single_child_wrapper cleaned = true
           /\ exists c, In c (cA ++ cO ++ cN) /\ f c = Some r)
       \/ (isEmptyQuery (Some cleaned) = false
           /\ single_child_wrapper cleaned = false /\ r = Some cleaned).
Proof.
  unfold cleanup_body.
  destruct (clean_bucket f (AND t)) as [cA |]; [| discriminate].
  destruct (clean_bucket f (OR t)) as [cO |]; [| discriminate].
  destruct (clean_bucket f (AND_NOT t)) as [cN |]; [| discriminate].
  intros H. exists cA, cO, cN. repeat split. revert H.
  unfold single_child_wrapper, isEmptyQuery; simpl.
  destruct (Field_ t) as [fl |]; simpl.
  - rewrite !andb_false_r. simpl. intros H; injection H as <-. right; right. auto.
  - destruct cA as [| a [| a' cA]]; destruct cO as [| o [| o' cO]];
      destruct cN as [| n [| n' cN]]; simpl; intros H;
      try (injection H as <-);
      try (left; split; reflexivity);
      try (right; right; repeat split; try reflexivity;
           rewrite ?Nat.add_succ_r; reflexivity);
      right; left; (split; [reflexivity |]); eexists; (split; [| exact H]);
      simpl; auto.
Qed.

Lemma cleanup_fuel_mono (n : nat) :
  forall t r, cleanup_fuel n t = Some r ->
  forall m, n <= m -> cleanup_fuel m t = Some r.
Proof.
  induction n as [| n IH]; intros t r H m Hm; [discriminate |].
  destruct m as [| m]; [lia |]. simpl in *.
  assert (FG : forall x r0, cleanup_fuel n x = Some r0 ->
                            cleanup_fuel m x = Some r0)
    by (intros; eapply IH; [eassumption | lia]).
  unfold cleanup_body in *.
  destruct (clean_bucket (cleanup_fuel n) (AND t)) as [cA |] eqn:EA;
    [| discriminate].
  destruct (clean_bucket (cleanup_fuel n) (OR t)) as [cO |] eqn:EO;
    [| discriminate].
  destruct (clean_bucket (cleanup_fuel n) (AND_NOT t)) as [cN |] eqn:EN;
    [| discriminate].
  rewrite (clean_bucket_mono _ _ _ _ FG EA), (clean_bucket_mono _ _ _ _ FG EO),
    (clean_bucket_mono _ _ _ _ FG EN).
  repeat match goal with
         | H : (if ?b then _ else _) = _ |- (if ?b then _ else _) = _ =>
             destruct b
         end; auto.
Qed.

Lemma kept_height_le (f : ParsedQuery -> option (option ParsedQuery))
    (l l' : list ParsedQuery) (b : nat) :
  (forall x r, In x l -> f x = Some r -> result_height r <= height x) ->
  list_max (map height l) <= b ->
  clean_bucket f l = Some l' -> list_max (map height l') <= b.
Proof.
  intros Hf Hb H. apply clean_bucket_kept in H.
  apply list_max_le. apply Forall_map.
  rewrite list_max_le, Forall_map in Hb.
  rewrite Forall_forall in *. intros c Hc.
  destruct (H c Hc) as [_ [x [Hx Fx]]].
  specialize (Hf x _ Hx Fx). specialize (Hb x Hx). simpl in Hf. lia.
Qed.

(** [cleanup_fuel] returns as soon as the bound exceeds the height of the
    tree, and its result is no higher than its argument. *)
Lemma cleanup_fuel_total (n : nat) :
  forall t, height t < n ->
  exists r, cleanup_fuel n t = Some r /\ result_height r <= height t.
Proof.
  induction n as [| n IH]; intros t Hn; [lia |].
  assert (Hc : forall c, In c (AND t) \/ In c (OR t) \/ In c (AND_NOT t) ->
                         exists r, cleanup_fuel n c = Some r
                                   /\ result_height r <= height c).
  { intros c Hin. apply IH. apply height_children in Hin. lia. }
  assert (Hle : forall x r, cleanup_fuel n x = Some r -> height x < n ->
                            result_height r <= height x).
  { intros x r Fx Hx. destruct (IH x Hx) as [r' [Fx' Hr']]. congruence. }
  destruct (clean_bucket_total (cleanup_fuel n) (AND t)) as [cA EA].
  { intros x Hx. destruct (Hc x) as [r [Hr _]]; eauto. }
  destruct (clean_bucket_total (cleanup_fuel n) (OR t)) as [cO EO].
  { intros x Hx. destruct (Hc x) as [r [Hr _]]; eauto. }
  destruct (clean_bucket_total (cleanup_fuel n) (AND_NOT t)) as [cN EN].
  { intros x Hx. destruct (Hc x) as [r [Hr _]]; eauto. }
  assert (HA : list_max (map height cA) <= list_max (map height (AND t))).
  { eapply kept_height_le; [| apply le_n | exact EA].
    intros x r Hx Fx. apply Hle; [exact Fx |].
    assert (height x < height t) by (apply height_children; auto). lia. }
  assert (HO : list_max (map height cO) <= list_max (map height (OR t))).
  { eapply kept_height_le; [| apply le_n | exact EO].
    intros x r Hx Fx. apply Hle; [exact Fx |].
    assert (height x < height t) by (apply height_children; auto). lia. }
  assert (HN : list_max (map height cN) <= list_max (map height (AND_NOT t))).
  { eapply kept_height_le; [| apply le_n | exact EN].
    intros x r Hx Fx. apply Hle; [exact Fx |].
    assert (height x < height t) by (apply height_children; auto). lia. }
  assert (Hcl : height (mkQuery cA cO cN (Field_ t)) <= height t).
  { destruct t as [a o nn f]; simpl in *. lia. }
  assert (Htot : exists r, cleanup_body (cleanup_fuel n) t = Some r).
  { unfold cleanup_body. rewrite EA, EO, EN.
    assert (Hd : forall c, In c (cA ++ cO ++ cN) ->
                           exists r, cleanup_fuel n c = Some r).
    { intros c Hin.
      assert (height c < height (mkQuery cA cO cN (Field_ t))).
      { apply height_children; simpl. rewrite !in_app_iff in Hin. tauto. }
      destruct (IH c) as [r [Hr _]]; [lia | eauto]. }
    repeat match goal with
           | |- exists r, (if ?b then _ else _) = _ => destruct b eqn:?
           end; eauto.
    - destruct cA as [| a cA']; [discriminate |]. apply Hd; simpl; auto.
    - destruct cO as [| o cO']; [discriminate |]. apply Hd.
      rewrite !in_app_iff; simpl; auto.
    - destruct cN as [| x cN']; [discriminate |]. apply Hd.
      rewrite !in_app_iff; simpl; auto. }
  destruct Htot as [r Hr]. exists r. simpl. split; [exact Hr |].
  destruct (cleanup_body_cases _ _ _ Hr)
    as (cA' & cO' & cN' & EA' & EO' & EN' & Hcases).
  rewrite EA in EA'; rewrite EO in EO'; rewrite EN in EN'.
  injection EA' as <-; injection EO' as <-; injection EN' as <-.
  destruct Hcases as [[_ ->] | [[_ [c [Hin Fc]]] | [_ [_ ->]]]].
  - simpl; lia.
  - assert (height c < height (mkQuery cA cO cN (Field_ t))).
    { apply height_children; simpl. rewrite !in_app_iff in Hin. tauto. }
    assert (result_height r <= height c) by (apply Hle; [exact Fc | lia]).
    lia.
  - exact Hcl.
Qed.


(** [cleanupQuery] in terms of [cleanup_fuel], for any bound that is large
    enough. *)
Lemma cleanupQuery_fuel (t : ParsedQuery) (n : nat) :
  height t < n -> cleanup_fuel n t = Some (cleanupQuery (Some t)).
Proof.
  intros Hn. unfold cleanupQuery.
  destruct (cleanup_fuel_total (S (height t)) t) as [r [Hr _]]; [lia |].
  rewrite Hr. apply (cleanup_fuel_mono _ _ _ Hr). lia.
Qed.

(** A result of the normalizer is never an empty node. *)
Lemma cleanup_fuel_nonempty (n : nat) :
  forall t c, cleanup_fuel n t = Some (Some c) ->
              isEmptyQuery (Some c) = false.
Proof.
  induction n as [| n IH]; intros t c H; [discriminate |]. simpl in H.
  destruct (cleanup_body_cases _ _ _ H)
    as (cA & cO & cN & _ & _ & _ & [[_ E] | [[_ [x [_ Fx]]] | [E [_ E']]]]).
  - discriminate.
  - eapply IH; eassumption.
  - injection E' as ->. exact E.
Qed.

(** No node of a result is a single-child wrapper. *)
Lemma cleanup_fuel_no_wrapper (n : nat) :
  forall t c, cleanup_fuel n t = Some (Some c) ->
              every_node (fun x => negb (single_child_wrapper x)) c = true.
Proof.
  induction n as [| n IH]; intros t c H; [discriminate |]. simpl in H.
  destruct (cleanup_body_cases _ _ _ H)
    as (cA & cO & cN & EA & EO & EN & [[_ E] | [[_ [x [_ Fx]]] | [_ [W E]]]]).
  - discriminate.
  - eapply IH; eassumption.
  - injection E as ->.
    assert (K : forall l l', clean_bucket (cleanup_fuel n) l = Some l' ->
              forallb (every_node (fun x => negb (single_child_wrapper x))) l'
              = true).
    { intros l l' Hl. apply clean_bucket_kept in Hl. apply forallb_forall.
      rewrite Forall_forall in Hl. intros y Hy.
      destruct (Hl y Hy) as [_ [x [_ Fx]]]. eapply IH; eassumption. }
    simpl. rewrite W, (K _ _ EA), (K _ _ EO), (K _ _ EN). reflexivity.
Qed.

(** A result of the normalizer is a fixed point of the normalizer. *)
Lemma cleanup_fuel_fixed (n : nat) :
  forall t c, cleanup_fuel n t = Some (Some c) ->
  forall m, height c < m -> cleanup_fuel m c = Some (Some c).
Proof.
  induction n as [| n IH]; intros t c H m Hm; [discriminate |]. simpl in H.
  destruct (cleanup_body_cases _ _ _ H)
    as (cA & cO & cN & EA & EO & EN & [[_ E] | [[_ [x [_ Fx]]] | [NE [W E]]]]).
  - discriminate.
  - eapply IH; eassumption.
  - injection E as ->. destruct m as [| m]; [lia |]. simpl.
    assert (K : forall l l', clean_bucket (cleanup_fuel n) l = Some l' ->
              (forall y, In y l' -> height y < m) ->
              clean_bucket (cleanup_fuel m) l' = Some l').
    { intros l l' Hl Hh. apply clean_bucket_fixed.
      apply clean_bucket_kept in Hl. rewrite Forall_forall in *.
      intros y Hy. destruct (Hl y Hy) as [Ey [x [_ Fx]]].
      split; [| exact Ey]. eapply IH; [exact Fx | auto]. }
    assert (Hh : forall y, In y (cA ++ cO ++ cN) -> height y < m).
    { intros y Hy.
      assert (height y < height (mkQuery cA cO cN (Field_ t))).
      { apply height_children; simpl. rewrite !in_app_iff in Hy. tauto. }
      lia. }
    unfold cleanup_body; cbn [AND OR AND_NOT Field_].
    rewrite (K _ _ EA), (K _ _ EO), (K _ _ EN);
      try (intros y Hy; apply Hh; rewrite !in_app_iff; tauto).
    rewrite NE. revert W. unfold single_child_wrapper; simpl.
    destruct (Field_ t); simpl; [now rewrite !andb_false_r |].
    destruct cA as [| a [| a' cA]]; destruct cO as [| o [| o' cO]];
      destruct cN as [| x0 [| x' cN]]; simpl; try reflexivity;
      try discriminate; rewrite ?Nat.add_succ_r; simpl; try discriminate.
Qed.

End Part0Cleanup.

(** ** The normalizer of [main.go] *)

Section MainCleanup.
Import MainGo.

Section NestedInduction.
Variable P : ParsedQuery -> Prop.
Hypothesis step : forall a o n f,
    Forall (item_holds P) a -> Forall (item_holds P) o ->
    Forall (item_holds P) n -> P (mkQuery a o n f).

Lemma ParsedQuery_nested_ind : forall t, P t.
Proof.
  fix IH 1. intros [a o n f].
  assert (K : forall l, Forall (item_holds P) l).
  { induction l as [| it l IHl]; constructor; [| exact IHl].
    destruct it as [s | [s |] | fl |]; simpl; auto. }
  apply step; apply K.
Qed.
End NestedInduction.

Lemma main_clean_items_idem (l : list Item) :
  Forall (item_holds (fun t => cleanup (cleanup t) = cleanup t)) l ->
  clean_items cleanup (clean_items cleanup l) = clean_items cleanup l.
Proof.
  induction 1 as [| it l Hit _ IH]; [reflexivity |].
  destruct it as [s | [s |] | fl |]; cbn [clean_items item_holds] in *;
    try exact IH.
  - destruct (isEmptyQuery (Some (cleanup s))) eqn:E; [exact IH |].
    cbn [clean_items]. rewrite Hit, E, IH. reflexivity.
  - destruct (isEmptyQuery (Some (cleanup s))) eqn:E; [exact IH |].
    cbn [clean_items]. rewrite Hit, E, IH. reflexivity.
  - simpl. rewrite IH. reflexivity.
Qed.

Lemma main_cleanup_idem (t : ParsedQuery) : cleanup (cleanup t) = cleanup t.
Proof.
  induction t as [a o n f Ha Ho Hn] using ParsedQuery_nested_ind. simpl.
  now rewrite !main_clean_items_idem.
Qed.

End MainCleanup.

(** C8: the normalizer is idempotent, in both files: applying
    [cleanupQuery] to its own result, nil included, gives that result. *)
Theorem C8_cleanup_idempotent :
  (forall t, Part0.cleanupQuery (Part0.cleanupQuery t) = Part0.cleanupQuery t)
  /\ (forall t,
        MainGo.cleanupQuery (MainGo.cleanupQuery t) = MainGo.cleanupQuery t).
Proof.
  split.
  - intros [t |]; [| reflexivity].
    destruct (Part0.cleanupQuery (Some t)) as [c |] eqn:E; [| reflexivity].
    pose proof (cleanupQuery_fuel t (S (Part0.height t)) (Nat.lt_succ_diag_r _))
      as F.
    rewrite E in F.
    pose proof (cleanup_fuel_fixed _ _ _ F (S (Part0.height c))
                  (Nat.lt_succ_diag_r _)) as G.
    unfold Part0.cleanupQuery. now rewrite G.
  - intros [t |]; [| reflexivity]. simpl. now rewrite main_cleanup_idem.
Qed.

(** C3, as stated, fails for [main.go]: its normalizer returns
    [{AND: [{TITLE, a}]}] as it is, a node with one bucket of size 1, two
    empty buckets and no leaf. *)
Lemma C3_main_keeps_wrapper :
  MainGo.cleanupQuery (Some (embed (Part0.mkQuery [leaf "TITLE" "a"] [] [] None)))
  = Some (embed (Part0.mkQuery [leaf "TITLE" "a"] [] [] None))
  /\ main_single_child_wrapper
       (embed (Part0.mkQuery [leaf "TITLE" "a"] [] [] None)) = true.
Proof. split; reflexivity. Qed.

(** C3, amended: for every input tree, no node of the tree the normalizer
    of the second file produces is a single-child wrapper (one bucket of
    size 1, the other two empty, no leaf); the normalizer of [main.go] does
    not collapse: it returns a node that wraps a single leaf as it is. *)
Theorem C3_no_single_child_wrapper :
  (forall t,
     match Part0.cleanupQuery t with
     | Some c => every_node (fun x => negb (single_child_wrapper x)) c = true
     | None => True
     end)
  /\ (forall field,
        MainGo.cleanupQuery (Some (main_and_wrapper (main_leaf field)))
        = Some (main_and_wrapper (main_leaf field))
        /\ main_single_child_wrapper (main_and_wrapper (main_leaf field))
           = true).
Proof.
  split.
  - intros [t |]; [| exact I].
    destruct (Part0.cleanupQuery (Some t)) as [c |] eqn:E; [| exact I].
    pose proof (cleanupQuery_fuel t (S (Part0.height t)) (Nat.lt_succ_diag_r _))
      as F.
    rewrite E in F. exact (cleanup_fuel_no_wrapper _ _ _ F).
  - intros field. split; reflexivity.
Qed.

(** ** The pipeline *)

Lemma Count_app (a b : gostring) (c : ascii) :
  Count (a ++ b) c = Count a c + Count b c.
Proof. unfold Count. now rewrite filter_app, length_app. Qed.

Lemma Count_Repeat (c d : ascii) (k : nat) :
  Count (Repeat d k) c = if Ascii.eqb c d then k else 0.
Proof.
  unfold Count, Repeat. induction k as [| k IH]; simpl.
  - now destruct (Ascii.eqb c d).
  - destruct (Ascii.eqb c d); simpl; now rewrite IH.
Qed.

(** Balancing a line that lacks [k] closing parentheses gives what
    balancing the line with [k] of them appended gives. *)
Lemma preprocess_balanced (line : gostring) (k : nat) :
  Count line "(" = Count line ")" + k ->
  preprocess line = preprocess (line ++ Repeat ")" k).
Proof.
  intros H. unfold preprocess.
  rewrite !Count_app, !Count_Repeat. simpl. rewrite H.
  replace (Count line ")" + k <? Count line ")" + k + 0) with false
    by (symmetry; apply Nat.ltb_ge; lia).
  destruct k as [| k].
  - replace (Count line ")" <? Count line ")" + 0) with false
      by (symmetry; apply Nat.ltb_ge; lia).
    simpl. now rewrite app_nil_r.
  - replace (Count line ")" <? Count line ")" + S k) with true
      by (symmetry; apply Nat.ltb_lt; lia).
    now replace (Count line ")" + S k - Count line ")") with (S k) by lia.
Qed.

(** C7: a line with [k] more opening than closing parentheses gives, in
    both files, the result of the same line with [k] closing parentheses
    appended. *)
Theorem C7_paren_auto_balancing (line : gostring) (k : nat) :
  Count line "(" = Count line ")" + k ->
  Part0.processQuery line = Part0.processQuery (line ++ Repeat ")" k)
  /\ MainGo.processQuery line = MainGo.processQuery (line ++ Repeat ")" k).
Proof.
  intros H. apply preprocess_balanced in H.
  unfold Part0.processQuery, MainGo.processQuery, Part0.tokenize,
    MainGo.tokenize, tokenize.
  rewrite <- H. split; reflexivity.
Qed.

Lemma C7_paren_auto_balancing_witness :
  Count (lit "((" ++ quoted (lit "a")) "("
  = Count (lit "((" ++ quoted (lit "a")) ")" + 2
  /\ Part0.processQuery (lit "((" ++ quoted (lit "a"))
     = Part0.processQuery ((lit "((" ++ quoted (lit "a")) ++ Repeat ")" 2)
  /\ MainGo.processQuery (lit "((" ++ quoted (lit "a"))
     = MainGo.processQuery ((lit "((" ++ quoted (lit "a")) ++ Repeat ")" 2).
Proof.
  split; [reflexivity |].
  apply (C7_paren_auto_balancing (lit "((" ++ quoted (lit "a")) 2).
  reflexivity.
Defined.

(** The normalizer of the second file returns nil or a node that is not
    empty. *)
Lemma part0_cleanupQuery_nonempty (t : option Part0.ParsedQuery) :
  Part0.isEmptyQuery (Part0.cleanupQuery t) = true ->
  Part0.cleanupQuery t = None.
Proof.
  destruct t as [t |]; [| reflexivity].
  destruct (Part0.cleanupQuery (Some t)) as [c |] eqn:E; [| reflexivity].
  pose proof (cleanupQuery_fuel t (S (Part0.height t)) (Nat.lt_succ_diag_r _))
    as F.
  rewrite E in F. rewrite (cleanup_fuel_nonempty _ _ _ F). discriminate.
Qed.

(** C9: for every line, in both files, [processQuery] returns the error and
    no tree when tokenizing, parsing and normalizing yield no node (nil, or
    in [main.go] possibly a node with nothing in it), and else that tree,
    which is not empty, and no error; it always returns. *)
Theorem C9_processQuery_result (line : gostring) :
  (let r := Part0.parseTokens (Part0.tokenize line) in
   (r = None /\ Part0.processQuery line = (None, Some empty_error))
   \/ (exists t, r = Some t /\ Part0.isEmptyQuery (Some t) = false
                 /\ Part0.processQuery line = (Some t, None)))
  /\ (let r := MainGo.parseTokens (MainGo.tokenize line) in
      (MainGo.isEmptyQuery r = true
       /\ MainGo.processQuery line = (None, Some empty_error))
      \/ (exists t, r = Some t /\ MainGo.isEmptyQuery (Some t) = false
                    /\ MainGo.processQuery line = (Some t, None))).
Proof.
  split; cbv zeta.
  - unfold Part0.processQuery.
    destruct (Part0.isEmptyQuery (Part0.parseTokens (Part0.tokenize line)))
      eqn:E.
    + left. split; [| reflexivity]. unfold Part0.parseTokens in *.
      now apply part0_cleanupQuery_nonempty.
    + right. destruct (Part0.parseTokens (Part0.tokenize line)) as [t |];
        [| discriminate]. exists t. auto.
  - unfold MainGo.processQuery.
    destruct (MainGo.isEmptyQuery (MainGo.parseTokens (MainGo.tokenize line)))
      eqn:E.
    + left. auto.
    + right. destruct (MainGo.parseTokens (MainGo.tokenize line)) as [t |];
        [| discriminate]. exists t. auto.
Qed.

(** A line without tokens, a blank line among them, gives the error. *)
Lemma processQuery_no_tokens (line : gostring) :
  (Part0.tokenize line = [] ->
   Part0.processQuery line = (None, Some empty_error))
  /\ (MainGo.tokenize line = [] ->
      MainGo.processQuery line = (None, Some empty_error)).
Proof.
  split; intros H; [unfold Part0.processQuery | unfold MainGo.processQuery];
    rewrite H; reflexivity.
Qed.

Lemma processQuery_blank_lines :
  Part0.processQuery [] = (None, Some empty_error)
  /\ MainGo.processQuery [] = (None, Some empty_error)
  /\ Part0.processQuery (lit "   ") = (None, Some empty_error)
  /\ MainGo.processQuery (lit "   ") = (None, Some empty_error)
  /\ Part0.processQuery (lit "AND OR ()") = (None, Some empty_error)
  /\ MainGo.processQuery (lit "AND OR ()") = (None, Some empty_error).
Proof. repeat split. Qed.

(** ** Parenthesis groups *)

Arguments Part0.cleanupQuery : simpl never.
Arguments Part0.isEmptyQuery : simpl never.
Arguments MainGo.cleanup : simpl never.
Arguments MainGo.isEmptyQuery : simpl never.

Lemma part0_step_frame (stack base : list Part0.StackItem)
    (current : Part0.StackItem) (token : Token) :
  (Type_ token =? TokenCloseParen)%Z = false \/ stack <> [] ->
  Part0.parse_step (stack ++ base, current) token
  = (fst (Part0.parse_step (stack, current) token) ++ base,
     snd (Part0.parse_step (stack, current) token)).
Proof.
  intros H. unfold Part0.parse_step.
  destruct (Type_ token =? TokenField)%Z.
  { destruct (Split (Value token) ":") as [| p0 [| p1 [| p2 ps]]];
      reflexivity. }
  destruct (is_operator (Type_ token)); [reflexivity |].
  destruct (Type_ token =? TokenOpenParen)%Z; [reflexivity |].
  destruct (Type_ token =? TokenCloseParen)%Z; [| reflexivity].
  destruct stack as [| parent stack'].
  { destruct H; [discriminate | contradiction]. }
  simpl.
  destruct (Part0.cleanupQuery (Some (Part0.query current))) as [c |];
    [| reflexivity].
  destruct (Part0.isEmptyQuery (Some c)); reflexivity.
Qed.

Lemma part0_step_depth (stack : list Part0.StackItem)
    (current : Part0.StackItem) (token : Token) :
  length (fst (Part0.parse_step (stack, current) token))
  = if (Type_ token =? TokenOpenParen)%Z then S (length stack)
    else if (Type_ token =? TokenCloseParen)%Z then pred (length stack)
    else length stack.
Proof.
  unfold Part0.parse_step, is_operator.
  destruct (Type_ token =? TokenField)%Z eqn:E0.
  { apply Z.eqb_eq in E0. rewrite E0. simpl.
    destruct (Split (Value token) ":") as [| p0 [| p1 [| p2 ps]]];
      reflexivity. }
  destruct (Type_ token =? TokenOR)%Z eqn:E1.
  { apply Z.eqb_eq in E1. rewrite E1. reflexivity. }
  destruct (Type_ token =? TokenAND)%Z eqn:E2.
  { apply Z.eqb_eq in E2. rewrite E2. reflexivity. }
  destruct (Type_ token =? TokenANDNOT)%Z eqn:E3.
  { apply Z.eqb_eq in E3. rewrite E3. reflexivity. }
  simpl.
  destruct (Type_ token =? TokenOpenParen)%Z; [reflexivity |].
  destruct (Type_ token =? TokenCloseParen)%Z; [| reflexivity].
  destruct stack as [| parent stack']; [reflexivity |]. simpl.
  destruct (Part0.cleanupQuery (Some (Part0.query current))) as [c |];
    [| reflexivity].
  destruct (Part0.isEmptyQuery (Some c)); reflexivity.
Qed.

(** Tokens whose parentheses match leave the stack below them alone and end
    at the depth they started from. *)
Lemma part0_loop_frame (tokens : list Token) :
  forall stack base current,
    closes_matched (length stack) tokens = true ->
    Part0.parse_loop tokens (stack ++ base, current)
    = (base, snd (Part0.parse_loop tokens (stack, current))).
Proof.
  induction tokens as [| token tokens IH]; intros stack base current H.
  - simpl in *. apply Nat.eqb_eq in H. apply length_zero_iff_nil in H.
    now subst.
  - unfold Part0.parse_loop in *. cbn [fold_left].
    cbn [closes_matched] in H.
    pose proof (part0_step_depth stack current token) as D.
    rewrite part0_step_frame.
    + destruct (Part0.parse_step (stack, current) token) as [stack1 current1].
      cbn [fst snd] in *. apply IH. rewrite D.
      destruct (Type_ token =? TokenOpenParen)%Z; [exact H |].
      destruct (Type_ token =? TokenCloseParen)%Z; [| exact H].
      destruct (length stack); [discriminate | exact H].
    + destruct (Type_ token =? TokenOpenParen)%Z eqn:EO.
      { left. apply Z.eqb_eq in EO. rewrite EO. reflexivity. }
      destruct (Type_ token =? TokenCloseParen)%Z; [| now left].
      right. destruct stack; [discriminate | discriminate].
Qed.

Lemma part0_group (stack : list Part0.StackItem) (current : Part0.StackItem)
    (open close : Token) (inner : list Token) :
  Type_ open = TokenOpenParen -> Type_ close = TokenCloseParen ->
  closes_matched 0 inner = true ->
  Part0.parse_step (stack, current) open = (current :: stack, Part0.freshItem)
  /\ Part0.parse_loop (open :: inner ++ [close]) (stack, current)
     = (stack,
        part0_close current
          (snd (Part0.parse_loop inner ([], Part0.freshItem)))).
Proof.
  intros HO HC HM.
  assert (S1 : Part0.parse_step (stack, current) open
               = (current :: stack, Part0.freshItem)).
  { unfold Part0.parse_step. rewrite HO. reflexivity. }
  split; [exact S1 |].
  unfold Part0.parse_loop in *. cbn [fold_left]. rewrite S1.
  rewrite fold_left_app.
  pose proof (part0_loop_frame inner [] (current :: stack) Part0.freshItem HM)
    as F.
  unfold Part0.parse_loop in F. cbn [app] in F. rewrite F.
  cbn [fold_left]. unfold Part0.parse_step. rewrite HC. cbn.
  unfold part0_close. cbn.
  destruct (Part0.cleanupQuery (Some (Part0.query _))) as [c |] eqn:E;
    [| reflexivity].
  destruct (Part0.isEmptyQuery (Some c)) eqn:EE; [| reflexivity].
  rewrite <- E in EE. apply part0_cleanupQuery_nonempty in EE. congruence.
Qed.

Lemma main_step_frame (s base : list MainGo.ParsedQuery)
    (g : MainGo.ParsedQuery) (op : Z) (token : Token) :
  (Type_ token =? TokenCloseParen)%Z = false \/ s <> [] ->
  exists s' g' op',
    MainGo.parse_step (MainGo.mkState s (Some g) op) token
    = MainGo.mkState s' (Some g') op'
    /\ MainGo.parse_step (MainGo.mkState (s ++ base) (Some g) op) token
       = MainGo.mkState (s' ++ base) (Some g') op'
    /\ length s'
       = if (Type_ token =? TokenOpenParen)%Z then S (length s)
         else if (Type_ token =? TokenCloseParen)%Z then pred (length s)
         else length s.
Proof.
  intros H. unfold MainGo.parse_step, is_operator. cbn.
  destruct (Type_ token =? TokenField)%Z eqn:E0.
  { apply Z.eqb_eq in E0. rewrite E0. cbn.
    destruct (Split (Value token) ":") as [| p0 [| p1 [| p2 ps]]];
      repeat eexists. }
  destruct (Type_ token =? TokenOR)%Z eqn:E1.
  { apply Z.eqb_eq in E1. rewrite E1. repeat eexists. }
  destruct (Type_ token =? TokenAND)%Z eqn:E2.
  { apply Z.eqb_eq in E2. rewrite E2. repeat eexists. }
  destruct (Type_ token =? TokenANDNOT)%Z eqn:E3.
  { apply Z.eqb_eq in E3. rewrite E3. repeat eexists. }
  cbn.
  destruct (Type_ token =? TokenOpenParen)%Z; [repeat eexists |].
  destruct (Type_ token =? TokenCloseParen)%Z; [| repeat eexists].
  destruct s as [| parent s'].
  { destruct H; [discriminate | contradiction]. }
  cbn. destruct (MainGo.isEmptyQuery (Some (MainGo.cleanup g)));
    repeat eexists.
Qed.

Lemma main_loop_frame (tokens : list Token) :
  forall s base g op,
    closes_matched (length s) tokens = true ->
    exists g' op',
      MainGo.parse_loop tokens (MainGo.mkState s (Some g) op)
      = MainGo.mkState [] (Some g') op'
      /\ MainGo.parse_loop tokens (MainGo.mkState (s ++ base) (Some g) op)
         = MainGo.mkState base (Some g') op'.
Proof.
  induction tokens as [| token tokens IH]; intros s base g op H.
  - simpl in *. apply Nat.eqb_eq in H. apply length_zero_iff_nil in H.
    subst. now exists g, op.
  - unfold MainGo.parse_loop in *. cbn [fold_left].
    cbn [closes_matched] in H.
    destruct (main_step_frame s base g op token) as (s' & g' & op' & A & B & D).
    + destruct (Type_ token =? TokenOpenParen)%Z eqn:EO.
      { left. apply Z.eqb_eq in EO. rewrite EO. reflexivity. }
      destruct (Type_ token =? TokenCloseParen)%Z; [| now left].
      right. destruct s; discriminate.
    + rewrite A, B. apply IH. rewrite D.
      destruct (Type_ token =? TokenOpenParen)%Z; [exact H |].
      destruct (Type_ token =? TokenCloseParen)%Z; [| exact H].
      destruct (length s); [discriminate | exact H].
Qed.

Lemma main_group (stack : list MainGo.ParsedQuery) (g : MainGo.ParsedQuery)
    (op : Z) (open close : Token) (inner : list Token) :
  Type_ open = TokenOpenParen -> Type_ close = TokenCloseParen ->
  closes_matched 0 inner = true ->
  MainGo.parse_step (MainGo.mkState stack (Some g) op) open
  = MainGo.mkState (g :: stack) (Some MainGo.emptyQuery) op
  /\ let st := MainGo.parse_loop inner
                 (MainGo.mkState [] (Some MainGo.emptyQuery) op) in
     MainGo.parse_loop (open :: inner ++ [close])
       (MainGo.mkState stack (Some g) op)
     = MainGo.mkState stack
         (Some (main_close (MainGo.currentOperator st) g (main_group_of st)))
         (MainGo.currentOperator st).
Proof.
  intros HO HC HM.
  assert (S1 : MainGo.parse_step (MainGo.mkState stack (Some g) op) open
               = MainGo.mkState (g :: stack) (Some MainGo.emptyQuery) op).
  { unfold MainGo.parse_step. rewrite HO. reflexivity. }
  split; [exact S1 |]. cbv zeta.
  unfold MainGo.parse_loop in *. cbn [fold_left]. rewrite S1.
  rewrite fold_left_app.
  destruct (main_loop_frame inner [] (g :: stack) MainGo.emptyQuery op HM)
    as (g' & op' & A & B).
  unfold MainGo.parse_loop in A, B. cbn [app] in B. rewrite A, B.
  cbn [fold_left]. unfold MainGo.parse_step. rewrite HC. cbn.
  unfold main_close, main_group_of. cbn.
  destruct (MainGo.isEmptyQuery (Some (MainGo.cleanup g'))); reflexivity.
Qed.

(** ** The scan *)

Lemma is_suffix_refl (s : gostring) : is_suffix s s.
Proof. now exists []. Qed.

Lemma is_suffix_trans (a b c : gostring) :
  is_suffix a b -> is_suffix b c -> is_suffix a c.
Proof.
  intros [p ->] [p' ->]. exists (p' ++ p). now rewrite app_assoc.
Qed.

Lemma is_suffix_tail (x : ascii) (s : gostring) : is_suffix s (x :: s).
Proof. now exists [x]. Qed.

Lemma is_suffix_Forall (P : ascii -> Prop) (s' s : gostring) :
  is_suffix s' s -> Forall P s -> Forall P s'.
Proof. intros [p ->] H. now apply Forall_app in H. Qed.

Section LoopExt.
Context {A : Type}.
Variable body : @matcher A.
Hypothesis body_ext : forall s cs (k1 k2 : @cont A),
    (forall s' cs', is_suffix s' s -> k1 s' cs' = k2 s' cs') ->
    body s cs k1 = body s cs k2.

Lemma greedy_loop_ext (fuel : nat) :
  forall s cs (k1 k2 : @cont A),
    (forall s' cs', is_suffix s' s -> k1 s' cs' = k2 s' cs') ->
    greedy_loop body fuel s cs k1 = greedy_loop body fuel s cs k2.
Proof.
  induction fuel as [| fuel IH]; intros s cs k1 k2 H; simpl.
  - apply H, is_suffix_refl.
  - rewrite (H s cs (is_suffix_refl s)).
    erewrite body_ext; [reflexivity |].
    intros s' cs' Hs. simpl. destruct (length s' <? length s); [| reflexivity].
    apply IH. intros s'' cs'' Hs'. apply H. eapply is_suffix_trans; eauto.
Qed.

Lemma lazy_loop_ext (fuel : nat) :
  forall s cs (k1 k2 : @cont A),
    (forall s' cs', is_suffix s' s -> k1 s' cs' = k2 s' cs') ->
    lazy_loop body fuel s cs k1 = lazy_loop body fuel s cs k2.
Proof.
  induction fuel as [| fuel IH]; intros s cs k1 k2 H; simpl;
    rewrite (H s cs (is_suffix_refl s)); [reflexivity |].
  destruct (k2 s cs); [reflexivity |].
  apply body_ext. intros s' cs' Hs. simpl.
  destruct (length s' <? length s); [| reflexivity].
  apply IH. intros s'' cs'' Hs'. apply H. eapply is_suffix_trans; eauto.
Qed.
End LoopExt.

(** The matcher calls its continuation on suffixes of its input only. *)
Lemma rmatch_ext {A : Type} (r : regex) :
  forall s cs (k1 k2 : @cont A),
    (forall s' cs', is_suffix s' s -> k1 s' cs' = k2 s' cs') ->
    rmatch r s cs k1 = rmatch r s cs k2.
Proof.
  induction r as [c | p | r1 IH1 r2 IH2 | r1 IH1 r2 IH2 | r IH | r IH | r IH
                 | i r IH]; intros s cs k1 k2 H; cbn [rmatch].
  - destruct s as [| x s]; [reflexivity |].
    destruct (Ascii.eqb x c); [apply H, is_suffix_tail | reflexivity].
  - destruct s as [| x s]; [reflexivity |].
    destruct (p x); [apply H, is_suffix_tail | reflexivity].
  - apply IH1. intros s' cs' Hs. apply IH2. intros s'' cs'' Hs'.
    apply H. eapply is_suffix_trans; eauto.
  - rewrite (IH1 s cs k1 k2 H), (IH2 s cs k1 k2 H). reflexivity.
  - apply greedy_loop_ext; [exact IH | exact H].
  - apply IH. intros s' cs' Hs. apply greedy_loop_ext; [exact IH |].
    intros s'' cs'' Hs'. apply H. eapply is_suffix_trans; eauto.
  - apply IH. intros s' cs' Hs. apply lazy_loop_ext; [exact IH |].
    intros s'' cs'' Hs'. apply H. eapply is_suffix_trans; eauto.
  - apply IH. intros s' cs' Hs. apply H, Hs.
Qed.

(** A loop over bytes other than the double quote, before a guarded
    continuation, runs to the end of those bytes. *)
Section ValueLoops.
Context {A : Type}.
Variable body : @matcher A.

Hypothesis body_nil : forall cs k, body [] cs k = None.

Lemma greedy_loop_value (s : gostring) :
  forall fuel cs k,
    steps_like_class body s -> length s <= fuel -> quote_guarded k ->
    greedy_loop body fuel s cs k = k (drop_while not_quote s) cs.
Proof.
  induction s as [| x s IH]; intros fuel cs k Hb Hf Hk.
  - destruct fuel; simpl; [reflexivity |]. now rewrite body_nil.
  - destruct fuel as [| fuel]; [simpl in Hf; lia |].
    cbn [greedy_loop drop_while].
    rewrite (Hb x s _ _ (is_suffix_refl _)).
    destruct (not_quote x) eqn:E; [| reflexivity].
    replace (length s <? length (x :: s)) with true
      by (symmetry; apply Nat.ltb_lt; simpl; lia).
    rewrite IH; [| | simpl in Hf; lia | exact Hk].
    + destruct (k (drop_while not_quote s) cs); [reflexivity |].
      now apply Hk.
    + intros y s' cs' k' Hs. apply Hb.
      eapply is_suffix_trans; [exact Hs | apply is_suffix_tail].
Qed.

Lemma lazy_loop_value (s : gostring) :
  forall fuel cs k,
    steps_like_class body s -> length s <= fuel -> quote_guarded k ->
    lazy_loop body fuel s cs k = k (drop_while not_quote s) cs.
Proof.
  induction s as [| x s IH]; intros fuel cs k Hb Hf Hk.
  - destruct fuel; simpl; destruct (k [] cs); try reflexivity.
    now rewrite body_nil.
  - destruct fuel as [| fuel]; [simpl in Hf; lia |].
    cbn [lazy_loop drop_while].
    rewrite (Hb x s _ _ (is_suffix_refl _)).
    destruct (not_quote x) eqn:E.
    + rewrite (Hk x s cs E).
      replace (length s <? length (x :: s)) with true
        by (symmetry; apply Nat.ltb_lt; simpl; lia).
      apply IH; [| simpl in Hf; lia | exact Hk].
      intros y s' cs' k' Hs. apply Hb.
      eapply is_suffix_trans; [exact Hs | apply is_suffix_tail].
    + now destruct (k (x :: s) cs).
Qed.
End ValueLoops.

Lemma class_steps {A : Type} (s : gostring) :
  steps_like_class (@rmatch A (not_char dquote)) s.
Proof. intros x s' cs k _. reflexivity. Qed.

Lemma plus_value {A : Type} (r : regex) (s : gostring) (cs : captures)
    (k : @cont A) :
  steps_like_class (@rmatch A r) s ->
  (forall cs' k', @rmatch A r [] cs' k' = None) ->
  quote_guarded k ->
  rmatch (Plus r) s cs k = after_value k s cs.
Proof.
  intros St Hnil Hk. cbn [rmatch].
  destruct s as [| x s]; [apply Hnil |].
  rewrite (St x s _ _ (is_suffix_refl _)).
  unfold after_value. destruct (not_quote x); [| reflexivity].
  apply greedy_loop_value; auto.
  intros y s' cs' k' Hs. apply St.
  eapply is_suffix_trans; [exact Hs | apply is_suffix_tail].
Qed.

Lemma plus_lazy_value {A : Type} (r : regex) (s : gostring) (cs : captures)
    (k : @cont A) :
  steps_like_class (@rmatch A r) s ->
  (forall cs' k', @rmatch A r [] cs' k' = None) ->
  quote_guarded k ->
  rmatch (PlusLazy r) s cs k = after_value k s cs.
Proof.
  intros St Hnil Hk. cbn [rmatch].
  destruct s as [| x s]; [apply Hnil |].
  rewrite (St x s _ _ (is_suffix_refl _)).
  unfold after_value. destruct (not_quote x); [| reflexivity].
  apply lazy_loop_value; auto.
  intros y s' cs' k' Hs. apply St.
  eapply is_suffix_trans; [exact Hs | apply is_suffix_tail].
Qed.

Lemma value_on_plus (P : ascii -> Prop) : value_on P MainGo.quoted_value.
Proof.
  intros A s cs k _ Hk. apply plus_value; auto using class_steps.
Qed.

Lemma value_on_lazy (P : ascii -> Prop) : value_on P Part0.quoted_value.
Proof.
  intros A s cs k _ Hk. apply plus_lazy_value; auto using class_steps.
Qed.

Lemma escaped_steps {A : Type} (s : gostring) :
  Forall not_backslash s ->
  steps_like_class
    (@rmatch A (Alt (Cls (fun c => negb (Ascii.eqb c dquote)
                                   && negb (Ascii.eqb c backslash)))
                    (Cat (Chr backslash) any_char))) s.
Proof.
  intros H x s' cs k Hs. apply (is_suffix_Forall _ _ _ Hs) in H.
  inversion H as [| ? ? Hx _]; subst. cbn [rmatch].
  assert (E : Ascii.eqb x backslash = false) by now apply Ascii.eqb_neq.
  rewrite E, andb_true_r. unfold not_quote.
  destruct (negb (Ascii.eqb x dquote)); [| reflexivity].
  now destruct (k s' cs).
Qed.

Lemma value_on_escaped : value_on not_backslash Part0.escaped_value.
Proof.
  intros A s cs k H Hk. apply plus_value; auto using escaped_steps.
Qed.

(** Congruences of [same_on]. *)
Lemma same_on_cat (P : ascii -> Prop) (p r1 r2 : regex) :
  same_on P r1 r2 -> same_on P (Cat p r1) (Cat p r2).
Proof.
  intros H A s cs k Hs. cbn [rmatch]. apply rmatch_ext.
  intros s' cs' Hsuf. apply H. eapply is_suffix_Forall; eauto.
Qed.

Lemma same_on_alt (P : ascii -> Prop) (a1 a2 b1 b2 : regex) :
  same_on P a1 a2 -> same_on P b1 b2 -> same_on P (Alt a1 b1) (Alt a2 b2).
Proof.
  intros Ha Hb A s cs k Hs. cbn [rmatch]. now rewrite Ha, Hb.
Qed.

Lemma same_on_refl (P : ascii -> Prop) (r : regex) : same_on P r r.
Proof. intros A s cs k _. reflexivity. Qed.

(** Two value expressions between double quotes. *)
Lemma same_on_quoted (P : ascii -> Prop) (i : nat) (v1 v2 : regex) :
  value_on P v1 -> value_on P v2 ->
  same_on P (Cat (Group i v1) (Chr dquote)) (Cat (Group i v2) (Chr dquote)).
Proof.
  intros H1 H2 A s cs k Hs. cbn [rmatch].
  rewrite (H1 A s cs), (H2 A s cs); auto;
    intros x s' cs' Hx; unfold not_quote in Hx;
    now destruct (Ascii.eqb x dquote).
Qed.

Lemma same_on_quoted_then (P : ascii -> Prop) (i : nat) (v1 v2 r : regex) :
  value_on P v1 -> value_on P v2 ->
  same_on P (Cat (Group i v1) (Cat (Chr dquote) r))
            (Cat (Group i v2) (Cat (Chr dquote) r)).
Proof.
  intros H1 H2 A s cs k Hs. cbn [rmatch].
  rewrite (H1 A s cs), (H2 A s cs); auto;
    intros x s' cs' Hx; unfold not_quote in Hx;
    now destruct (Ascii.eqb x dquote).
Qed.

Lemma same_on_field_call (P : ascii -> Prop) (v1 v2 : regex) :
  value_on P v1 -> value_on P v2 ->
  same_on P (field_call v1) (field_call v2).
Proof.
  intros H1 H2. unfold field_call.
  repeat apply same_on_cat. now apply same_on_quoted_then.
Qed.

Lemma same_on_token_regex (P : ascii -> Prop) (v1 v2 : regex) :
  value_on P v1 -> value_on P v2 ->
  same_on P (token_regex v1) (token_regex v2).
Proof.
  intros H1 H2. unfold token_regex.
  apply same_on_alt; [now apply same_on_field_call |].
  repeat (apply same_on_alt; [apply same_on_refl |]).
  apply same_on_cat. now apply same_on_quoted.
Qed.

(** Expressions that match alike find the same matches. *)
Lemma same_on_search (P : ascii -> Prop) (r1 r2 : regex) :
  same_on P r1 r2 ->
  forall s pos, Forall P s -> search r1 pos s = search r2 pos s.
Proof.
  intros H s. induction s as [| x s IH]; intros pos Hs; cbn [search];
    unfold exec; rewrite (H _ _ _ _ Hs); [reflexivity |].
  destruct (rmatch r2 (x :: s) [] _) as [[s' cs] |]; [reflexivity |].
  apply IH. now inversion Hs.
Qed.

Lemma Forall_skipn_ascii (P : ascii -> Prop) (n : nat) (s : gostring) :
  Forall P s -> Forall P (skipn n s).
Proof.
  intros H. rewrite <- (firstn_skipn n s) in H. now apply Forall_app in H.
Qed.

Lemma Forall_firstn_ascii (P : ascii -> Prop) (n : nat) (s : gostring) :
  Forall P s -> Forall P (firstn n s).
Proof.
  intros H. rewrite <- (firstn_skipn n s) in H. now apply Forall_app in H.
Qed.

Lemma same_on_find_all (P : ascii -> Prop) (r1 r2 : regex) :
  same_on P r1 r2 ->
  forall fuel pos s, Forall P s -> find_all r1 fuel pos s = find_all r2 fuel pos s.
Proof.
  intros H fuel. induction fuel as [| fuel IH]; intros pos s Hs;
    [reflexivity |].
  cbn [find_all]. rewrite (same_on_search P r1 r2 H s pos Hs).
  destruct (search r2 pos s) as [[[a b] cs] |]; [| reflexivity].
  destruct (b <=? a); [reflexivity |]. f_equal.
  apply IH. now apply Forall_skipn_ascii.
Qed.

Lemma same_on_FindStringSubmatch (P : ascii -> Prop) (r1 r2 : regex)
    (n : nat) (s : gostring) :
  same_on P r1 r2 -> Forall P s ->
  FindStringSubmatch r1 n s = FindStringSubmatch r2 n s.
Proof.
  intros H Hs. unfold FindStringSubmatch.
  now rewrite (same_on_search P r1 r2 H s 0 Hs).
Qed.

(** *** The two tokenizers on lines without a backslash *)

Lemma replace_from_Forall (P : ascii -> Prop) (old new : gostring) :
  Forall P new ->
  forall s skip, Forall P s -> Forall P (replace_from old new skip s).
Proof.
  intros Hn s. induction s as [| c s IH]; intros skip Hs; [constructor |].
  inversion Hs; subst. cbn [replace_from]. destruct skip; [| now apply IH].
  destruct (HasPrefix (c :: s) old).
  - apply Forall_app; split; [exact Hn | now apply IH].
  - constructor; [assumption | now apply IH].
Qed.

Lemma trim_left_Forall (P : ascii -> Prop) (fuel : nat) :
  forall s, Forall P s -> Forall P (trim_left fuel s).
Proof.
  induction fuel as [| fuel IH]; intros s H; cbn [trim_left]; [exact H |].
  destruct (space_width s); [exact H |]. now apply IH, Forall_skipn_ascii.
Qed.

Lemma trim_right_Forall (P : ascii -> Prop) (fuel : nat) :
  forall s, Forall P s -> Forall P (trim_right fuel s).
Proof.
  induction fuel as [| fuel IH]; intros s H; cbn [trim_right]; [exact H |].
  destruct (space_width_last s); [exact H |]. now apply IH, Forall_skipn_ascii.
Qed.

Lemma TrimSpace_Forall (P : ascii -> Prop) (s : gostring) :
  Forall P s -> Forall P (TrimSpace s).
Proof.
  intros H. unfold TrimSpace.
  apply Forall_rev, trim_right_Forall, Forall_rev, trim_left_Forall, H.
Qed.

Lemma slice_Forall (P : ascii -> Prop) (s : gostring) (a b : nat) :
  Forall P s -> Forall P (slice s a b).
Proof.
  intros H. now apply Forall_firstn_ascii, Forall_skipn_ascii.
Qed.

Lemma preprocess_Forall (P : ascii -> Prop) (line : gostring) :
  Forall P (lit " AND_NOT OR()") -> Forall P line -> Forall P (preprocess line).
Proof.
  intros Hl H. unfold preprocess, ReplaceAll.
  assert (Hin : forall s, incl s (lit " AND_NOT OR()") -> Forall P s).
  { intros s Hs. rewrite Forall_forall in *. auto. }
  repeat (apply replace_from_Forall;
          [apply Hin; intros c Hc; simpl in Hc |- *; tauto |]).
  match goal with |- Forall P (if ?b then _ else _) => destruct b end;
    [| exact H].
  apply Forall_app; split; [exact H |].
  unfold Repeat. apply Forall_forall. intros c Hc.
  apply repeat_spec in Hc. subst. rewrite Forall_forall in Hl.
  apply Hl. simpl. intuition.
Qed.

Lemma classify_same (P : ascii -> Prop) (r1 r2 : regex) (s : gostring) :
  same_on P r1 r2 -> Forall P s -> classify r1 s = classify r2 s.
Proof.
  intros H Hs. unfold classify.
  now rewrite (same_on_FindStringSubmatch P r1 r2 2 s H Hs).
Qed.

Lemma tokenize_loop_same (P : ascii -> Prop) (r1 r2 : regex)
    (query : gostring) (matches : list (nat * nat)) :
  same_on P r1 r2 -> Forall P query ->
  forall rest index tokens,
    tokenize_loop r1 query matches index rest tokens
    = tokenize_loop r2 query matches index rest tokens.
Proof.
  intros H Hq rest. induction rest as [| m rest IH]; intros index tokens;
    [reflexivity |].
  cbn [tokenize_loop]. rewrite IH. f_equal. unfold tokenize_step.
  rewrite (classify_same P r1 r2); [reflexivity | exact H |].
  now apply TrimSpace_Forall, slice_Forall.
Qed.

Lemma no_backslash_Forall (line : gostring) :
  no_backslash line = true -> Forall not_backslash line.
Proof.
  unfold no_backslash. rewrite forallb_forall, Forall_forall.
  intros H c Hc. specialize (H c Hc). apply negb_true_iff in H.
  now apply Ascii.eqb_neq.
Qed.

(** On a line without a backslash the two files scan the same tokens. *)
Lemma tokenize_same (line : gostring) :
  no_backslash line = true -> MainGo.tokenize line = Part0.tokenize line.
Proof.
  intros H. apply no_backslash_Forall in H.
  assert (Hq : Forall not_backslash (preprocess line)).
  { apply preprocess_Forall; [| exact H].
    repeat constructor; discriminate. }
  unfold MainGo.tokenize, Part0.tokenize, tokenize.
  unfold FindAllStringSubmatchIndex.
  rewrite (same_on_find_all not_backslash
             (token_regex MainGo.quoted_value)
             (token_regex Part0.quoted_value));
    [| apply same_on_token_regex; [apply value_on_plus | apply value_on_lazy]
     | exact Hq].
  apply (tokenize_loop_same not_backslash); [| exact Hq].
  apply same_on_field_call; [apply value_on_plus | apply value_on_escaped].
Qed.

(** ** The two parsers outside parentheses *)

Lemma is_operator_cases (op : Z) :
  is_operator op = true -> op = TokenOR \/ op = TokenAND \/ op = TokenANDNOT.
Proof.
  unfold is_operator. rewrite !orb_true_iff, !Z.eqb_eq. tauto.
Qed.

Lemma embed_attach (t c : Part0.ParsedQuery) (op : Z) :
  is_operator op = true ->
  embed (Part0.query (Part0.attach (Part0.mkItem t op) c))
  = MainGo.attach op (embed t) (embed c).
Proof.
  intros H. destruct t as [a o n f].
  destruct (is_operator_cases op H) as [-> | [-> | ->]];
    cbn; now rewrite map_app.
Qed.

Lemma attach_flat (t : Part0.ParsedQuery) (op : Z) (field : Field) :
  is_operator op = true -> is_flat t ->
  let t' := Part0.query (Part0.attach (Part0.mkItem t op)
                           (Part0.mkQuery [] [] [] (Some field))) in
  is_flat t' /\ Part0.isEmptyQuery (Some t') = false
  /\ Part0.operator (Part0.attach (Part0.mkItem t op)
                       (Part0.mkQuery [] [] [] (Some field))) = op.
Proof.
  intros H (HF & HA & HO & HN). destruct t as [a o n f]. cbn in *. subst f.
  assert (L : is_leaf (Part0.mkQuery [] [] [] (Some field)))
    by now exists field.
  unfold Part0.isEmptyQuery.
  destruct (is_operator_cases op H) as [-> | [-> | ->]]; cbn;
    rewrite ?length_app, ?Nat.add_1_r, ?andb_false_r; cbn;
    repeat split; auto; apply Forall_app; auto.
Qed.

Lemma empty_flat (t : Part0.ParsedQuery) :
  Part0.Field_ t = None -> Part0.isEmptyQuery (Some t) = true ->
  t = Part0.emptyQuery.
Proof.
  destruct t as [[| a la] [| o lo] [| n ln] f]; cbn; intros -> H;
    try discriminate; reflexivity.
Qed.

Ltac split_flat :=
  unfold flat_states; cbn;
  repeat match goal with |- _ /\ _ => split end; auto.

Lemma flat_step (st0 : Part0.state) (st1 : MainGo.state) (token : Token) :
  flat_states st0 st1 ->
  (Type_ token =? TokenOpenParen)%Z = false ->
  (Type_ token =? TokenCloseParen)%Z = false ->
  flat_states (Part0.parse_step st0 token) (MainGo.parse_step st1 token).
Proof.
  destruct st0 as [stack0 [t op0]]. destruct st1 as [stack1 cg op].
  intros (H0 & H1 & Hop & Hio & Hfl & Hcg) HO HC. cbn in *. subst.
  unfold Part0.parse_step, MainGo.parse_step. cbn. rewrite HO, HC.
  destruct (Type_ token =? TokenField)%Z.
  - destruct (Split (Value token) ":") as [| p0 [| p1 [| p2 ps]]].
    1, 2, 4: split_flat.
    destruct (attach_flat t op (mkField p0 p1) Hio Hfl) as (F & E & O).
    split_flat.
    rewrite E. f_equal. rewrite embed_attach by assumption. f_equal.
      destruct (Part0.isEmptyQuery (Some t)) eqn:Et; [| reflexivity].
      destruct Hfl as [Hf _]. now rewrite (empty_flat t Hf Et).
  - destruct (is_operator (Type_ token)) eqn:Ht; split_flat.
Qed.

Lemma flat_loop (tokens : list Token) :
  forall st0 st1,
    flat_states st0 st1 -> no_paren_tokens tokens = true ->
    flat_states (Part0.parse_loop tokens st0) (MainGo.parse_loop tokens st1).
Proof.
  induction tokens as [| token tokens IH]; intros st0 st1 H Hp; [exact H |].
  cbn in Hp. apply andb_true_iff in Hp. destruct Hp as [Ht Hp].
  apply andb_true_iff in Ht. destruct Ht as [HO HC].
  apply negb_true_iff in HO, HC.
  unfold Part0.parse_loop, MainGo.parse_loop in *. cbn [fold_left].
  apply IH; [| exact Hp]. now apply flat_step.
Qed.

(** The normalizers on a flat tree. *)
Lemma cleanup_fuel_cleanupQuery (n : nat) (t : Part0.ParsedQuery)
    (r : option Part0.ParsedQuery) :
  Part0.cleanup_fuel n t = Some r -> Part0.cleanupQuery (Some t) = r.
Proof.
  intros H.
  pose proof (cleanup_fuel_mono _ _ _ H (n + S (Part0.height t))
                (Nat.le_add_r _ _)) as H1.
  rewrite cleanupQuery_fuel in H1 by lia. congruence.
Qed.

Lemma clean_bucket_leaves (n : nat) (l : list Part0.ParsedQuery) :
  Forall is_leaf l ->
  Part0.clean_bucket (Part0.cleanup_fuel (S n)) l = Some l.
Proof.
  intros H. apply clean_bucket_fixed. eapply Forall_impl; [| exact H].
  intros c [field ->]. split; reflexivity.
Qed.

Lemma part0_cleanup_flat (t : Part0.ParsedQuery) :
  is_flat t ->
  Part0.cleanupQuery (Some t)
  = if Part0.isEmptyQuery (Some t) then None else Some (collapse_root t).
Proof.
  intros (HF & HA & HO & HN).
  apply (cleanup_fuel_cleanupQuery 2). cbn [Part0.cleanup_fuel].
  unfold Part0.cleanup_body.
  rewrite !(clean_bucket_leaves 0) by assumption.
  destruct t as [a o n f]. cbn in HF. subst f.
  cbn [Part0.AND Part0.OR Part0.AND_NOT Part0.Field_].
  destruct (Part0.isEmptyQuery (Some (Part0.mkQuery a o n None)));
    [reflexivity |].
  unfold collapse_root, single_child_wrapper.
  cbn [Part0.AND Part0.OR Part0.AND_NOT Part0.Field_ Part0.is_nil].
  destruct a as [| a0 [| a1 a]]; destruct o as [| o0 [| o1 o]];
    destruct n as [| n0 [| n1 n]]; cbn [length Nat.eqb andb hd app Nat.add];
    rewrite ?Nat.add_succ_r; cbn [Nat.eqb Nat.add]; try reflexivity.
  - inversion HN as [| ? ? [field ->] _]; reflexivity.
  - inversion HO as [| ? ? [field ->] _]; reflexivity.
  - inversion HA as [| ? ? [field ->] _]; reflexivity.
Qed.

Lemma main_clean_items_leaves (l : list Part0.ParsedQuery) :
  Forall is_leaf l ->
  MainGo.clean_items MainGo.cleanup
    (map (fun c => MainGo.ItemQuery (embed c)) l)
  = map (fun c => MainGo.ItemQuery (embed c)) l.
Proof.
  induction 1 as [| c l [field ->] _ IH]; [reflexivity |].
  cbn. now rewrite IH.
Qed.

Lemma main_cleanup_flat (t : Part0.ParsedQuery) :
  is_flat t -> MainGo.cleanup (embed t) = embed t.
Proof.
  intros (HF & HA & HO & HN). destruct t as [a o n f]. cbn in *.
  unfold MainGo.cleanup. cbn.
  fold MainGo.cleanup. now rewrite !main_clean_items_leaves.
Qed.

Lemma isEmptyQuery_embed (t : Part0.ParsedQuery) :
  MainGo.isEmptyQuery (Some (embed t)) = Part0.isEmptyQuery (Some t).
Proof.
  destruct t as [a o n f]. unfold MainGo.isEmptyQuery, Part0.isEmptyQuery.
  cbn. now rewrite !length_map.
Qed.

(** On tokens without parentheses both parsers build the same flat tree;
    [main.go] returns it, the second file returns it with a single-child
    root collapsed. *)
Lemma parsers_outside_parentheses (tokens : list Token) :
  no_paren_tokens tokens = true ->
  exists t,
    is_flat t
    /\ MainGo.parseTokens tokens
       = (if Part0.isEmptyQuery (Some t) then None else Some (embed t))
    /\ Part0.parseTokens tokens
       = (if Part0.isEmptyQuery (Some t) then None
          else Some (collapse_root t)).
Proof.
  intros H.
  assert (I0 : flat_states ([], Part0.freshItem)
                 (MainGo.mkState [] None TokenAND)).
  { unfold flat_states. cbn. repeat split; constructor. }
  pose proof (flat_loop tokens _ _ I0 H) as (_ & _ & _ & _ & Hfl & Hcg).
  exists (Part0.query (snd (Part0.parse_loop tokens ([], Part0.freshItem)))).
  split; [exact Hfl |]. split.
  - unfold MainGo.parseTokens. rewrite Hcg.
    destruct (Part0.isEmptyQuery _); [reflexivity |].
    cbn. now rewrite main_cleanup_flat.
  - unfold Part0.parseTokens. now apply part0_cleanup_flat.
Qed.

(** C4, as stated, fails: on the line [QaQ] the second file returns the
    leaf [{ANY, a}] and [main.go] the node [{AND: [{ANY, a}]}]; on the line
    [TITLE(Qa\Q)], whose value ends with a backslash, the second file
    fails and [main.go] returns a tree; on the line of the survey scenario,
    which has parentheses, [main.go] returns a flat tree and the second file
    a nested one, which is not that tree with its root collapsed. *)
Lemma C4_copies_differ :
  MainGo.processQuery (quoted (lit "a"))
  <> embed_result (Part0.processQuery (quoted (lit "a")))
  /\ Part0.processQuery (call (lit "TITLE") (lit "a\"))
     = (None, Some empty_error)
  /\ MainGo.processQuery (call (lit "TITLE") (lit "a\"))
     = (Some (embed (Part0.mkQuery [leaf "TITLE" "a\"] [] [] None)), None)
  /\ MainGo.processQuery line_survey = main_result tree_survey_main
  /\ Part0.processQuery line_survey
     <> part0_result (collapse_root tree_survey_main).
Proof. repeat split; vm_compute; try reflexivity; discriminate. Qed.

(** C4, amended: for every line without a backslash the two files scan the
    same tokens; when none of these is a parenthesis, there is a flat tree
    [t] (no leaf of its own, leaves for children) such that both files fail
    if [t] is empty, and otherwise [main.go] returns [t] and the second file
    returns [t] with its root collapsed when it has a single child. *)
Theorem C4_copies_outside_parentheses (line : gostring) :
  no_backslash line = true ->
  no_paren_tokens (Part0.tokenize line) = true ->
  MainGo.tokenize line = Part0.tokenize line
  /\ exists t,
       is_flat t
       /\ MainGo.processQuery line = main_result t
       /\ Part0.processQuery line = part0_result (collapse_root t)
       /\ Part0.isEmptyQuery (Some (collapse_root t))
          = Part0.isEmptyQuery (Some t).
Proof.
  intros Hb Hp. pose proof (tokenize_same line Hb) as Ht.
  split; [exact Ht |].
  destruct (parsers_outside_parentheses _ Hp) as (t & Hfl & Hm & H0).
  exists t. split; [exact Hfl |].
  assert (E : Part0.isEmptyQuery (Some (collapse_root t))
              = Part0.isEmptyQuery (Some t)).
  { destruct (Part0.isEmptyQuery (Some t)) eqn:Et.
    - destruct Hfl as [Hf _]. rewrite (empty_flat t Hf Et). reflexivity.
    - destruct (Part0.isEmptyQuery (Some (collapse_root t))) eqn:Ec;
        [| reflexivity].
      pose proof (part0_cleanup_flat t Hfl) as C. rewrite Et in C.
      pose proof (part0_cleanupQuery_nonempty (Some t)) as N.
      rewrite C in N. specialize (N Ec). discriminate. }
  unfold MainGo.processQuery, Part0.processQuery, main_result, part0_result.
  rewrite Ht, Hm, H0, E.
  destruct (Part0.isEmptyQuery (Some t)) eqn:Et.
  - repeat split; reflexivity.
  - rewrite isEmptyQuery_embed, Et, E. repeat split; reflexivity.
Qed.

Lemma C4_copies_outside_parentheses_witness :
  no_backslash line_battery = true
  /\ no_paren_tokens (Part0.tokenize line_battery) = true
  /\ MainGo.tokenize line_battery = Part0.tokenize line_battery
  /\ exists t,
       is_flat t
       /\ MainGo.processQuery line_battery = main_result t
       /\ Part0.processQuery line_battery = part0_result (collapse_root t)
       /\ Part0.isEmptyQuery (Some (collapse_root t))
          = Part0.isEmptyQuery (Some t).
Proof.
  split; [reflexivity |]. split; [reflexivity |].
  apply (C4_copies_outside_parentheses line_battery); reflexivity.
Defined.

(** C2, as stated, fails for [main.go].  After the term [x] the operator
    is AND; the parenthesis pushes the group alone, and the closed group
    [{AND: [a], OR: [b]}] goes to the OR bucket of its parent, by the
    operator its own tokens set, which stays current. *)
Lemma C2_main_attaches_by_inner_operator :
  MainGo.parse_loop [tok_title "x"] (MainGo.mkState [] None TokenAND)
  = main_state [] (Part0.mkQuery [leaf "TITLE" "x"] [] [] None) TokenAND
  /\ MainGo.parse_step
       (main_state [] (Part0.mkQuery [leaf "TITLE" "x"] [] [] None) TokenAND)
       tok_open
     = main_state [Part0.mkQuery [leaf "TITLE" "x"] [] [] None]
         Part0.emptyQuery TokenAND
  /\ MainGo.parse_loop tokens_group
       (main_state [] (Part0.mkQuery [leaf "TITLE" "x"] [] [] None) TokenAND)
     = main_state []
         (Part0.mkQuery [leaf "TITLE" "x"] [tree_group] [] None) TokenOR
  /\ MainGo.parse_loop tokens_group
       (main_state [] (Part0.mkQuery [leaf "TITLE" "x"] [] [] None) TokenAND)
     <> main_state []
          (Part0.mkQuery [leaf "TITLE" "x"; tree_group] [] [] None) TokenAND.
Proof. repeat split; vm_compute; try reflexivity; discriminate. Qed.

(** C2, amended.  In the second file, from every state: an OpenParen token
    pushes the current group with its operator and starts an empty group
    with operator And, and a group [( inner )] whose parentheses match
    leaves the stack as it was and appends the normalized group, if any, to
    the bucket of the parent that the operator saved with the parent
    selects.  In [main.go] the stack holds groups only: an OpenParen pushes
    the current group if there is one and keeps the operator, and the closed
    group is appended to the bucket of the parent selected by the operator
    that is current at the CloseParen, which stays current. *)
Theorem C2_group_attachment (open close : Token) (inner : list Token) :
  Type_ open = TokenOpenParen -> Type_ close = TokenCloseParen ->
  closes_matched 0 inner = true ->
  (forall stack current,
     Part0.parse_step (stack, current) open
     = (current :: stack, Part0.freshItem)
     /\ Part0.parse_loop (open :: inner ++ [close]) (stack, current)
        = (stack,
           part0_close current
             (snd (Part0.parse_loop inner ([], Part0.freshItem)))))
  /\ (forall stack group operator,
        MainGo.parse_step (MainGo.mkState stack (Some group) operator) open
        = MainGo.mkState (group :: stack) (Some MainGo.emptyQuery) operator
        /\ let st := MainGo.parse_loop inner
                       (MainGo.mkState [] (Some MainGo.emptyQuery) operator) in
           MainGo.parse_loop (open :: inner ++ [close])
             (MainGo.mkState stack (Some group) operator)
           = MainGo.mkState stack
               (Some (main_close (MainGo.currentOperator st) group
                        (main_group_of st)))
               (MainGo.currentOperator st))
  /\ (forall stack operator,
        MainGo.parse_step (MainGo.mkState stack None operator) open
        = MainGo.mkState stack (Some MainGo.emptyQuery) operator).
Proof.
  intros HO HC HM. split; [| split].
  - intros stack current. now apply part0_group.
  - intros stack group operator. now apply main_group.
  - intros stack operator. unfold MainGo.parse_step. rewrite HO. reflexivity.
Qed.

Lemma C2_group_attachment_witness :
  Type_ tok_open = TokenOpenParen /\ Type_ tok_close = TokenCloseParen
  /\ closes_matched 0 [tok_title "a"; tok_or; tok_title "b"] = true
  /\ Part0.parse_loop tokens_group
       ([], Part0.mkItem (Part0.mkQuery [leaf "TITLE" "x"] [] [] None)
              TokenAND)
     = ([], Part0.mkItem
              (Part0.mkQuery [leaf "TITLE" "x"; tree_group] [] [] None)
              TokenAND).
Proof.
  split; [reflexivity |]. split; [reflexivity |]. split; [reflexivity |].
  pose proof (C2_group_attachment tok_open tok_close
                [tok_title "a"; tok_or; tok_title "b"]
                eq_refl eq_refl eq_refl) as [H _].
  destruct (H [] (Part0.mkItem (Part0.mkQuery [leaf "TITLE" "x"] [] [] None)
                    TokenAND)) as [_ H2].
  exact H2.
Defined.

(** ** Terms whose value holds a colon *)

(** *** [strings.ReplaceAll] *)

Lemma HasPrefix_true (s old : gostring) :
  HasPrefix s old = true -> s = old ++ skipn (length old) s.
Proof.
  revert s; induction old as [| o old IH]; intros s H; [reflexivity |].
  destruct s as [| c s]; [discriminate |]. cbn in H.
  apply andb_true_iff in H. destruct H as [E H].
  apply Ascii.eqb_eq in E. subst. cbn. f_equal. now apply IH.
Qed.

Lemma HasPrefix_app (old r : gostring) : HasPrefix (old ++ r) old = true.
Proof.
  induction old as [| o old IH]; [reflexivity |].
  cbn. now rewrite Ascii.eqb_refl.
Qed.

Lemma replace_from_skip (old new p r : gostring) :
  replace_from old new (length p) (p ++ r) = replace_from old new 0 r.
Proof.
  induction p as [| c p IH]; [| exact IH].
  cbn. now destruct r.
Qed.

(** Replacing a string by itself changes nothing. *)
Lemma replace_from_same (old : gostring) :
  old <> [] -> forall s, replace_from old old 0 s = s.
Proof.
  intros Hold s.
  induction s as [s IH] using (induction_ltof1 _ (@length ascii)).
  unfold ltof in IH. destruct s as [| c s]; [reflexivity |].
  cbn [replace_from]. destruct (HasPrefix (c :: s) old) eqn:E.
  - apply HasPrefix_true in E. destruct old as [| o old]; [contradiction |].
    cbn in E. injection E as -> E.
    replace (length (o :: old) - 1) with (length old) by (cbn; lia).
    rewrite E at 1. rewrite replace_from_skip, IH.
    + cbn. f_equal. now rewrite <- E.
    + rewrite E at 2. cbn. rewrite length_app. lia.
  - f_equal. apply IH. cbn. lia.
Qed.

(** A prefix without the first byte of [old] is copied. *)
Lemma replace_from_prefix (o : ascii) (old new p s : gostring) :
  forallb (fun c => negb (Ascii.eqb o c)) p = true ->
  replace_from (o :: old) new 0 (p ++ s)
  = p ++ replace_from (o :: old) new 0 s.
Proof.
  induction p as [| c p IH]; intros H; [reflexivity |].
  cbn in H. apply andb_true_iff in H. destruct H as [Hc H].
  apply negb_true_iff in Hc. cbn. rewrite Hc. cbn. f_equal. now apply IH.
Qed.

Lemma HasPrefix_incl (s old : gostring) :
  HasPrefix s old = true -> incl old s.
Proof.
  intros H. apply HasPrefix_true in H. rewrite H. now apply incl_appl, incl_refl.
Qed.

(** A string that lacks a byte of [old] has no occurrence of [old]. *)
Lemma replace_from_absent (c : ascii) (old new s : gostring) :
  In c old -> ~ In c s -> replace_from old new 0 s = s.
Proof.
  intros Hc. induction s as [| x s IH]; intros Hs; [reflexivity |].
  cbn [replace_from]. destruct (HasPrefix (x :: s) old) eqn:E.
  - apply HasPrefix_incl in E. contradiction (Hs (E c Hc)).
  - f_equal. apply IH. intros Hin. apply Hs. now right.
Qed.

(** Before a double quote, an [old] without double quote can only occur
    in what precedes the quote. *)
Lemma HasPrefix_before_quote (old v r : gostring) :
  old <> [] -> forallb not_quote old = true ->
  HasPrefix (v ++ dquote :: r) old = HasPrefix v old.
Proof.
  revert v; induction old as [| o old IH]; intros v Hne Hq; [contradiction |].
  cbn in Hq. apply andb_true_iff in Hq. destruct Hq as [Ho Hq].
  destruct v as [| c v]; cbn.
  - unfold not_quote in Ho. apply negb_true_iff in Ho.
    rewrite Ascii.eqb_sym in Ho. now rewrite Ascii.eqb_sym, Ho.
  - destruct old as [| o' old]; [now destruct v |].
    rewrite IH; [reflexivity | discriminate | exact Hq].
Qed.

Lemma HasPrefix_length (s old : gostring) :
  HasPrefix s old = true -> length old <= length s.
Proof.
  intros H. apply HasPrefix_true in H. rewrite H, length_app. lia.
Qed.

Lemma replace_from_before_quote (old new r : gostring) :
  old <> [] -> forallb not_quote old = true ->
  forall v skip, skip <= length v ->
    replace_from old new skip (v ++ dquote :: r)
    = replace_from old new skip v ++ replace_from old new 0 (dquote :: r).
Proof.
  intros Hne Hq v. induction v as [| c v IH]; intros skip Hs.
  - cbn in Hs. now replace skip with 0 by lia.
  - cbn [app replace_from]. destruct skip as [| skip].
    + change (c :: v ++ dquote :: r) with ((c :: v) ++ dquote :: r).
      rewrite (HasPrefix_before_quote old (c :: v) r Hne Hq).
      destruct (HasPrefix (c :: v) old) eqn:E.
      * apply HasPrefix_length in E. cbn in E.
        rewrite IH by lia. now rewrite app_assoc.
      * cbn. f_equal. apply IH. lia.
    + apply IH. cbn in Hs. lia.
Qed.

Lemma replace_from_keeps (c : ascii) (old new : gostring) :
  old <> [] -> ~ In c old ->
  forall s skip,
    Forall (fun x => x <> c) (firstn skip s) -> In c s ->
    In c (replace_from old new skip s).
Proof.
  intros Hne Hc s. induction s as [| x s IH]; intros skip Hf Hin;
    [contradiction |].
  cbn [replace_from]. destruct skip as [| skip].
  - destruct (HasPrefix (x :: s) old) eqn:E.
    + apply in_or_app. right. apply HasPrefix_true in E.
      destruct old as [| o old]; [contradiction |].
      cbn in E. injection E as -> E.
      replace (length (o :: old) - 1) with (length old) by (cbn; lia).
      apply IH.
      * rewrite E, firstn_app, Nat.sub_diag, firstn_all. cbn.
        rewrite app_nil_r. apply Forall_forall. intros y Hy <-.
        apply Hc. now right.
      * destruct Hin as [-> | Hin]; [| exact Hin].
        contradiction Hc. now left.
    + destruct Hin as [-> | Hin]; [now left | right].
      apply IH; [constructor | exact Hin].
  - cbn in Hf. inversion Hf; subst.
    destruct Hin as [-> | Hin]; [contradiction |]. now apply IH.
Qed.

(** *** The line of a term, as the scan sees it *)

Lemma is_field_name_cases (name : gostring) :
  is_field_name name = true ->
  name = lit "TITLE-ABS-KEY" \/ name = lit "TITLE-ABS" \/ name = lit "TITLE"
  \/ name = lit "AUTHKEY".
Proof.
  unfold is_field_name. cbn [existsb field_function_names].
  rewrite !orb_true_iff. unfold eqs.
  intros [H | [H | [H | [H | H]]]]; try discriminate;
    match type of H with
    | (if ?d then _ else _) = _ => destruct d; [auto | discriminate]
    end.
Qed.

Lemma Count_absent (s : gostring) (c : ascii) :
  ~ In c s -> Count s c = 0.
Proof.
  unfold Count. induction s as [| x s IH]; intros H; [reflexivity |].
  cbn. destruct (Ascii.eqb c x) eqn:E.
  - apply Ascii.eqb_eq in E. subst. contradiction H. now left.
  - apply IH. intros Hin. apply H. now right.
Qed.

Lemma lacks_Forall (c : ascii) (s : gostring) :
  lacks c s = true <-> Forall (fun x => x <> c) s.
Proof.
  unfold lacks. rewrite forallb_forall, Forall_forall.
  split; intros H x Hx; specialize (H x Hx).
  - apply negb_true_iff in H. now apply Ascii.eqb_neq.
  - apply negb_true_iff. now apply Ascii.eqb_neq.
Qed.

Lemma lacks_not_in (c : ascii) (s : gostring) :
  lacks c s = true -> ~ In c s.
Proof.
  rewrite lacks_Forall, Forall_forall. intros H Hin. now apply (H c Hin).
Qed.

Lemma lacks_not_quote (v : gostring) :
  lacks dquote v = true -> forallb not_quote v = true.
Proof. intros H. exact H. Qed.

(** The term after [strings.ReplaceAll]: only the value can change. *)
Lemma ReplaceAll_term (old new p v r : gostring) (o : ascii)
    (old' : gostring) :
  old = o :: old' -> forallb not_quote old = true ->
  forallb (fun c => negb (Ascii.eqb o c)) p = true ->
  ReplaceAll (p ++ v ++ dquote :: r) old new
  = p ++ ReplaceAll v old new ++ replace_from old new 0 (dquote :: r).
Proof.
  intros -> Hq Hp. unfold ReplaceAll.
  rewrite replace_from_prefix by exact Hp.
  rewrite replace_from_before_quote; [reflexivity | discriminate | exact Hq | lia].
Qed.

Lemma ReplaceAll_absent (c : ascii) (old new s : gostring) :
  In c old -> ~ In c s -> ReplaceAll s old new = s.
Proof. apply replace_from_absent. Qed.

Lemma ReplaceAll_same (old s : gostring) :
  old <> [] -> ReplaceAll s old old = s.
Proof. intros H. now apply replace_from_same. Qed.

Lemma ReplaceAll_quoted (old new v : gostring) (o : ascii)
    (old' : gostring) :
  old = o :: old' -> forallb not_quote old = true ->
  ReplaceAll (quoted v) old new = quoted (ReplaceAll v old new).
Proof.
  intros -> Hq. unfold quoted, q.
  change ([dquote] ++ v ++ [dquote]) with ([dquote] ++ v ++ dquote :: []).
  rewrite (ReplaceAll_term (o :: old') new [dquote] v [] o old' eq_refl Hq).
  - cbn in Hq. apply andb_true_iff in Hq. destruct Hq as [Ho _].
    unfold not_quote in Ho. apply negb_true_iff in Ho.
    cbn. rewrite Ho. reflexivity.
  - cbn in Hq. apply andb_true_iff in Hq. destruct Hq as [Ho _].
    cbn. now rewrite andb_true_r.
Qed.

Lemma call_shape (name v : gostring) :
  call name v = (name ++ lit "(" ++ q) ++ v ++ dquote :: [")"%char].
Proof. unfold call, q. now rewrite <- !app_assoc. Qed.

(** The replacements whose [old] starts with a space. *)
Lemma ReplaceAll_call (old' new name v : gostring) :
  is_field_name name = true ->
  forallb not_quote (" "%char :: old') = true ->
  ReplaceAll (call name v) (" "%char :: old') new
  = call name (ReplaceAll v (" "%char :: old') new).
Proof.
  intros Hn Hq. rewrite !call_shape.
  rewrite (ReplaceAll_term _ new _ v _ " " old' eq_refl Hq).
  - reflexivity.
  - destruct (is_field_name_cases name Hn) as [-> | [-> | [-> | ->]]];
      reflexivity.
Qed.

(** The first replacement, of an opening parenthesis and a space. *)
Lemma ReplaceAll_call_open (name v : gostring) :
  is_field_name name = true ->
  ReplaceAll (call name v) (lit "( ") (lit "(")
  = call name (ReplaceAll v (lit "( ") (lit "(")).
Proof.
  intros Hn. unfold call, q, ReplaceAll. cbn [lit list_ascii_of_string].
  rewrite replace_from_prefix
    by (destruct (is_field_name_cases name Hn) as [-> | [-> | [-> | ->]]];
        reflexivity).
  cbn [lit list_ascii_of_string app replace_from HasPrefix].
  cbn [Ascii.eqb Bool.eqb andb dquote].
  change (v ++ ["034"%char; ")"%char]) with (v ++ dquote :: [")"%char]).
  rewrite replace_from_before_quote; [| discriminate | reflexivity | lia].
  reflexivity.
Qed.

Lemma Count_call (name v : gostring) (c : ascii) :
  is_field_name name = true -> (c = "("%char \/ c = ")"%char) ->
  Count (call name v) c = S (Count v c).
Proof.
  intros Hn Hc. unfold call. rewrite !Count_app.
  destruct (is_field_name_cases name Hn) as [-> | [-> | [-> | ->]]];
    destruct Hc; subst; cbn; lia.
Qed.

Lemma preprocess_call (name v : gostring) :
  is_field_name name = true -> parens_closed v = true ->
  preprocess (call name v) = call name (scan_value v).
Proof.
  intros Hn Hv. unfold preprocess.
  rewrite !Count_call by auto.
  unfold parens_closed in Hv. apply Nat.leb_le in Hv.
  replace (S (Count v ")") <? S (Count v "(")) with false
    by (symmetry; apply Nat.ltb_ge; lia).
  rewrite ReplaceAll_call_open by exact Hn.
  change (lit " )") with (" "%char :: lit ")").
  change (lit " AND NOT ") with (" "%char :: lit "AND NOT ").
  change (lit " AND ") with (" "%char :: lit "AND ").
  change (lit " OR ") with (" "%char :: lit "OR ").
  rewrite !ReplaceAll_call by (exact Hn || reflexivity).
  reflexivity.
Qed.

Lemma preprocess_quoted (v : gostring) :
  lacks "(" v = true -> preprocess (quoted v) = quoted (scan_value v).
Proof.
  intros Hv. unfold preprocess.
  assert (C : Count (quoted v) "(" = 0).
  { unfold quoted. rewrite !Count_app, (Count_absent v)
      by now apply lacks_not_in. reflexivity. }
  rewrite C. cbn [Nat.ltb Nat.leb].
  repeat (erewrite ReplaceAll_quoted; [| reflexivity | reflexivity]).
  reflexivity.
Qed.

(** *** The scan of a term *)

Lemma drop_while_value (v r : gostring) :
  forallb not_quote v = true ->
  drop_while not_quote (v ++ dquote :: r) = dquote :: r.
Proof.
  induction v as [| c v IH]; intros H; [reflexivity |].
  cbn in *. apply andb_true_iff in H. destruct H as [Hc H].
  rewrite Hc. now apply IH.
Qed.

Lemma after_value_quote {A : Type} (k : @cont A) (v r : gostring)
    (cs : captures) :
  v <> [] -> forallb not_quote v = true ->
  after_value k (v ++ dquote :: r) cs = k (dquote :: r) cs.
Proof.
  intros Hne H. destruct v as [| c v]; [contradiction |].
  cbn in *. apply andb_true_iff in H. destruct H as [Hc H].
  rewrite Hc. now rewrite drop_while_value.
Qed.

(** A value and its closing quote: the value is captured whole. *)
Lemma rmatch_value_quote {A : Type} (P : ascii -> Prop) (V R : regex)
    (i : nat) (v r : gostring) (cs : captures) (k : @cont A) :
  value_on P V -> Forall P (v ++ dquote :: r) ->
  v <> [] -> forallb not_quote v = true ->
  rmatch (Cat (Group i V) (Cat (Chr dquote) R)) (v ++ dquote :: r) cs k
  = rmatch R r ((i, (v ++ dquote :: r, dquote :: r)) :: cs) k.
Proof.
  intros HV HP Hne Hq. cbn [rmatch]. rewrite HV; [| exact HP |].
  - rewrite after_value_quote by assumption. cbn. reflexivity.
  - intros x s cs' Hx. unfold not_quote in Hx. apply negb_true_iff in Hx.
    now rewrite Hx.
Qed.

Lemma rmatch_value_last_quote {A : Type} (P : ascii -> Prop) (V : regex)
    (i : nat) (v r : gostring) (cs : captures) (k : @cont A) :
  value_on P V -> Forall P (v ++ dquote :: r) ->
  v <> [] -> forallb not_quote v = true ->
  rmatch (Cat (Group i V) (Chr dquote)) (v ++ dquote :: r) cs k
  = k r ((i, (v ++ dquote :: r, dquote :: r)) :: cs).
Proof.
  intros HV HP Hne Hq. cbn [rmatch]. rewrite HV; [| exact HP |].
  - rewrite after_value_quote by assumption. cbn. reflexivity.
  - intros x s cs' Hx. unfold not_quote in Hx. apply negb_true_iff in Hx.
    now rewrite Hx.
Qed.

(** The captures of a field call: the name and the value. *)
Lemma exec_field_call (P : ascii -> Prop) (V : regex) (name v : gostring) :
  value_on P V -> is_field_name name = true ->
  v <> [] -> forallb not_quote v = true ->
  Forall P (v ++ dquote :: [")"%char]) ->
  exec (field_call V) (call name v)
  = Some ([], [(2, (v ++ dquote :: [")"%char], dquote :: [")"%char]));
               (1, (call name v,
                    lit "(" ++ q ++ v ++ dquote :: [")"%char]))]).
Proof.
  intros HV Hn Hne Hq HP. unfold exec, field_call.
  remember (Cat (Group 2 V) (Cat (Chr dquote) (Chr ")"))) as rest eqn:ER.
  destruct (is_field_name_cases name Hn) as [-> | [-> | [-> | ->]]];
    unfold call, q; cbn; subst rest;
    change (v ++ ["034"%char; ")"%char]) with (v ++ dquote :: [")"%char]);
    rewrite (rmatch_value_quote P) by assumption; reflexivity.
Qed.

Lemma exec_token_call (P : ascii -> Prop) (V : regex) (name v : gostring) :
  value_on P V -> is_field_name name = true ->
  v <> [] -> forallb not_quote v = true ->
  Forall P (v ++ dquote :: [")"%char]) ->
  exists cs, exec (token_regex V) (call name v) = Some ([], cs).
Proof.
  intros HV Hn Hne Hq HP. eexists. unfold exec, token_regex. cbn [rmatch].
  change (rmatch (field_call V) (call name v) []
            (fun s' cs => Some (s', cs)))
    with (exec (field_call V) (call name v)).
  rewrite (exec_field_call P) by assumption. reflexivity.
Qed.

Lemma exec_token_quoted (P : ascii -> Prop) (V : regex) (v : gostring) :
  value_on P V -> v <> [] -> forallb not_quote v = true ->
  Forall P (v ++ [dquote]) ->
  exists cs, exec (token_regex V) (quoted v) = Some ([], cs).
Proof.
  intros HV Hne Hq HP. eexists. unfold exec, token_regex, field_call.
  remember (Cat (Group 3 V) (Chr dquote)) as rest eqn:ER.
  unfold quoted, q. cbn. subst rest.
  change (v ++ ["034"%char]) with (v ++ dquote :: []).
  rewrite (rmatch_value_last_quote P) by assumption. reflexivity.
Qed.

Lemma exec_token_nil (V : regex) : exec (token_regex V) [] = None.
Proof. reflexivity. Qed.

(** A line that is one match from end to end. *)
Lemma FindAll_single (r : regex) (s : gostring) (cs : captures) :
  s <> [] -> exec r s = Some ([], cs) -> exec r [] = None ->
  FindAllStringSubmatchIndex r s = [(0, length s)].
Proof.
  intros Hne He Hnil. unfold FindAllStringSubmatchIndex.
  destruct s as [| c s]; [contradiction |].
  cbn [find_all search]. rewrite He. cbn [length Nat.sub Nat.add Nat.leb].
  rewrite skipn_all2 by (cbn; lia).
  cbn [find_all search]. rewrite Hnil. reflexivity.
Qed.

(** *** [strings.TrimSpace] on a term *)

Lemma eqb_high (k : nat) (c : ascii) :
  128 <= k -> k < 256 -> nat_of_ascii c < 128 ->
  Ascii.eqb (ascii_of_nat k) c = false.
Proof.
  intros H1 H2 Hc. apply Ascii.eqb_neq. intros <-.
  rewrite nat_ascii_embedding in Hc; lia.
Qed.

(** A string that ends with an ASCII byte does not end with a white-space
    rune of two or three bytes. *)
Lemma space_width_low_end (l : gostring) (c : ascii) :
  nat_of_ascii c < 128 ->
  (length l <= 1 -> space_width (l ++ [c]) <> 2)
  /\ (length l <= 2 -> space_width (l ++ [c]) <> 3).
Proof.
  intros Hc.
  assert (E : forall k, 128 <= k -> k < 256 ->
                        Ascii.eqb (ascii_of_nat k) c = false)
    by (intros; now apply eqb_high).
  assert (R : forall z, nat_of_ascii z < 128 ->
            ((128 <=? nat_of_ascii z) && (nat_of_ascii z <=? 138)
             || (nat_of_ascii z =? 168) || (nat_of_ascii z =? 169)
             || (nat_of_ascii z =? 175)) = false).
  { intros z Hz. rewrite !orb_false_iff, andb_false_iff, !Nat.eqb_neq,
      Nat.leb_gt. lia. }
  split; intros Hl.
  - destruct l as [| y [| z l]]; [| | cbn in Hl; lia];
      cbn [app space_width HasPrefix bytes map skipn];
      rewrite ?E by lia;
      rewrite ?andb_false_r, ?andb_false_l, ?orb_false_r; cbn [orb andb];
      repeat match goal with
             | |- context [if ?b then _ else _] => destruct b
             end; discriminate.
  - destruct l as [| y [| z [| w l]]]; [| | | cbn in Hl; lia];
      cbn [app space_width HasPrefix bytes map skipn];
      rewrite ?E by lia;
      rewrite ?andb_false_r, ?andb_false_l, ?orb_false_r; cbn [orb andb];
      rewrite ?R by exact Hc;
      repeat match goal with
             | |- context [if ?b then _ else _] => destruct b
             end; discriminate.
Qed.

Lemma space_width_last_low (c : ascii) (rs : gostring) :
  nat_of_ascii c < 128 -> asciiSpace c = false ->
  space_width_last (c :: rs) = 0.
Proof.
  intros Hc Hs. unfold space_width_last. rewrite Hs.
  destruct (space_width_low_end (rev (firstn 1 rs)) c Hc) as [H2 _].
  destruct (space_width_low_end (rev (firstn 2 rs)) c Hc) as [_ H3].
  rewrite !firstn_cons. cbn [rev].
  destruct (Nat.eqb_spec (space_width (rev (firstn 1 rs) ++ [c])) 2) as [E |_].
  { exfalso. apply H2; [| exact E]. rewrite length_rev, length_firstn. lia. }
  destruct (Nat.eqb_spec (space_width (rev (firstn 2 rs) ++ [c])) 3) as [E |_].
  { exfalso. apply H3; [| exact E]. rewrite length_rev, length_firstn. lia. }
  reflexivity.
Qed.

Lemma trim_left_none (fuel : nat) (s : gostring) :
  space_width s = 0 -> trim_left fuel s = s.
Proof. intros H. destruct fuel; cbn [trim_left]; [| rewrite H]; reflexivity. Qed.

Lemma trim_right_none (fuel : nat) (rs : gostring) :
  space_width_last rs = 0 -> trim_right fuel rs = rs.
Proof. intros H. destruct fuel; cbn [trim_right]; [| rewrite H]; reflexivity. Qed.

(** A string between two ASCII bytes that are not white space is
    trimmed to itself. *)
Lemma TrimSpace_none (s : gostring) (c : ascii) :
  space_width (s ++ [c]) = 0 ->
  nat_of_ascii c < 128 -> asciiSpace c = false ->
  TrimSpace (s ++ [c]) = s ++ [c].
Proof.
  intros H0 Hc Hs. unfold TrimSpace.
  rewrite trim_left_none by exact H0.
  rewrite rev_app_distr. cbn [rev app].
  rewrite trim_right_none by now apply space_width_last_low.
  change (c :: rev s) with ([c] ++ rev s).
  now rewrite rev_app_distr, rev_involutive.
Qed.

Lemma TrimSpace_call (name v : gostring) :
  is_field_name name = true -> TrimSpace (call name v) = call name v.
Proof.
  intros Hn. unfold call. rewrite !app_assoc.
  apply TrimSpace_none; [| cbn; lia | reflexivity].
  rewrite <- !app_assoc.
  destruct (is_field_name_cases name Hn) as [-> | [-> | [-> | ->]]];
    reflexivity.
Qed.

Lemma TrimSpace_quoted (v : gostring) : TrimSpace (quoted v) = quoted v.
Proof.
  unfold quoted, q. rewrite !app_assoc.
  apply TrimSpace_none; [reflexivity | cbn; lia | reflexivity].
Qed.

(** *** The token of a term *)

Lemma firstn_app_sub (a b : gostring) :
  firstn (length (a ++ b) - length b) (a ++ b) = a.
Proof.
  rewrite length_app, Nat.add_sub, firstn_app, Nat.sub_diag, firstn_all.
  cbn. now rewrite app_nil_r.
Qed.

Lemma eqs_false (a b : gostring) : a <> b -> eqs a b = false.
Proof. unfold eqs. now destruct (list_eq_dec ascii_dec a b). Qed.

Lemma classify_call (P : ascii -> Prop) (V : regex) (name v : gostring) :
  value_on P V -> is_field_name name = true ->
  v <> [] -> forallb not_quote v = true ->
  Forall P (v ++ dquote :: [")"%char]) ->
  classify (field_call V) (call name v) = field_token name v.
Proof.
  intros HV Hn Hne Hq HP. unfold classify.
  assert (Hs : FindStringSubmatch (field_call V) 2 (call name v)
               = [call name v; name; v]).
  { unfold FindStringSubmatch.
    assert (Hsearch : search (field_call V) 0 (call name v)
              = Some (0, 0 + (length (call name v) - 0),
                      [(2, (v ++ dquote :: [")"%char], dquote :: [")"%char]));
                       (1, (call name v,
                            lit "(" ++ q ++ v ++ dquote :: [")"%char]))])).
    { pose proof (exec_field_call P V name v HV Hn Hne Hq HP) as He.
      destruct (call name v) as [| c s] eqn:Ec.
      - destruct (is_field_name_cases name Hn) as [-> | [-> | [-> | ->]]];
          discriminate.
      - cbn [search]. rewrite He. reflexivity. }
    rewrite Hsearch. cbn [map seq capture Nat.eqb].
    unfold slice. cbn [Nat.add skipn]. rewrite !Nat.sub_0_r, firstn_all.
    f_equal. f_equal.
    - unfold call at 1 2. apply firstn_app_sub.
    - f_equal. apply (firstn_app_sub v [dquote; ")"%char]). }
  rewrite Hs.
  destruct (is_field_name_cases name Hn) as [-> | [-> | [-> | ->]]];
    rewrite !eqs_false by discriminate; reflexivity.
Qed.

Lemma Contains_absent (s : gostring) (c : ascii) :
  ~ In c s -> Contains s [c] = false.
Proof.
  induction s as [| x s IH]; intros H; [reflexivity |].
  cbn. rewrite IH by (intros Hin; apply H; now right).
  destruct (Ascii.eqb c x) eqn:E; [| reflexivity].
  apply Ascii.eqb_eq in E. subst. contradiction H. now left.
Qed.

Lemma drop_while_quote_none (s : gostring) :
  s <> [] -> forallb not_quote s = true ->
  drop_while (Ascii.eqb dquote) s = s.
Proof.
  intros Hne H. destruct s as [| c s]; [contradiction |].
  cbn [forallb drop_while] in *. apply andb_true_iff in H.
  destruct H as [Hc _].
  unfold not_quote in Hc. apply negb_true_iff in Hc.
  now rewrite Ascii.eqb_sym, Hc.
Qed.

Lemma Trim_quoted (v : gostring) :
  v <> [] -> forallb not_quote v = true -> Trim (quoted v) dquote = v.
Proof.
  intros Hne Hq. unfold Trim, quoted, q.
  cbn [app drop_while]. rewrite Ascii.eqb_refl.
  assert (H1 : drop_while (Ascii.eqb dquote) (v ++ [dquote]) = v ++ [dquote]).
  { destruct v as [| c v]; [contradiction |].
    cbn [forallb drop_while app] in *. apply andb_true_iff in Hq.
    destruct Hq as [Hc _].
    unfold not_quote in Hc. apply negb_true_iff in Hc.
    now rewrite Ascii.eqb_sym, Hc. }
  rewrite H1, rev_app_distr. cbn [rev app drop_while].
  rewrite Ascii.eqb_refl.
  rewrite drop_while_quote_none.
  - apply rev_involutive.
  - intros E. apply Hne. apply (f_equal (@rev ascii)) in E.
    now rewrite rev_involutive in E.
  - rewrite forallb_forall in *. intros c Hc. apply Hq. now apply in_rev.
Qed.

Lemma classify_quoted (ref : regex) (v : gostring) :
  v <> [] -> lacks dquote v = true -> lacks "(" v = true ->
  classify ref (quoted v) = field_token (lit "ANY") v.
Proof.
  intros Hne Hq Hv. unfold classify.
  assert (C : Contains (quoted v) (lit "(") = false).
  { apply Contains_absent. unfold quoted, q. rewrite !in_app_iff.
    pose proof (lacks_not_in "(" v Hv) as N.
    cbn. intros [[H | []] | [H | [H | []]]]; try discriminate. auto. }
  rewrite C, Trim_quoted by assumption.
  assert (S1 : HasSuffix (quoted v) q = true).
  { unfold HasSuffix, quoted, q. rewrite !rev_app_distr. cbn.
    reflexivity. }
  rewrite S1. unfold quoted, q at 1 2 3 4 5 6.
  rewrite !eqs_false by discriminate. reflexivity.
Qed.

(** The tokens of a line that is one match. *)
Lemma tokenize_single (re ref : regex) (line query : gostring)
    (cs : captures) :
  preprocess line = query -> query <> [] ->
  exec re query = Some ([], cs) -> exec re [] = None ->
  TrimSpace query = query ->
  let token := classify ref query in
  tokenize re ref line
  = if negb (Type_ token =? 0)%Z || negb (eqs (Value token) [])
    then [token] else [].
Proof.
  intros Hp Hne He Hnil Ht. cbv zeta. unfold tokenize. rewrite Hp.
  rewrite (FindAll_single re query cs Hne He Hnil).
  cbn [tokenize_loop]. unfold tokenize_step.
  cbn [fst snd length Nat.ltb Nat.leb andb].
  unfold slice. cbn [skipn]. rewrite ?Nat.sub_0_r, firstn_all, Ht.
  destruct (negb _ || negb _); reflexivity.
Qed.

(** *** The parser drops the token *)

Lemma Split_length (s : gostring) (sep : ascii) :
  length (Split s sep) = S (Count s sep).
Proof.
  unfold Count. induction s as [| x s IH]; [reflexivity |].
  cbn [Split filter]. rewrite (Ascii.eqb_sym sep x).
  destruct (Ascii.eqb x sep).
  - cbn [length]. now rewrite IH.
  - destruct (Split s sep) as [| p ps]; [discriminate |]. exact IH.
Qed.

Lemma has_colon_Count (v : gostring) :
  has_colon v = true -> 1 <= Count v ":".
Proof.
  unfold has_colon, Count. induction v as [| c v IH]; [discriminate |].
  cbn [existsb filter]. destruct (Ascii.eqb ":" c); cbn [orb length];
    [lia | exact IH].
Qed.

Lemma has_colon_In (v : gostring) : has_colon v = true <-> In ":"%char v.
Proof.
  unfold has_colon. rewrite existsb_exists. split.
  - intros [c [Hc E]]. apply Ascii.eqb_eq in E. now subst.
  - intros H. exists ":"%char. split; [exact H | apply Ascii.eqb_refl].
Qed.

(** The payload of a term with a colon in its value splits in three parts
    or more. *)
Lemma field_token_parts (name v : gostring) :
  has_colon v = true ->
  3 <= length (Split (Value (field_token name v)) ":").
Proof.
  intros H. apply has_colon_Count in H. cbn [Value field_token].
  rewrite Split_length, !Count_app. cbn [lit list_ascii_of_string].
  change (Count [":"%char] ":") with 1. lia.
Qed.

Lemma part0_drops (token : Token) (st : Part0.state) :
  Type_ token = TokenField -> 3 <= length (Split (Value token) ":") ->
  Part0.parse_step st token = st.
Proof.
  intros Ht Hl. unfold Part0.parse_step. rewrite Ht. destruct st as [s c].
  cbn. destruct (Split (Value token) ":") as [| p0 [| p1 [| p2 ps]]];
    cbn in Hl; try reflexivity; lia.
Qed.

Lemma main_drops (token : Token) (st : MainGo.state) :
  Type_ token = TokenField -> 3 <= length (Split (Value token) ":") ->
  MainGo.parse_step st token = st.
Proof.
  intros Ht Hl. unfold MainGo.parse_step. rewrite Ht. cbn.
  destruct (Split (Value token) ":") as [| p0 [| p1 [| p2 ps]]];
    cbn in Hl; try reflexivity; lia.
Qed.

(** *** The value after the replacements *)

Lemma ReplaceAll_lacks (c : ascii) (s old new : gostring) :
  lacks c new = true -> lacks c s = true ->
  lacks c (ReplaceAll s old new) = true.
Proof.
  rewrite !lacks_Forall. intros Hn Hs. now apply replace_from_Forall.
Qed.

(** The replacements bring no byte into the value but those of their
    right-hand sides; an opening parenthesis only where there was one. *)
Lemma scan_value_lacks (c : ascii) (v : gostring) :
  lacks c (lit " AND_NOT OR)") = true ->
  lacks c v = true -> lacks "(" v = true \/ c <> "("%char ->
  lacks c (scan_value v) = true.
Proof.
  intros Hc Hv Ho. unfold scan_value.
  assert (H1 : lacks c (ReplaceAll v (lit "( ") (lit "(")) = true).
  { destruct Ho as [Ho | Ho].
    - rewrite (ReplaceAll_absent "(" (lit "( "));
        [exact Hv | now left | now apply lacks_not_in].
    - apply ReplaceAll_lacks; [| exact Hv].
      apply lacks_Forall. repeat constructor. intros E. now apply Ho. }
  apply lacks_Forall in Hc. rewrite Forall_forall in Hc.
  repeat (apply ReplaceAll_lacks;
          [apply lacks_Forall, Forall_forall; intros x Hx; apply Hc;
           cbn in Hx |- *; tauto |]).
  exact H1.
Qed.

Lemma ReplaceAll_colon (s old new : gostring) :
  old <> [] -> ~ In ":"%char old -> has_colon s = true ->
  has_colon (ReplaceAll s old new) = true.
Proof.
  rewrite !has_colon_In. intros Hne Ho H.
  apply replace_from_keeps; [exact Hne | exact Ho | constructor | exact H].
Qed.

Lemma scan_value_colon (v : gostring) :
  has_colon v = true -> has_colon (scan_value v) = true.
Proof.
  intros H. unfold scan_value.
  repeat (apply ReplaceAll_colon;
          [discriminate
          | cbn; intuition discriminate
          | ]).
  exact H.
Qed.

Lemma has_colon_nonempty (v : gostring) : has_colon v = true -> v <> [].
Proof. now destruct v. Qed.

Lemma lacks_not_backslash (v r : gostring) :
  lacks backslash v = true -> Forall not_backslash r ->
  Forall not_backslash (v ++ r).
Proof.
  intros Hv Hr. apply Forall_app. split; [| exact Hr].
  now apply lacks_Forall.
Qed.

Lemma field_token_nonzero (name v : gostring) :
  v <> [] ->
  negb (Type_ (field_token name v) =? 0)%Z
  || negb (eqs (Value (field_token name v)) []) = true.
Proof.
  intros Hv. cbn [Type_ Value field_token]. rewrite eqs_false; [reflexivity |].
  intros E. apply app_eq_nil in E. destruct E as [_ E]. discriminate.
Qed.

Lemma call_nonempty (name v : gostring) : call name v <> [].
Proof.
  unfold call. intros E. apply app_eq_nil in E. destruct E as [_ E].
  discriminate.
Qed.

(** The tokenizers on a field call and on a bare quoted value. *)
Lemma main_tokenize_call (name v : gostring) :
  is_field_name name = true -> parens_closed v = true ->
  scan_value v <> [] -> lacks dquote (scan_value v) = true ->
  MainGo.tokenize (call name v) = [field_token name (scan_value v)].
Proof.
  intros Hn Hv Hne Hq.
  pose proof (preprocess_call name v Hn Hv) as Hp.
  assert (HT : Forall (fun _ => True) (scan_value v ++ dquote :: [")"%char]))
    by (apply Forall_forall; auto).
  destruct (exec_token_call (fun _ => True) MainGo.quoted_value name
              (scan_value v)) as [cs He]; auto using value_on_plus.
  unfold MainGo.tokenize.
  rewrite (tokenize_single _ _ _ _ cs Hp (call_nonempty _ _) He
             (exec_token_nil _) (TrimSpace_call _ _ Hn)).
  rewrite (classify_call (fun _ => True)) by auto using value_on_plus.
  now rewrite field_token_nonzero.
Qed.

Lemma part0_tokenize_call (name v : gostring) :
  is_field_name name = true -> parens_closed v = true ->
  scan_value v <> [] -> lacks dquote (scan_value v) = true ->
  lacks backslash (scan_value v) = true ->
  Part0.tokenize (call name v) = [field_token name (scan_value v)].
Proof.
  intros Hn Hv Hne Hq Hb.
  pose proof (preprocess_call name v Hn Hv) as Hp.
  assert (HT : Forall (fun _ => True) (scan_value v ++ dquote :: [")"%char]))
    by (apply Forall_forall; auto).
  assert (HB : Forall not_backslash (scan_value v ++ dquote :: [")"%char])).
  { apply lacks_not_backslash; [exact Hb |].
    repeat constructor; discriminate. }
  destruct (exec_token_call (fun _ => True) Part0.quoted_value name
              (scan_value v)) as [cs He]; auto using value_on_lazy.
  unfold Part0.tokenize.
  rewrite (tokenize_single _ _ _ _ cs Hp (call_nonempty _ _) He
             (exec_token_nil _) (TrimSpace_call _ _ Hn)).
  rewrite (classify_call not_backslash) by auto using value_on_escaped.
  now rewrite field_token_nonzero.
Qed.

Lemma tokenize_quoted (v : gostring) :
  lacks "(" v = true -> scan_value v <> [] ->
  lacks dquote (scan_value v) = true -> lacks "(" (scan_value v) = true ->
  Part0.tokenize (quoted v) = [field_token (lit "ANY") (scan_value v)]
  /\ MainGo.tokenize (quoted v) = [field_token (lit "ANY") (scan_value v)].
Proof.
  intros Hv Hne Hq Ho.
  pose proof (preprocess_quoted v Hv) as Hp.
  assert (HT : Forall (fun _ => True) (scan_value v ++ [dquote]))
    by (apply Forall_forall; auto).
  assert (Hq0 : quoted (scan_value v) <> []) by discriminate.
  split.
  - destruct (exec_token_quoted (fun _ => True) Part0.quoted_value
                (scan_value v)) as [cs He]; auto using value_on_lazy.
    unfold Part0.tokenize.
    rewrite (tokenize_single _ _ _ _ cs Hp Hq0 He
               (exec_token_nil _) (TrimSpace_quoted _)).
    rewrite classify_quoted by assumption.
    now rewrite field_token_nonzero.
  - destruct (exec_token_quoted (fun _ => True) MainGo.quoted_value
                (scan_value v)) as [cs He]; auto using value_on_plus.
    unfold MainGo.tokenize.
    rewrite (tokenize_single _ _ _ _ cs Hp Hq0 He
               (exec_token_nil _) (TrimSpace_quoted _)).
    rewrite classify_quoted by assumption.
    now rewrite field_token_nonzero.
Qed.

Lemma part0_only_dropped (token : Token) :
  (forall st, Part0.parse_step st token = st) ->
  Part0.parseTokens [token] = None.
Proof.
  intros H. unfold Part0.parseTokens, Part0.parse_loop. cbn [fold_left].
  rewrite H. reflexivity.
Qed.

Lemma main_only_dropped (token : Token) :
  (forall st, MainGo.parse_step st token = st) ->
  MainGo.parseTokens [token] = None.
Proof.
  intros H. unfold MainGo.parseTokens, MainGo.parse_loop. cbn [fold_left].
  rewrite H. reflexivity.
Qed.

(** A value without a space is scanned as it is. *)
Lemma scan_value_no_space (v : gostring) :
  ~ In " "%char v -> scan_value v = v.
Proof.
  intros H. unfold scan_value.
  repeat match goal with
         | |- context [ReplaceAll v ?o ?n] =>
             rewrite (ReplaceAll_absent " " o n v) by (exact H || (cbn; tauto))
         end.
  reflexivity.
Qed.

(** C10, as stated, fails on some values with a colon: for the bare
    [Qa:(bQ)] neither file emits a Field token (a bare match that holds a
    parenthesis is given to the field expression, which rejects it; only
    the balancing parenthesis is left), and for [TITLE(Qa:b\Q)], whose
    value ends with a backslash, the second file emits no token at all
    while [main.go] emits the Field token. *)
Lemma C10_no_field_token :
  has_colon (lit "a:(b") = true
  /\ Part0.tokenize (quoted (lit "a:(b")) = [tok_close]
  /\ MainGo.tokenize (quoted (lit "a:(b")) = [tok_close]
  /\ has_colon (lit "a:b\") = true
  /\ Part0.tokenize (call (lit "TITLE") (lit "a:b\")) = []
  /\ MainGo.tokenize (call (lit "TITLE") (lit "a:b\"))
     = [field_token (lit "TITLE") (lit "a:b\")].
Proof. repeat split. Qed.

(** C10, amended.  Let [v] be a value with a colon and no double quote, and
    [v'] that value after the replacements of the scan.  For every field
    function [name], when [v] leaves no parenthesis open, [main.go] emits
    for the line [name(QvQ)] the one Field token [name:v'], and so does the
    second file when [v] has no backslash; for the bare [QvQ], when [v] has
    no opening parenthesis, both files emit the one Field token [ANY:v'].
    Both parsers leave their state as it is on either token, wherever it
    stands among the tokens, and each of these lines gives the error of the
    empty result. *)
Theorem C10_colon_value_dropped (name v : gostring) :
  is_field_name name = true -> lacks dquote v = true ->
  has_colon v = true ->
  let token := field_token name (scan_value v) in
  let any := field_token (lit "ANY") (scan_value v) in
  (parens_closed v = true ->
   MainGo.tokenize (call name v) = [token]
   /\ MainGo.processQuery (call name v) = (None, Some empty_error))
  /\ (parens_closed v = true -> lacks backslash v = true ->
      Part0.tokenize (call name v) = [token]
      /\ Part0.processQuery (call name v) = (None, Some empty_error))
  /\ (lacks "(" v = true ->
      Part0.tokenize (quoted v) = [any]
      /\ MainGo.tokenize (quoted v) = [any]
      /\ Part0.processQuery (quoted v) = (None, Some empty_error)
      /\ MainGo.processQuery (quoted v) = (None, Some empty_error))
  /\ (forall t before after st,
        t = token \/ t = any ->
        Part0.parse_step st t = st
        /\ Part0.parse_loop (before ++ t :: after) st
           = Part0.parse_loop (before ++ after) st)
  /\ (forall t before after st,
        t = token \/ t = any ->
        MainGo.parse_step st t = st
        /\ MainGo.parse_loop (before ++ t :: after) st
           = MainGo.parse_loop (before ++ after) st).
Proof.
  intros Hn Hq Hc. cbv zeta.
  pose proof (scan_value_colon v Hc) as Hc'.
  pose proof (has_colon_nonempty _ Hc') as Hne'.
  assert (Hq' : lacks dquote (scan_value v) = true)
    by (apply scan_value_lacks; [reflexivity | exact Hq | right; discriminate]).
  assert (D0 : forall t, t = field_token name (scan_value v)
                         \/ t = field_token (lit "ANY") (scan_value v) ->
                         forall st, Part0.parse_step st t = st).
  { intros t [-> | ->] st; apply part0_drops;
      auto using field_token_parts. }
  assert (D1 : forall t, t = field_token name (scan_value v)
                         \/ t = field_token (lit "ANY") (scan_value v) ->
                         forall st, MainGo.parse_step st t = st).
  { intros t [-> | ->] st; apply main_drops;
      auto using field_token_parts. }
  split; [| split; [| split; [| split]]].
  - intros Hp. pose proof (main_tokenize_call name v Hn Hp Hne' Hq') as T.
    split; [exact T |]. unfold MainGo.processQuery.
    rewrite T, main_only_dropped by auto. reflexivity.
  - intros Hp Hb.
    assert (Hb' : lacks backslash (scan_value v) = true)
      by (apply scan_value_lacks;
          [reflexivity | exact Hb | right; discriminate]).
    pose proof (part0_tokenize_call name v Hn Hp Hne' Hq' Hb') as T.
    split; [exact T |]. unfold Part0.processQuery.
    rewrite T, part0_only_dropped by auto. reflexivity.
  - intros Ho.
    assert (Ho' : lacks "(" (scan_value v) = true)
      by (apply scan_value_lacks; [reflexivity | exact Ho | now left]).
    destruct (tokenize_quoted v Ho Hne' Hq' Ho') as [Q0 Q1].
    unfold Part0.processQuery, MainGo.processQuery.
    rewrite Q0, Q1, part0_only_dropped, main_only_dropped by auto.
    repeat split; reflexivity.
  - intros t before after st Ht. split; [now apply D0 |].
    unfold Part0.parse_loop. rewrite !fold_left_app. cbn [fold_left].
    now rewrite D0.
  - intros t before after st Ht. split; [now apply D1 |].
    unfold MainGo.parse_loop. rewrite !fold_left_app. cbn [fold_left].
    now rewrite D1.
Qed.

Lemma C10_colon_value_dropped_witness :
  is_field_name (lit "TITLE") = true /\ lacks dquote (lit "a:b") = true
  /\ has_colon (lit "a:b") = true
  /\ MainGo.tokenize (call (lit "TITLE") (lit "a:b"))
     = [field_token (lit "TITLE") (lit "a:b")]
  /\ Part0.tokenize (call (lit "TITLE") (lit "a:b"))
     = [field_token (lit "TITLE") (lit "a:b")]
  /\ Part0.processQuery (call (lit "TITLE") (lit "a:b"))
     = (None, Some empty_error)
  /\ Part0.tokenize (quoted (lit "a:b"))
     = [field_token (lit "ANY") (lit "a:b")].
Proof.
  split; [reflexivity |]. split; [reflexivity |]. split; [reflexivity |].
  pose proof (C10_colon_value_dropped (lit "TITLE") (lit "a:b")
                eq_refl eq_refl eq_refl) as H.
  cbv zeta in H. destruct H as (M & P & Q & _).
  destruct (M eq_refl) as [TM _]. destruct (P eq_refl eq_refl) as [TP PP].
  destruct (Q eq_refl) as [TQ _].
  split; [exact TM |]. split; [exact TP |]. split; [exact PP | exact TQ].
Defined.

(** ** The bounds of the iterations are large enough

    The loops of the matcher, of the enumeration of the matches and of
    [TrimSpace] are defined on a number of rounds.  Every round consumes a
    byte at least, so the length of the input bounds them: a larger number
    of rounds gives the same result. *)

(** A continuation that always fails makes the match fail. *)
Lemma rmatch_fail {A : Type} (r : regex) :
  forall s cs (k : @cont A),
    (forall s' cs', k s' cs' = None) -> rmatch r s cs k = None.
Proof.
  induction r as [c | p | r1 IH1 r2 IH2 | r1 IH1 r2 IH2 | r IH | r IH | r IH
                 | i r IH]; intros s cs k Hk; cbn [rmatch].
  - destruct s as [| x s]; [reflexivity |]. now destruct (Ascii.eqb x c).
  - destruct s as [| x s]; [reflexivity |]. now destruct (p x).
  - apply IH1. intros s' cs'. now apply IH2.
  - now rewrite IH1, IH2.
  - generalize (length s) at 1. intros n. revert s cs.
    induction n as [| n IHn]; intros s cs; cbn [greedy_loop]; [apply Hk |].
    rewrite IH; [apply Hk |]. intros s' cs'.
    destruct (length s' <? length s); [apply IHn | reflexivity].
  - apply IH. intros s' cs'. generalize (length s') at 1. intros n.
    revert s' cs'.
    induction n as [| n IHn]; intros s' cs'; cbn [greedy_loop];
      [apply Hk |].
    rewrite IH; [apply Hk |]. intros s'' cs''.
    destruct (length s'' <? length s'); [apply IHn | reflexivity].
  - apply IH. intros s' cs'. generalize (length s') at 1. intros n.
    revert s' cs'.
    induction n as [| n IHn]; intros s' cs'; cbn [lazy_loop]; rewrite Hk;
      [reflexivity |].
    apply IH. intros s'' cs''.
    destruct (length s'' <? length s'); [apply IHn | reflexivity].
  - apply IH. intros s' cs'. apply Hk.
Qed.

Lemma greedy_loop_bound {A : Type} (r : regex) (n : nat) :
  forall m s cs (k : @cont A),
    length s <= n -> length s <= m ->
    greedy_loop (rmatch r) n s cs k = greedy_loop (rmatch r) m s cs k.
Proof.
  assert (Z : forall m cs (k : @cont A),
             greedy_loop (rmatch r) m [] cs k = k [] cs).
  { intros [| m] cs k; cbn [greedy_loop]; [reflexivity |].
    now rewrite rmatch_fail by reflexivity. }
  induction n as [| n IH]; intros m s cs k Hn Hm.
  - destruct s; [| cbn in Hn; lia]. now rewrite Z.
  - destruct m as [| m].
    + destruct s; [| cbn in Hm; lia]. now rewrite Z.
    + cbn [greedy_loop]. erewrite rmatch_ext; [reflexivity |].
      intros s' cs' _. cbn beta.
      destruct (length s' <? length s) eqn:E; [| reflexivity].
      apply Nat.ltb_lt in E. apply IH; lia.
Qed.

Lemma lazy_loop_bound {A : Type} (r : regex) (n : nat) :
  forall m s cs (k : @cont A),
    length s <= n -> length s <= m ->
    lazy_loop (rmatch r) n s cs k = lazy_loop (rmatch r) m s cs k.
Proof.
  assert (Z : forall m cs (k : @cont A),
             lazy_loop (rmatch r) m [] cs k = k [] cs).
  { intros [| m] cs k; cbn [lazy_loop]; destruct (k [] cs);
      try reflexivity.
    now rewrite rmatch_fail by reflexivity. }
  induction n as [| n IH]; intros m s cs k Hn Hm.
  - destruct s; [| cbn in Hn; lia]. now rewrite !Z.
  - destruct m as [| m].
    + destruct s; [| cbn in Hm; lia]. now rewrite !Z.
    + cbn [lazy_loop]. destruct (k s cs); [reflexivity |].
      apply rmatch_ext. intros s' cs' _. cbn beta.
      destruct (length s' <? length s) eqn:E; [| reflexivity].
      apply Nat.ltb_lt in E. apply IH; lia.
Qed.

(** A match ends within the input. *)
Lemma search_within (r : regex) (s : gostring) :
  forall pos a b cs,
    search r pos s = Some (a, b, cs) ->
    pos <= a /\ b <= pos + length s.
Proof.
  induction s as [| x s IH]; intros pos a b cs H; cbn [search] in H.
  - destruct (exec r []) as [[s' cs'] |]; [| discriminate].
    injection H as <- <- _. cbn [length]. destruct (length s'); lia.
  - destruct (exec r (x :: s)) as [[s' cs'] |].
    + injection H as <- <- _. cbn [length]. destruct (length s'); lia.
    + apply IH in H. cbn [length]. lia.
Qed.

Lemma find_all_bound (r : regex) (n : nat) :
  forall m pos s,
    length s < n -> length s < m ->
    find_all r n pos s = find_all r m pos s.
Proof.
  induction n as [| n IH]; intros m pos s Hn Hm; [lia |].
  destruct m as [| m]; [lia |]. cbn [find_all].
  destruct (search r pos s) as [[[a b] cs] |] eqn:E; [| reflexivity].
  destruct (b <=? a) eqn:L; [reflexivity |]. f_equal.
  apply Nat.leb_gt in L. apply search_within in E.
  assert (length (skipn (b - pos) s) < length s)
    by (rewrite length_skipn; lia).
  apply IH; lia.
Qed.

Lemma space_width_le (s : gostring) : space_width s <= length s.
Proof.
  unfold space_width. destruct s as [| c s]; [reflexivity |].
  destruct (asciiSpace c); [cbn; lia |].
  match goal with
  | |- (if ?b then 2 else _) <= _ => destruct b eqn:E2
  end.
  { apply orb_true_iff in E2. destruct E2 as [E | E];
      apply HasPrefix_length in E; exact E. }
  match goal with
  | |- (if ?b then 3 else _) <= _ => destruct b eqn:E3
  end.
  { rewrite !orb_true_iff in E3. destruct E3 as [[E | E] | E];
      apply HasPrefix_length in E; exact E. }
  destruct (HasPrefix (c :: s) (bytes [226; 128])) eqn:E; [| lia].
  destruct s as [| y [| z s]]; cbn [skipn]; try lia.
  match goal with
  | |- (if ?b then 3 else 0) <= _ => destruct b
  end; cbn [length]; lia.
Qed.

Lemma trim_left_bound (n : nat) :
  forall m s, length s <= n -> length s <= m ->
              trim_left n s = trim_left m s.
Proof.
  induction n as [| n IH]; intros m s Hn Hm.
  - destruct s; [| cbn in Hn; lia]. now destruct m.
  - destruct m as [| m].
    + destruct s; [| cbn in Hm; lia]. reflexivity.
    + cbn [trim_left]. destruct (space_width s) eqn:E; [reflexivity |].
      apply IH; rewrite length_skipn; lia.
Qed.

Lemma space_width_last_le (rs : gostring) :
  space_width_last rs <= length rs.
Proof.
  unfold space_width_last. destruct rs as [| c rs]; [reflexivity |].
  destruct (asciiSpace c); [cbn; lia |].
  destruct (Nat.eqb_spec (space_width (rev (firstn 2 (c :: rs)))) 2)
    as [E | _].
  { rewrite <- E. etransitivity; [apply space_width_le |].
    rewrite length_rev, length_firstn. lia. }
  destruct (Nat.eqb_spec (space_width (rev (firstn 3 (c :: rs)))) 3)
    as [E | _]; [| lia].
  rewrite <- E. etransitivity; [apply space_width_le |].
  rewrite length_rev, length_firstn. lia.
Qed.

Lemma trim_right_bound (n : nat) :
  forall m rs, length rs <= n -> length rs <= m ->
               trim_right n rs = trim_right m rs.
Proof.
  induction n as [| n IH]; intros m rs Hn Hm.
  - destruct rs; [| cbn in Hn; lia]. now destruct m.
  - destruct m as [| m].
    + destruct rs; [| cbn in Hm; lia]. reflexivity.
    + cbn [trim_right]. destruct (space_width_last rs) eqn:E;
        [reflexivity |].
      apply IH; rewrite length_skipn; lia.
Qed.

(** A bound of [Part0.cleanupQuery] above the height of the tree gives its
    result, whatever the bound. *)
Lemma cleanup_fuel_bound (t : Part0.ParsedQuery) (n m : nat) :
  Part0.height t < n -> Part0.height t < m ->
  Part0.cleanup_fuel n t = Part0.cleanup_fuel m t.
Proof. intros Hn Hm. now rewrite !cleanupQuery_fuel. Qed.

Lemma is_suffix_length (s' s : gostring) :
  is_suffix s' s -> length s' <= length s.
Proof. intros [p ->]. rewrite length_app. lia. Qed.

(** A result of the matcher is a result of its continuation, on a suffix
    of the input that is shorter when the expression consumes. *)
Lemma rmatch_result {A : Type} (r : regex) :
  forall s cs (k : @cont A) a,
    rmatch r s cs k = Some a ->
    exists s' cs',
      is_suffix s' s /\ (consumes r = true -> length s' < length s)
      /\ k s' cs' = Some a.
Proof.
  assert (L : forall (body : @matcher A),
             (forall s cs k a, body s cs k = Some a ->
                exists s' cs', is_suffix s' s /\ k s' cs' = Some a) ->
             forall lazy fuel s cs k a,
               (if lazy : bool then lazy_loop body fuel s cs k
                else greedy_loop body fuel s cs k) = Some a ->
               exists s' cs', is_suffix s' s /\ k s' cs' = Some a).
  { intros body Hb lazy fuel.
    induction fuel as [| fuel IHf]; intros s cs k a H.
    - exists s, cs. split; [apply is_suffix_refl |].
      destruct lazy; cbn in H; [| exact H].
      destruct (k s cs); [exact H | discriminate].
    - destruct lazy.
      + cbn [lazy_loop] in H. destruct (k s cs) eqn:Ek.
        * exists s, cs. split; [apply is_suffix_refl | congruence].
        * apply Hb in H. destruct H as (s1 & cs1 & S1 & H).
          destruct (length s1 <? length s); [| discriminate].
          apply (IHf s1 cs1 k a) in H. destruct H as (s2 & cs2 & S2 & H).
          exists s2, cs2. split; [eapply is_suffix_trans; eauto | exact H].
      + cbn [greedy_loop] in H.
        destruct (body s cs _) eqn:Eb.
        * injection H as ->. apply Hb in Eb.
          destruct Eb as (s1 & cs1 & S1 & H).
          destruct (length s1 <? length s); [| discriminate].
          apply (IHf s1 cs1 k a) in H. destruct H as (s2 & cs2 & S2 & H).
          exists s2, cs2. split; [eapply is_suffix_trans; eauto | exact H].
        * exists s, cs. split; [apply is_suffix_refl | exact H]. }
  induction r as [c | p | r1 IH1 r2 IH2 | r1 IH1 r2 IH2 | r IH | r IH | r IH
                 | i r IH]; intros s cs k a H; cbn [rmatch consumes] in *.
  - destruct s as [| x s]; [discriminate |].
    destruct (Ascii.eqb x c); [| discriminate].
    exists s, cs. repeat split; [apply is_suffix_tail | cbn; lia | exact H].
  - destruct s as [| x s]; [discriminate |].
    destruct (p x); [| discriminate].
    exists s, cs. repeat split; [apply is_suffix_tail | cbn; lia | exact H].
  - apply IH1 in H. destruct H as (s1 & cs1 & S1 & C1 & H).
    apply IH2 in H. destruct H as (s2 & cs2 & S2 & C2 & H).
    exists s2, cs2. repeat split; [eapply is_suffix_trans; eauto | | exact H].
    intros Hc. apply orb_true_iff in Hc.
    apply is_suffix_length in S1, S2. destruct Hc as [Hc | Hc];
      [specialize (C1 Hc) | specialize (C2 Hc)]; lia.
  - destruct (rmatch r1 s cs k) eqn:E1.
    + injection H as ->. apply IH1 in E1.
      destruct E1 as (s1 & cs1 & S1 & C1 & H).
      exists s1, cs1. repeat split; auto. intros Hc.
      apply andb_true_iff in Hc. now apply C1.
    + apply IH2 in H. destruct H as (s1 & cs1 & S1 & C1 & H).
      exists s1, cs1. repeat split; auto. intros Hc.
      apply andb_true_iff in Hc. now apply C1.
  - apply (L (rmatch r)) with (lazy := false) in H.
    + destruct H as (s1 & cs1 & S1 & H). exists s1, cs1.
      repeat split; auto. discriminate.
    + intros s0 cs0 k0 a0 H0. apply IH in H0.
      destruct H0 as (s1 & cs1 & S1 & _ & H0). eauto.
  - apply IH in H. destruct H as (s1 & cs1 & S1 & C1 & H).
    apply (L (rmatch r)) with (lazy := false) in H.
    + destruct H as (s2 & cs2 & S2 & H). exists s2, cs2.
      repeat split; [eapply is_suffix_trans; eauto | | exact H].
      intros Hc. apply is_suffix_length in S2. specialize (C1 Hc). lia.
    + intros s0 cs0 k0 a0 H0. apply IH in H0.
      destruct H0 as (s3 & cs3 & S3 & _ & H0). eauto.
  - apply IH in H. destruct H as (s1 & cs1 & S1 & C1 & H).
    apply (L (rmatch r)) with (lazy := true) in H.
    + destruct H as (s2 & cs2 & S2 & H). exists s2, cs2.
      repeat split; [eapply is_suffix_trans; eauto | | exact H].
      intros Hc. apply is_suffix_length in S2. specialize (C1 Hc). lia.
    + intros s0 cs0 k0 a0 H0. apply IH in H0.
      destruct H0 as (s3 & cs3 & S3 & _ & H0). eauto.
  - apply IH in H. destruct H as (s1 & cs1 & S1 & C1 & H).
    exists s1, ((i, (s, s1)) :: cs1). repeat split; auto.
Qed.

Lemma search_cons (r : regex) (pos : nat) (x : ascii) (s : gostring) :
  search r pos (x :: s)
  = match exec r (x :: s) with
    | Some (s', cs) => Some (pos, pos + (length (x :: s) - length s'), cs)
    | None => search r (S pos) s
    end.
Proof. reflexivity. Qed.

(** The expressions of the scan match one byte at least, so that the
    enumeration of the matches never meets an empty match. *)
Lemma search_nonempty (r : regex) (s : gostring) :
  consumes r = true ->
  forall pos a b cs, search r pos s = Some (a, b, cs) -> (b <=? a) = false.
Proof.
  intros Hc. induction s as [| x s IH]; intros pos a b cs H.
  - cbn [search] in H. destruct (exec r []) as [[s' cs'] |] eqn:E;
      [| discriminate].
    unfold exec in E. apply rmatch_result in E.
    destruct E as (s1 & cs1 & _ & C & _). specialize (C Hc). cbn in C. lia.
  - rewrite search_cons in H.
    destruct (exec r (x :: s)) as [[s' cs'] |] eqn:E.
    + unfold exec in E. apply rmatch_result in E.
      destruct E as (s1 & cs1 & _ & C & E). specialize (C Hc).
      injection E as -> _. injection H as <- <- _.
      apply Nat.leb_gt. cbn [length] in C. destruct (length s'); lia.
    + now apply IH in H.
Qed.

Lemma scan_expressions_consume :
  consumes (token_regex MainGo.quoted_value) = true
  /\ consumes (token_regex Part0.quoted_value) = true
  /\ consumes (field_call MainGo.quoted_value) = true
  /\ consumes (field_call Part0.escaped_value) = true.
Proof. repeat split. Qed.

(** * Further properties of the code *)

Import Terms GoPath FileLoop Binary.

(** ** The terms of a tree through the normalizers *)

Lemma empty_leaves (t : Part0.ParsedQuery) :
  Part0.isEmptyQuery (Some t) = true -> leaves t = [].
Proof.
  destruct t as [[| a aa] [| o oo] [| n nn] [f |]]; try discriminate.
  reflexivity.
Qed.

Lemma clean_bucket_terms
    (f : Part0.ParsedQuery -> option (option Part0.ParsedQuery))
    (l l' : list Part0.ParsedQuery) :
  (forall x r, f x = Some r -> result_leaves r = leaves x) ->
  Part0.clean_bucket f l = Some l' ->
  flat_map leaves l' = flat_map leaves l.
Proof.
  intros Hf. revert l'. induction l as [| x l IH]; simpl; intros l' H.
  - now injection H as <-.
  - destruct (f x) as [r |] eqn:Fx; [| discriminate].
    destruct (Part0.clean_bucket f l) as [rest |];
      [| destruct r; discriminate].
    specialize (IH rest eq_refl). specialize (Hf x r Fx).
    destruct r as [c |]; simpl in Hf.
    + destruct (Part0.isEmptyQuery (Some c)) eqn:E; injection H as <-.
      * rewrite <- Hf, (empty_leaves c E). exact IH.
      * simpl. now rewrite Hf, IH.
    + injection H as <-. now rewrite <- Hf.
Qed.

Lemma wrapper_leaves (t c : Part0.ParsedQuery) :
  single_child_wrapper t = true ->
  In c (Part0.AND t ++ Part0.OR t ++ Part0.AND_NOT t) ->
  leaves t = leaves c.
Proof.
  unfold single_child_wrapper. destruct t as [a o n [f |]]; [discriminate |].
  cbn. intros H Hin.
  destruct a as [| x [| x' a]]; destruct o as [| y [| y' o]];
    destruct n as [| z [| z' n]]; cbn in H; try discriminate;
    rewrite ?Nat.add_succ_r in H; try discriminate;
    cbn in Hin; destruct Hin as [<- | []]; cbn; now rewrite ?app_nil_r.
Qed.

Lemma cleanup_fuel_leaves (n : nat) :
  forall t r, Part0.cleanup_fuel n t = Some r -> result_leaves r = leaves t.
Proof.
  induction n as [| n IH]; intros t r H; [discriminate |]. simpl in H.
  destruct (cleanup_body_cases _ _ _ H)
    as (cA & cO & cN & EA & EO & EN & Hc).
  assert (L : leaves (Part0.mkQuery cA cO cN (Part0.Field_ t)) = leaves t).
  { destruct t as [a o nn f]. cbn in *.
    now rewrite (clean_bucket_terms _ _ _ IH EA),
      (clean_bucket_terms _ _ _ IH EO), (clean_bucket_terms _ _ _ IH EN). }
  destruct Hc as [[E ->] | [[W [c [Hin Fc]]] | [_ [_ ->]]]].
  - rewrite <- L. symmetry. now apply empty_leaves.
  - rewrite (IH _ _ Fc), <- L. symmetry. now apply wrapper_leaves.
  - exact L.
Qed.

Lemma cleanupQuery_leaves (t : Part0.ParsedQuery) :
  result_leaves (Part0.cleanupQuery (Some t)) = leaves t.
Proof.
  apply (cleanup_fuel_leaves (S (Part0.height t))).
  apply cleanupQuery_fuel. lia.
Qed.

(** X1: the normalizer of part_000 keeps the terms of a tree, each once and
    in their order; on nil it returns nil. *)
Theorem X1_part0_cleanup_keeps_terms (query : option Part0.ParsedQuery) :
  result_leaves (Part0.cleanupQuery query) = result_leaves query.
Proof.
  destruct query as [t |]; [apply cleanupQuery_leaves | reflexivity].
Qed.

Lemma cleanup_fuel_nodes (n : nat) :
  forall t c, Part0.cleanup_fuel n t = Some (Some c) ->
              every_node nonempty c = true.
Proof.
  induction n as [| n IH]; intros t c H; [discriminate |]. simpl in H.
  destruct (cleanup_body_cases _ _ _ H)
    as (cA & cO & cN & EA & EO & EN & [[_ E] | [[_ [x [_ Fx]]] | [NE [_ E]]]]).
  - discriminate.
  - eapply IH; eassumption.
  - injection E as ->.
    assert (K : forall l l',
              Part0.clean_bucket (Part0.cleanup_fuel n) l = Some l' ->
              forallb (every_node nonempty) l' = true).
    { intros l l' Hl. apply clean_bucket_kept in Hl. apply forallb_forall.
      rewrite Forall_forall in Hl. intros y Hy.
      destruct (Hl y Hy) as [_ [x [_ Fx]]]. eapply IH; eassumption. }
    cbn [every_node Part0.AND Part0.OR Part0.AND_NOT].
    rewrite (K _ _ EA), (K _ _ EO), (K _ _ EN). unfold nonempty.
    now rewrite NE.
Qed.

Lemma cleanupQuery_nodes (t c : Part0.ParsedQuery) :
  Part0.cleanupQuery (Some t) = Some c -> every_node nonempty c = true.
Proof.
  intros H. apply (cleanup_fuel_nodes (S (Part0.height t)) t).
  rewrite cleanupQuery_fuel by lia. now rewrite H.
Qed.

(** X2: no node of a tree the normalizer of part_000 returns is empty:
    every node has a leaf or a child. *)
Theorem X2_part0_cleanup_no_empty_node (t c : Part0.ParsedQuery) :
  Part0.cleanupQuery (Some t) = Some c -> every_node nonempty c = true.
Proof. apply cleanupQuery_nodes. Qed.

Lemma X2_part0_cleanup_no_empty_node_witness :
  Part0.cleanupQuery
    (Some (Part0.mkQuery [Part0.emptyQuery; tree_a_b] [Part0.emptyQuery] []
                         None))
  = Some tree_a_b
  /\ every_node nonempty tree_a_b = true.
Proof.
  split; [reflexivity |].
  apply (X2_part0_cleanup_no_empty_node
           (Part0.mkQuery [Part0.emptyQuery; tree_a_b] [Part0.emptyQuery] []
                          None)).
  reflexivity.
Defined.

Lemma nodes_have_terms (n : nat) :
  forall t, Part0.height t < n -> every_node nonempty t = true ->
            leaves t <> [].
Proof.
  induction n as [| n IH]; intros t Hn H; [lia |].
  assert (K : forall l, (forall c, In c l -> Part0.height c < n) ->
                        forallb (every_node nonempty) l = true ->
                        l <> [] -> flat_map leaves l <> []).
  { intros [| c l] Hh Hl Hne; [contradiction |]. cbn in *.
    apply andb_true_iff in Hl. destruct Hl as [Hc _].
    intros E. apply app_eq_nil in E. destruct E as [E _].
    revert E. apply IH; auto. }
  assert (Hh : forall c, In c (Part0.AND t) \/ In c (Part0.OR t)
                         \/ In c (Part0.AND_NOT t) -> Part0.height c < n).
  { intros c Hc. apply height_children in Hc. lia. }
  destruct t as [a o nn f]. cbn [every_node] in H.
  cbn [Part0.AND Part0.OR Part0.AND_NOT] in *.
  apply andb_true_iff in H. destruct H as [H HN].
  apply andb_true_iff in H. destruct H as [H HO].
  apply andb_true_iff in H. destruct H as [NE HA].
  cbn. destruct f as [f |]; [discriminate |]. cbn.
  intros E. apply app_eq_nil in E. destruct E as [E1 E].
  apply app_eq_nil in E. destruct E as [E2 E3].
  destruct a as [| x a]; [| revert E1; apply K; auto; discriminate].
  destruct o as [| y o]; [| revert E2; apply K; auto; discriminate].
  destruct nn as [| z nn]; [| revert E3; apply K; auto; discriminate].
  discriminate.
Qed.

Lemma cleanupQuery_nil_iff (t : Part0.ParsedQuery) :
  Part0.cleanupQuery (Some t) = None <-> leaves t = [].
Proof.
  pose proof (cleanupQuery_leaves t) as L. split; intros H.
  - now rewrite H in L.
  - destruct (Part0.cleanupQuery (Some t)) as [c |] eqn:E; [| reflexivity].
    exfalso. cbn in L. rewrite H in L.
    apply (nodes_have_terms (S (Part0.height c)) c); [lia | | exact L].
    now apply (cleanupQuery_nodes t).
Qed.

(** X3: the normalizer of part_000 returns nil exactly for the trees that
    hold no term, however many empty groups they nest. *)
Theorem X3_part0_cleanup_nil_iff_no_term (t : Part0.ParsedQuery) :
  Part0.cleanupQuery (Some t) = None <-> leaves t = [].
Proof. apply cleanupQuery_nil_iff. Qed.

(** ** The same, for the normalizer of [main.go] *)

Lemma main_empty_leaves (t : MainGo.ParsedQuery) :
  MainGo.isEmptyQuery (Some t) = true -> main_leaves t = [].
Proof.
  destruct t as [[| a aa] [| o oo] [| n nn] [f |]]; try discriminate.
  reflexivity.
Qed.

Lemma main_clean_items_terms (l : list MainGo.Item) :
  Forall (item_holds
            (fun t => main_leaves (MainGo.cleanup t) = main_leaves t)) l ->
  flat_map (item_leaves main_leaves) (MainGo.clean_items MainGo.cleanup l)
  = flat_map (item_leaves main_leaves) l.
Proof.
  induction 1 as [| it l Hit _ IH]; [reflexivity |].
  destruct it as [s | [s |] | fl |];
    cbn [MainGo.clean_items item_holds flat_map item_leaves] in *;
    try exact IH.
  - destruct (MainGo.isEmptyQuery (Some (MainGo.cleanup s))) eqn:E.
    + rewrite <- Hit, (main_empty_leaves _ E). exact IH.
    + cbn [flat_map item_leaves]. now rewrite Hit, IH.
  - destruct (MainGo.isEmptyQuery (Some (MainGo.cleanup s))) eqn:E.
    + rewrite <- Hit, (main_empty_leaves _ E). exact IH.
    + cbn [flat_map item_leaves]. now rewrite Hit, IH.
  - now rewrite IH.
Qed.

Lemma main_cleanup_leaves (t : MainGo.ParsedQuery) :
  main_leaves (MainGo.cleanup t) = main_leaves t.
Proof.
  induction t as [a o n f Ha Ho Hn] using ParsedQuery_nested_ind.
  unfold MainGo.cleanup; fold MainGo.cleanup. cbn [main_leaves].
  now rewrite !main_clean_items_terms.
Qed.

(** X4: the normalizer of [main.go] keeps the terms of a tree, each once
    and in their order, a bare [Field] element counting for its term. *)
Theorem X4_main_cleanup_keeps_terms (query : option MainGo.ParsedQuery) :
  main_result_leaves (MainGo.cleanupQuery query) = main_result_leaves query.
Proof.
  destruct query as [t |]; [apply main_cleanup_leaves | reflexivity].
Qed.

Lemma main_clean_items_normal (l : list MainGo.Item) :
  Forall (item_holds (fun t => main_normal (MainGo.cleanup t) = true)) l ->
  forallb (item_normal main_normal) (MainGo.clean_items MainGo.cleanup l)
  = true.
Proof.
  induction 1 as [| it l Hit _ IH]; [reflexivity |].
  destruct it as [s | [s |] | fl |];
    cbn [MainGo.clean_items item_holds] in *; try exact IH.
  - destruct (MainGo.isEmptyQuery (Some (MainGo.cleanup s))) eqn:E;
      [exact IH |].
    cbn [forallb item_normal]. now rewrite E, Hit, IH.
  - destruct (MainGo.isEmptyQuery (Some (MainGo.cleanup s))) eqn:E;
      [exact IH |].
    cbn [forallb item_normal]. now rewrite E, Hit, IH.
Qed.

Lemma main_cleanup_normal (t : MainGo.ParsedQuery) :
  main_normal (MainGo.cleanup t) = true.
Proof.
  induction t as [a o n f Ha Ho Hn] using ParsedQuery_nested_ind.
  unfold MainGo.cleanup; fold MainGo.cleanup. cbn [main_normal].
  now rewrite !main_clean_items_normal.
Qed.

(** X5: in a tree the normalizer of [main.go] returns, every element of
    every bucket is a [ParsedQuery] value that is not empty: pointers, bare
    [Field]s and foreign values are gone, at every level.  (Only the root
    may be empty.) *)
Theorem X5_main_cleanup_normal (t : MainGo.ParsedQuery) :
  main_normal (MainGo.cleanup t) = true.
Proof. apply main_cleanup_normal. Qed.

Lemma main_normal_terms (t : MainGo.ParsedQuery) :
  main_normal t = true -> MainGo.isEmptyQuery (Some t) = false ->
  main_leaves t <> [].
Proof.
  induction t as [a o n f Ha Ho Hn] using ParsedQuery_nested_ind.
  assert (K : forall l,
            Forall (item_holds
              (fun t => main_normal t = true ->
                        MainGo.isEmptyQuery (Some t) = false ->
                        main_leaves t <> [])) l ->
            forallb (item_normal main_normal) l = true -> l <> [] ->
            flat_map (item_leaves main_leaves) l <> []).
  { intros l Hl Hn' Hne. destruct l as [| it l]; [contradiction |].
    inversion Hl as [| ? ? Hit _]; subst. cbn in Hn'.
    apply andb_true_iff in Hn'. destruct Hn' as [Hi _].
    destruct it as [s | [s |] | fl |]; try discriminate.
    cbn in *. apply andb_true_iff in Hi. destruct Hi as [E N].
    apply negb_true_iff in E. intros E'. apply app_eq_nil in E'.
    destruct E' as [E' _]. revert E'. now apply Hit. }
  cbn [main_normal]. intros H NE.
  apply andb_true_iff in H. destruct H as [H HN].
  apply andb_true_iff in H. destruct H as [HA HO].
  cbn [main_leaves]. destruct f as [f |]; [discriminate |]. cbn.
  intros E. apply app_eq_nil in E. destruct E as [E1 E].
  apply app_eq_nil in E. destruct E as [E2 E3].
  destruct a as [| x a]; [| revert E1; apply K; auto; discriminate].
  destruct o as [| y o]; [| revert E2; apply K; auto; discriminate].
  destruct n as [| z n]; [| revert E3; apply K; auto; discriminate].
  discriminate.
Qed.

Lemma main_cleanup_empty_iff (t : MainGo.ParsedQuery) :
  MainGo.isEmptyQuery (Some (MainGo.cleanup t)) = true <-> main_leaves t = [].
Proof.
  rewrite <- (main_cleanup_leaves t). split; intros H.
  - now apply main_empty_leaves.
  - destruct (MainGo.isEmptyQuery (Some (MainGo.cleanup t))) eqn:E;
      [reflexivity |].
    exfalso. revert H. apply main_normal_terms; [| exact E].
    apply main_cleanup_normal.
Qed.

(** X6: the normalizer of [main.go] returns an empty node exactly for the
    trees that hold no term. *)
Theorem X6_main_cleanup_empty_iff_no_term (t : MainGo.ParsedQuery) :
  MainGo.isEmptyQuery (MainGo.cleanupQuery (Some t)) = true
  <-> main_leaves t = [].
Proof. apply main_cleanup_empty_iff. Qed.


(** ** The terms of a token sequence through the parsers *)

(** A list with [x] in the middle against the list with [x] at the end. *)
Ltac perm_end :=
  rewrite <- ?app_assoc; repeat apply Permutation_app_head;
  first [ reflexivity
        | apply Permutation_app_comm
        | etransitivity;
          [apply Permutation_app_comm | rewrite <- ?app_assoc; reflexivity] ].

Lemma part0_attach_leaves (item : Part0.StackItem) (c : Part0.ParsedQuery) :
  is_operator (Part0.operator item) = true ->
  Permutation (leaves (Part0.query (Part0.attach item c)))
              (leaves (Part0.query item) ++ leaves c).
Proof.
  intros H. destruct item as [[a o n f] op]. cbn in H.
  destruct (is_operator_cases op H) as [-> | [-> | ->]]; cbn;
    rewrite flat_map_app; cbn; rewrite app_nil_r; perm_end.
Qed.

Lemma part0_attach_operator (item : Part0.StackItem) (c : Part0.ParsedQuery) :
  Part0.operator (Part0.attach item c) = Part0.operator item.
Proof.
  unfold Part0.attach.
  repeat match goal with |- context [if ?b then _ else _] => destruct b end;
    reflexivity.
Qed.

Lemma token_fields_other (token : Token) :
  (Type_ token =? TokenField)%Z = false -> token_fields token = [].
Proof. unfold token_fields. now intros ->. Qed.

Lemma part0_step_terms (st : Part0.state) (token : Token) :
  operators_set st ->
  operators_set (Part0.parse_step st token)
  /\ Permutation (state_leaves (Part0.parse_step st token))
                 (state_leaves st ++ token_fields token).
Proof.
  destruct st as [stack current]. intros [HS HC]. cbn [fst snd] in *.
  unfold Part0.parse_step.
  destruct (Type_ token =? TokenField)%Z eqn:E0.
  { unfold token_fields. rewrite E0.
    destruct (Split (Value token) ":") as [| p0 [| p1 [| p2 ps]]];
      try (split; [now split | now rewrite app_nil_r]).
    split.
    - split; [exact HS |]. cbn [snd]. now rewrite part0_attach_operator.
    - unfold state_leaves. cbn [fst snd]. rewrite <- app_assoc.
      apply Permutation_app_head.
      now apply (part0_attach_leaves current
                   (Part0.mkQuery [] [] [] (Some (mkField p0 p1)))). }
  rewrite (token_fields_other _ E0), app_nil_r.
  destruct (is_operator (Type_ token)) eqn:E1.
  { split; [now split | reflexivity]. }
  destruct (Type_ token =? TokenOpenParen)%Z.
  { split.
    - split; [now constructor | reflexivity].
    - unfold state_leaves. cbn. rewrite app_nil_r.
      apply Permutation_app_comm. }
  destruct (Type_ token =? TokenCloseParen)%Z;
    [| split; [now split | reflexivity]].
  destruct stack as [| parent stack']; [split; [now split | reflexivity] |].
  inversion HS as [| ? ? HP HS']; subst.
  pose proof (cleanupQuery_leaves (Part0.query current)) as L.
  assert (P0 : Permutation
                 (state_leaves (stack', parent))
                 (flat_map (fun item => leaves (Part0.query item)) stack'
                  ++ leaves (Part0.query parent))) by reflexivity.
  assert (P1 : Permutation
                 (flat_map (fun item => leaves (Part0.query item)) stack'
                  ++ leaves (Part0.query parent)
                  ++ leaves (Part0.query current))
                 (state_leaves (parent :: stack', current))).
  { unfold state_leaves. cbn. rewrite !app_assoc.
    apply Permutation_app_tail, Permutation_app_comm. }
  destruct (Part0.cleanupQuery (Some (Part0.query current))) as [c |];
    cbn in L.
  - destruct (Part0.isEmptyQuery (Some c)) eqn:E.
    + split; [now split |]. rewrite <- P1, <- L, (empty_leaves c E).
      now rewrite app_nil_r.
    + split.
      * split; [exact HS' |]. cbn [snd]. now rewrite part0_attach_operator.
      * rewrite <- P1, <- L. unfold state_leaves. cbn [fst snd].
        apply Permutation_app_head. now apply part0_attach_leaves.
  - split; [now split |]. rewrite <- P1, <- L. now rewrite app_nil_r.
Qed.

Lemma part0_loop_terms (tokens : list Token) :
  forall st, operators_set st ->
  Permutation (state_leaves (Part0.parse_loop tokens st))
              (state_leaves st ++ fields_of tokens).
Proof.
  induction tokens as [| token tokens IH]; intros st H.
  - cbn. now rewrite app_nil_r.
  - unfold Part0.parse_loop in *. cbn [fold_left fields_of flat_map].
    destruct (part0_step_terms st token H) as [H' P].
    rewrite (IH _ H'). fold (fields_of tokens).
    rewrite app_assoc. now apply Permutation_app_tail.
Qed.

Lemma part0_loop_depth (tokens : list Token) :
  forall stack current,
    length (fst (Part0.parse_loop tokens (stack, current)))
    = open_groups (length stack) tokens.
Proof.
  induction tokens as [| token tokens IH]; intros stack current;
    [reflexivity |].
  unfold Part0.parse_loop in *. cbn [fold_left open_groups].
  pose proof (part0_step_depth stack current token) as D.
  destruct (Part0.parse_step (stack, current) token) as [stack1 current1].
  cbn [fst] in D. rewrite IH, D.
  destruct (Type_ token =? TokenOpenParen)%Z; [reflexivity |].
  now destruct (Type_ token =? TokenCloseParen)%Z.
Qed.

Lemma part0_init_set : operators_set ([], Part0.freshItem).
Proof. split; [constructor | reflexivity]. Qed.

Lemma part0_parse_terms (tokens : list Token) :
  open_groups 0 tokens = 0 ->
  Permutation (result_leaves (Part0.parseTokens tokens)) (fields_of tokens).
Proof.
  intros H. unfold Part0.parseTokens. rewrite cleanupQuery_leaves.
  pose proof (part0_loop_terms tokens _ part0_init_set) as P.
  pose proof (part0_loop_depth tokens [] Part0.freshItem) as D.
  cbn [length] in D. rewrite H in D. apply length_zero_iff_nil in D.
  unfold state_leaves in P. rewrite D in P. exact P.
Qed.

Lemma part0_parse_sub (tokens : list Token) (f : Field) :
  In f (result_leaves (Part0.parseTokens tokens)) -> In f (fields_of tokens).
Proof.
  intros H. unfold Part0.parseTokens in H. rewrite cleanupQuery_leaves in H.
  pose proof (part0_loop_terms tokens _ part0_init_set) as P.
  apply (Permutation_in f) in P; [exact P |].
  unfold state_leaves. apply in_or_app. now right.
Qed.

(** X7: in part_000, when every group the tokens open is closed, the terms
    of the tree [parseTokens] returns are the well-formed [Field] tokens,
    each exactly once. *)
Theorem X7_part0_parse_keeps_terms (tokens : list Token) :
  open_groups 0 tokens = 0 ->
  Permutation (result_leaves (Part0.parseTokens tokens)) (fields_of tokens).
Proof. apply part0_parse_terms. Qed.

Lemma X7_part0_parse_keeps_terms_witness :
  open_groups 0 (Part0.tokenize line_survey) = 0
  /\ Permutation
       (result_leaves (Part0.parseTokens (Part0.tokenize line_survey)))
       (fields_of (Part0.tokenize line_survey)).
Proof.
  split; [reflexivity |].
  apply (X7_part0_parse_keeps_terms (Part0.tokenize line_survey)).
  reflexivity.
Defined.

(** X8: in part_000, whatever the tokens, every term of the tree
    [parseTokens] returns is a well-formed [Field] token of the input. *)
Theorem X8_part0_parse_invents_no_term (tokens : list Token) (f : Field) :
  In f (result_leaves (Part0.parseTokens tokens)) -> In f (fields_of tokens).
Proof. apply part0_parse_sub. Qed.

Lemma X8_part0_parse_invents_no_term_witness :
  In (mkField (lit "TITLE") (lit "b"))
     (result_leaves (Part0.parseTokens [tok_title "a"; tok_or; tok_title "b"]))
  /\ In (mkField (lit "TITLE") (lit "b"))
        (fields_of [tok_title "a"; tok_or; tok_title "b"]).
Proof.
  assert (H : In (mkField (lit "TITLE") (lit "b"))
                (result_leaves
                   (Part0.parseTokens [tok_title "a"; tok_or; tok_title "b"])))
    by (right; left; reflexivity).
  split; [exact H |].
  exact (X8_part0_parse_invents_no_term
           [tok_title "a"; tok_or; tok_title "b"] _ H).
Defined.

(** The same for [main.go]. *)

Lemma main_attach_leaves (op : Z) (g c : MainGo.ParsedQuery) :
  Permutation (main_leaves (MainGo.attach op g c))
              (main_leaves g ++ main_leaves c).
Proof.
  destruct g as [a o n f]. unfold MainGo.attach.
  cbn [MainGo.AND MainGo.OR MainGo.AND_NOT MainGo.Field_].
  destruct (op =? TokenOR)%Z; [| destruct (op =? TokenANDNOT)%Z];
    cbn [main_leaves]; rewrite flat_map_app; cbn [flat_map item_leaves];
    rewrite app_nil_r; perm_end.
Qed.

Lemma main_step_terms (st : MainGo.state) (token : Token) :
  Permutation (main_state_leaves (MainGo.parse_step st token))
              (main_state_leaves st ++ token_fields token).
Proof.
  destruct st as [stack g op]. unfold MainGo.parse_step.
  cbn [MainGo.stack MainGo.currentGroup MainGo.currentOperator].
  destruct (Type_ token =? TokenField)%Z eqn:E0.
  { unfold token_fields. rewrite E0.
    destruct (Split (Value token) ":") as [| p0 [| p1 [| p2 ps]]];
      try (now rewrite app_nil_r).
    unfold main_state_leaves.
    cbn [MainGo.stack MainGo.currentGroup main_result_leaves].
    rewrite <- app_assoc. apply Permutation_app_head.
    rewrite main_attach_leaves. now destruct g. }
  rewrite (token_fields_other _ E0), app_nil_r.
  destruct (is_operator (Type_ token)); [reflexivity |].
  destruct (Type_ token =? TokenOpenParen)%Z.
  { destruct g as [g |]; [| reflexivity].
    unfold main_state_leaves. cbn. rewrite app_nil_r.
    apply Permutation_app_comm. }
  destruct (Type_ token =? TokenCloseParen)%Z; [| reflexivity].
  destruct stack as [| parent stack']; [reflexivity |].
  destruct g as [g |]; [| reflexivity].
  assert (P1 : Permutation
                 (flat_map main_leaves stack' ++ main_leaves parent
                  ++ main_leaves g)
                 (main_state_leaves
                    (MainGo.mkState (parent :: stack') (Some g) op))).
  { unfold main_state_leaves. cbn. rewrite !app_assoc.
    apply Permutation_app_tail, Permutation_app_comm. }
  cbn [MainGo.cleanupQuery].
  destruct (MainGo.isEmptyQuery (Some (MainGo.cleanup g))) eqn:E.
  - rewrite <- P1. apply main_cleanup_empty_iff in E. rewrite E.
    now rewrite app_nil_r.
  - rewrite <- P1. unfold main_state_leaves.
    cbn [MainGo.stack MainGo.currentGroup main_result_leaves].
    apply Permutation_app_head.
    now rewrite main_attach_leaves, main_cleanup_leaves.
Qed.

Lemma main_loop_terms (tokens : list Token) :
  forall st,
  Permutation (main_state_leaves (MainGo.parse_loop tokens st))
              (main_state_leaves st ++ fields_of tokens).
Proof.
  induction tokens as [| token tokens IH]; intros st.
  - cbn. now rewrite app_nil_r.
  - unfold MainGo.parse_loop in *. cbn [fold_left fields_of flat_map].
    rewrite IH. fold (fields_of tokens). rewrite app_assoc.
    apply Permutation_app_tail, main_step_terms.
Qed.

Lemma open_groups_le (tokens : list Token) :
  forall d d', d <= d' -> open_groups d tokens <= open_groups d' tokens.
Proof.
  induction tokens as [| token tokens IH]; intros d d' H; [exact H |].
  cbn [open_groups].
  destruct (Type_ token =? TokenOpenParen)%Z; [apply IH; lia |].
  destruct (Type_ token =? TokenCloseParen)%Z; apply IH; lia.
Qed.

(** In [main.go] a group is on the stack only while [currentGroup] is not
    nil; the stack is then no deeper than the groups open. *)
Lemma main_step_depth (st : MainGo.state) (token : Token) :
  (MainGo.currentGroup st = None -> MainGo.stack st = []) ->
  (MainGo.currentGroup (MainGo.parse_step st token) = None ->
   MainGo.stack (MainGo.parse_step st token) = [])
  /\ length (MainGo.stack (MainGo.parse_step st token))
     <= if (Type_ token =? TokenOpenParen)%Z
        then S (length (MainGo.stack st))
        else if (Type_ token =? TokenCloseParen)%Z
        then pred (length (MainGo.stack st))
        else length (MainGo.stack st).
Proof.
  destruct st as [stack g op]. unfold MainGo.parse_step, is_operator.
  cbn [MainGo.stack MainGo.currentGroup MainGo.currentOperator].
  intros W.
  destruct (Type_ token =? TokenField)%Z eqn:E0.
  { apply Z.eqb_eq in E0. rewrite E0. cbn.
    destruct (Split (Value token) ":") as [| p0 [| p1 [| p2 ps]]];
      cbn; (split; [first [exact W | discriminate] | lia]). }
  destruct (Type_ token =? TokenOR)%Z eqn:E1.
  { apply Z.eqb_eq in E1. rewrite E1. cbn. split; [exact W | lia]. }
  destruct (Type_ token =? TokenAND)%Z eqn:E2.
  { apply Z.eqb_eq in E2. rewrite E2. cbn. split; [exact W | lia]. }
  destruct (Type_ token =? TokenANDNOT)%Z eqn:E3.
  { apply Z.eqb_eq in E3. rewrite E3. cbn. split; [exact W | lia]. }
  cbn [orb].
  destruct (Type_ token =? TokenOpenParen)%Z.
  { destruct g; cbn; (split; [discriminate | lia]). }
  destruct (Type_ token =? TokenCloseParen)%Z;
    [| cbn; split; [exact W | lia]].
  destruct stack as [| parent stack']; [cbn; split; [exact W | lia] |].
  destruct g as [g |]; [| discriminate (W eq_refl)].
  cbn [MainGo.cleanupQuery].
  destruct (MainGo.isEmptyQuery (Some (MainGo.cleanup g))); cbn;
    (split; [discriminate | lia]).
Qed.

Lemma main_loop_depth (tokens : list Token) :
  forall st,
    (MainGo.currentGroup st = None -> MainGo.stack st = []) ->
    length (MainGo.stack (MainGo.parse_loop tokens st))
    <= open_groups (length (MainGo.stack st)) tokens.
Proof.
  induction tokens as [| token tokens IH]; intros st W; [apply le_n |].
  unfold MainGo.parse_loop in *. cbn [fold_left open_groups].
  destruct (main_step_depth st token W) as [W' D].
  etransitivity; [apply (IH _ W') |].
  destruct (Type_ token =? TokenOpenParen)%Z; [now apply open_groups_le |].
  destruct (Type_ token =? TokenCloseParen)%Z; now apply open_groups_le.
Qed.

Lemma main_init_depth (tokens : list Token) :
  length (MainGo.stack
            (MainGo.parse_loop tokens (MainGo.mkState [] None TokenAND)))
  <= open_groups 0 tokens.
Proof. now apply (main_loop_depth tokens (MainGo.mkState [] None TokenAND)). Qed.

Lemma main_parse_terms (tokens : list Token) :
  open_groups 0 tokens = 0 ->
  Permutation (main_result_leaves (MainGo.parseTokens tokens))
              (fields_of tokens).
Proof.
  intros H. unfold MainGo.parseTokens.
  pose proof (main_loop_terms tokens (MainGo.mkState [] None TokenAND)) as P.
  pose proof (main_init_depth tokens) as D. rewrite H in D.
  unfold main_state_leaves in P.
  destruct (MainGo.parse_loop tokens (MainGo.mkState [] None TokenAND))
    as [stack g op].
  cbn [MainGo.stack MainGo.currentGroup] in *.
  destruct stack; [| cbn in D; lia]. cbn in P.
  destruct g as [g |]; [| exact P]. cbn in *.
  now rewrite main_cleanup_leaves.
Qed.

Lemma main_parse_sub (tokens : list Token) (f : Field) :
  In f (main_result_leaves (MainGo.parseTokens tokens)) ->
  In f (fields_of tokens).
Proof.
  intros H. unfold MainGo.parseTokens in H.
  pose proof (main_loop_terms tokens (MainGo.mkState [] None TokenAND)) as P.
  apply (Permutation_in f) in P; [exact P |].
  unfold main_state_leaves. apply in_or_app. right.
  destruct (MainGo.currentGroup _) as [g |]; [| exact H].
  cbn in *. now rewrite main_cleanup_leaves in H.
Qed.

(** X9: in [main.go], when every group the tokens open is closed, the terms
    of the tree [parseTokens] returns are the well-formed [Field] tokens,
    each exactly once. *)
Theorem X9_main_parse_keeps_terms (tokens : list Token) :
  open_groups 0 tokens = 0 ->
  Permutation (main_result_leaves (MainGo.parseTokens tokens))
              (fields_of tokens).
Proof. apply main_parse_terms. Qed.

Lemma X9_main_parse_keeps_terms_witness :
  open_groups 0 (MainGo.tokenize line_survey) = 0
  /\ Permutation
       (main_result_leaves (MainGo.parseTokens (MainGo.tokenize line_survey)))
       (fields_of (MainGo.tokenize line_survey)).
Proof.
  split; [reflexivity |].
  apply (X9_main_parse_keeps_terms (MainGo.tokenize line_survey)).
  reflexivity.
Defined.

(** X10: in [main.go], whatever the tokens, every term of the tree
    [parseTokens] returns is a well-formed [Field] token of the input. *)
Theorem X10_main_parse_invents_no_term (tokens : list Token) (f : Field) :
  In f (main_result_leaves (MainGo.parseTokens tokens)) ->
  In f (fields_of tokens).
Proof. apply main_parse_sub. Qed.

Lemma X10_main_parse_invents_no_term_witness :
  In (mkField (lit "TITLE") (lit "b"))
     (main_result_leaves
        (MainGo.parseTokens [tok_title "a"; tok_or; tok_title "b"]))
  /\ In (mkField (lit "TITLE") (lit "b"))
        (fields_of [tok_title "a"; tok_or; tok_title "b"]).
Proof.
  assert (H : In (mkField (lit "TITLE") (lit "b"))
                (main_result_leaves
                   (MainGo.parseTokens
                      [tok_title "a"; tok_or; tok_title "b"])))
    by (right; left; reflexivity).
  split; [exact H |].
  exact (X10_main_parse_invents_no_term
           [tok_title "a"; tok_or; tok_title "b"] _ H).
Defined.


(** ** When [processQuery] fails *)

Lemma part0_parse_nil_iff (tokens : list Token) :
  open_groups 0 tokens = 0 ->
  Part0.isEmptyQuery (Part0.parseTokens tokens) = true
  <-> fields_of tokens = [].
Proof.
  intros H. pose proof (part0_parse_terms tokens H) as P.
  unfold Part0.parseTokens in *. split; intros E.
  - apply part0_cleanupQuery_nonempty in E.
    rewrite E in P. cbn in P. now apply Permutation_nil in P.
  - rewrite E in P. apply Permutation_sym, Permutation_nil in P.
    rewrite cleanupQuery_leaves in P.
    apply cleanupQuery_nil_iff in P. now rewrite P.
Qed.

(** X11: in part_000, for a line whose tokens close every group they open,
    [processQuery] returns the error exactly when the line has no
    well-formed [Field] token. *)
Theorem X11_part0_error_iff_no_term (line : gostring) :
  open_groups 0 (Part0.tokenize line) = 0 ->
  Part0.processQuery line = (None, Some empty_error)
  <-> fields_of (Part0.tokenize line) = [].
Proof.
  intros H. rewrite <- (part0_parse_nil_iff _ H). unfold Part0.processQuery.
  destruct (Part0.isEmptyQuery (Part0.parseTokens (Part0.tokenize line)));
    split; intros E; try reflexivity; discriminate.
Qed.

Lemma X11_part0_error_iff_no_term_witness :
  open_groups 0 (Part0.tokenize (lit "(OR) AND")) = 0
  /\ (Part0.processQuery (lit "(OR) AND") = (None, Some empty_error)
      <-> fields_of (Part0.tokenize (lit "(OR) AND")) = []).
Proof.
  split; [reflexivity |].
  apply (X11_part0_error_iff_no_term (lit "(OR) AND")). reflexivity.
Defined.

Lemma main_parse_empty_iff (tokens : list Token) :
  open_groups 0 tokens = 0 ->
  MainGo.isEmptyQuery (MainGo.parseTokens tokens) = true
  <-> fields_of tokens = [].
Proof.
  intros H. pose proof (main_parse_terms tokens H) as P.
  unfold MainGo.parseTokens in *.
  destruct (MainGo.currentGroup _) as [g |]; cbn in *.
  - rewrite main_cleanup_empty_iff, <- (main_cleanup_leaves g). split; intros E.
    + rewrite E in P. now apply Permutation_nil in P.
    + rewrite E in P. now apply Permutation_sym, Permutation_nil in P.
  - split; [| reflexivity]. intros _. now apply Permutation_nil in P.
Qed.

(** X12: in [main.go], for a line whose tokens close every group they open,
    [processQuery] returns the error exactly when the line has no
    well-formed [Field] token. *)
Theorem X12_main_error_iff_no_term (line : gostring) :
  open_groups 0 (MainGo.tokenize line) = 0 ->
  MainGo.processQuery line = (None, Some empty_error)
  <-> fields_of (MainGo.tokenize line) = [].
Proof.
  intros H. rewrite <- (main_parse_empty_iff _ H). unfold MainGo.processQuery.
  destruct (MainGo.isEmptyQuery (MainGo.parseTokens (MainGo.tokenize line)));
    split; intros E; try reflexivity; discriminate.
Qed.

Lemma X12_main_error_iff_no_term_witness :
  open_groups 0 (MainGo.tokenize (lit "(OR) AND")) = 0
  /\ (MainGo.processQuery (lit "(OR) AND") = (None, Some empty_error)
      <-> fields_of (MainGo.tokenize (lit "(OR) AND")) = []).
Proof.
  split; [reflexivity |].
  apply (X12_main_error_iff_no_term (lit "(OR) AND")). reflexivity.
Defined.

(** ** Groups that stay open *)

Lemma part0_loop_within (tokens : list Token) :
  forall stack base current,
    closes_within (length stack) tokens = true ->
    Part0.parse_loop tokens (stack ++ base, current)
    = (fst (Part0.parse_loop tokens (stack, current)) ++ base,
       snd (Part0.parse_loop tokens (stack, current))).
Proof.
  induction tokens as [| token tokens IH]; intros stack base current H;
    [reflexivity |].
  unfold Part0.parse_loop in *. cbn [fold_left].
  cbn [closes_within] in H.
  pose proof (part0_step_depth stack current token) as D.
  rewrite part0_step_frame.
  - destruct (Part0.parse_step (stack, current) token) as [stack1 current1].
    cbn [fst snd] in *. apply IH. rewrite D.
    destruct (Type_ token =? TokenOpenParen)%Z; [exact H |].
    destruct (Type_ token =? TokenCloseParen)%Z; [| exact H].
    destruct (length stack); [discriminate | exact H].
  - destruct (Type_ token =? TokenOpenParen)%Z eqn:EO.
    { left. apply Z.eqb_eq in EO. rewrite EO. reflexivity. }
    destruct (Type_ token =? TokenCloseParen)%Z; [| now left].
    right. destruct stack; [discriminate | discriminate].
Qed.

Lemma part0_loop_app (before after : list Token) (st : Part0.state) :
  Part0.parse_loop (before ++ after) st
  = Part0.parse_loop after (Part0.parse_loop before st).
Proof. apply fold_left_app. Qed.

Lemma main_loop_app (before after : list Token) (st : MainGo.state) :
  MainGo.parse_loop (before ++ after) st
  = MainGo.parse_loop after (MainGo.parse_loop before st).
Proof. apply fold_left_app. Qed.

(** X13: in part_000, a parenthesis that is never closed discards all that
    precedes it: the result is that of the tokens after it alone. *)
Theorem X13_part0_unclosed_group (before inner : list Token) (open : Token) :
  Type_ open = TokenOpenParen -> closes_within 0 inner = true ->
  Part0.parseTokens (before ++ open :: inner) = Part0.parseTokens inner.
Proof.
  intros HO HW. unfold Part0.parseTokens.
  rewrite part0_loop_app.
  destruct (Part0.parse_loop before ([], Part0.freshItem)) as [stack current].
  change (open :: inner) with ([open] ++ inner). rewrite part0_loop_app.
  assert (S1 : Part0.parse_loop [open] (stack, current)
               = ([] ++ current :: stack, Part0.freshItem)).
  { cbn. unfold Part0.parse_step. rewrite HO. reflexivity. }
  rewrite S1, part0_loop_within by exact HW. reflexivity.
Qed.

Lemma X13_part0_unclosed_group_witness :
  Type_ tok_open = TokenOpenParen
  /\ closes_within 0 [tok_title "b"] = true
  /\ Part0.parseTokens ([tok_title "a"] ++ tok_open :: [tok_title "b"])
     = Part0.parseTokens [tok_title "b"].
Proof.
  split; [reflexivity |]. split; [reflexivity |].
  apply (X13_part0_unclosed_group [tok_title "a"] [tok_title "b"] tok_open);
    reflexivity.
Defined.

Lemma main_loop_within (tokens : list Token) :
  forall s base g op,
    closes_within (length s) tokens = true ->
    exists s' g' op',
      MainGo.parse_loop tokens (MainGo.mkState s (Some g) op)
      = MainGo.mkState s' (Some g') op'
      /\ MainGo.parse_loop tokens (MainGo.mkState (s ++ base) (Some g) op)
         = MainGo.mkState (s' ++ base) (Some g') op'.
Proof.
  induction tokens as [| token tokens IH]; intros s base g op H.
  - now exists s, g, op.
  - unfold MainGo.parse_loop in *. cbn [fold_left].
    cbn [closes_within] in H.
    destruct (main_step_frame s base g op token) as (s' & g' & op' & A & B & D).
    + destruct (Type_ token =? TokenOpenParen)%Z eqn:EO.
      { left. apply Z.eqb_eq in EO. rewrite EO. reflexivity. }
      destruct (Type_ token =? TokenCloseParen)%Z; [| now left].
      right. destruct s; discriminate.
    + rewrite A, B. apply IH. rewrite D.
      destruct (Type_ token =? TokenOpenParen)%Z; [exact H |].
      destruct (Type_ token =? TokenCloseParen)%Z; [| exact H].
      destruct (length s); [discriminate | exact H].
Qed.

Lemma main_step_operator (st : MainGo.state) (token : Token) :
  MainGo.currentOperator (MainGo.parse_step st token)
  = if is_operator (Type_ token) then Type_ token
    else MainGo.currentOperator st.
Proof.
  destruct st as [stack g op]. unfold MainGo.parse_step, is_operator.
  cbn [MainGo.stack MainGo.currentGroup MainGo.currentOperator].
  destruct (Type_ token =? TokenField)%Z eqn:E0.
  { apply Z.eqb_eq in E0. rewrite E0. cbn.
    now destruct (Split (Value token) ":") as [| p0 [| p1 [| p2 ps]]]. }
  destruct ((Type_ token =? TokenOR)%Z || (Type_ token =? TokenAND)%Z
            || (Type_ token =? TokenANDNOT)%Z); [reflexivity |].
  destruct (Type_ token =? TokenOpenParen)%Z; [now destruct g |].
  destruct (Type_ token =? TokenCloseParen)%Z; [| reflexivity].
  destruct stack as [| parent stack']; [reflexivity |].
  destruct g as [g |]; [| reflexivity]. cbn [MainGo.cleanupQuery].
  now destruct (MainGo.isEmptyQuery (Some (MainGo.cleanup g))).
Qed.

Lemma main_loop_operator (tokens : list Token) :
  forall st,
    MainGo.currentOperator (MainGo.parse_loop tokens st)
    = fold_left (fun op token =>
                   if is_operator (Type_ token) then Type_ token else op)
                tokens (MainGo.currentOperator st).
Proof.
  induction tokens as [| token tokens IH]; intros st; [reflexivity |].
  unfold MainGo.parse_loop in *. cbn [fold_left].
  now rewrite IH, main_step_operator.
Qed.

Lemma main_unclosed (before inner : list Token) (open : Token) :
  Type_ open = TokenOpenParen -> closes_within 0 inner = true ->
  MainGo.parseTokens (before ++ open :: inner)
  = MainGo.cleanupQuery
      (MainGo.currentGroup
         (MainGo.parse_loop inner
            (MainGo.mkState [] (Some MainGo.emptyQuery)
                            (last_operator before)))).
Proof.
  intros HO HW. unfold MainGo.parseTokens, last_operator.
  rewrite main_loop_app.
  pose proof (main_loop_operator before (MainGo.mkState [] None TokenAND))
    as HL.
  cbn [MainGo.currentOperator] in HL. rewrite <- HL. clear HL.
  destruct (MainGo.parse_loop before (MainGo.mkState [] None TokenAND))
    as [stack g op].
  cbn [MainGo.currentOperator].
  change (open :: inner) with ([open] ++ inner). rewrite main_loop_app.
  assert (S1 : exists base,
             MainGo.parse_loop [open] (MainGo.mkState stack g op)
             = MainGo.mkState ([] ++ base) (Some MainGo.emptyQuery) op).
  { cbn. unfold MainGo.parse_step. rewrite HO. cbn.
    destruct g as [g |]; eauto. }
  destruct S1 as [base ->].
  destruct (main_loop_within inner [] base MainGo.emptyQuery op HW)
    as (s' & g' & op' & A & B).
  now rewrite A, B.
Qed.

(** X14: in [main.go], a parenthesis that is never closed discards the
    groups built before it: of what precedes it, only the last operator
    bears on the result. *)
Theorem X14_main_unclosed_group (before before' inner : list Token)
    (open : Token) :
  Type_ open = TokenOpenParen -> closes_within 0 inner = true ->
  last_operator before = last_operator before' ->
  MainGo.parseTokens (before ++ open :: inner)
  = MainGo.parseTokens (before' ++ open :: inner).
Proof.
  intros HO HW HL. rewrite !main_unclosed by assumption. now rewrite HL.
Qed.

Lemma X14_main_unclosed_group_witness :
  Type_ tok_open = TokenOpenParen
  /\ closes_within 0 [tok_title "b"] = true
  /\ last_operator [tok_title "a"] = last_operator []
  /\ MainGo.parseTokens ([tok_title "a"] ++ tok_open :: [tok_title "b"])
     = MainGo.parseTokens ([] ++ tok_open :: [tok_title "b"]).
Proof.
  split; [reflexivity |]. split; [reflexivity |]. split; [reflexivity |].
  apply (X14_main_unclosed_group [tok_title "a"] [] [tok_title "b"] tok_open);
    reflexivity.
Defined.

(** ** Tokens without effect *)

Lemma part0_step_operators (st : Part0.state) (o1 o2 : Token) :
  is_operator (Type_ o1) = true -> is_operator (Type_ o2) = true ->
  Part0.parse_step (Part0.parse_step st o1) o2 = Part0.parse_step st o2.
Proof.
  intros H1 H2. destruct st as [stack current]. unfold Part0.parse_step.
  assert (F : forall o, is_operator (Type_ o) = true ->
                        (Type_ o =? TokenField)%Z = false).
  { intros o H. now destruct (is_operator_cases _ H) as [-> | [-> | ->]]. }
  now rewrite (F o1 H1), (F o2 H2), H1, H2.
Qed.

Lemma main_step_operators (st : MainGo.state) (o1 o2 : Token) :
  is_operator (Type_ o1) = true -> is_operator (Type_ o2) = true ->
  MainGo.parse_step (MainGo.parse_step st o1) o2 = MainGo.parse_step st o2.
Proof.
  intros H1 H2. unfold MainGo.parse_step.
  assert (F : forall o, is_operator (Type_ o) = true ->
                        (Type_ o =? TokenField)%Z = false).
  { intros o H. now destruct (is_operator_cases _ H) as [-> | [-> | ->]]. }
  now rewrite (F o1 H1), (F o2 H2), H1, H2.
Qed.

(** X15: in both files, an operator token directly followed by another
    operator token has no effect on the result: only the last operator
    before a term or a group counts. *)
Theorem X15_operator_overridden (before after : list Token) (o1 o2 : Token) :
  is_operator (Type_ o1) = true -> is_operator (Type_ o2) = true ->
  Part0.parseTokens (before ++ o1 :: o2 :: after)
  = Part0.parseTokens (before ++ o2 :: after)
  /\ MainGo.parseTokens (before ++ o1 :: o2 :: after)
     = MainGo.parseTokens (before ++ o2 :: after).
Proof.
  intros H1 H2. unfold Part0.parseTokens, MainGo.parseTokens.
  rewrite !part0_loop_app, !main_loop_app.
  unfold Part0.parse_loop, MainGo.parse_loop. cbn [fold_left].
  now rewrite part0_step_operators, main_step_operators.
Qed.

Lemma X15_operator_overridden_witness :
  is_operator (Type_ (mkToken TokenAND (lit "AND"))) = true
  /\ is_operator (Type_ tok_or) = true
  /\ Part0.parseTokens
       ([tok_title "a"]
          ++ mkToken TokenAND (lit "AND") :: tok_or :: [tok_title "b"])
     = Part0.parseTokens ([tok_title "a"] ++ tok_or :: [tok_title "b"])
  /\ MainGo.parseTokens
       ([tok_title "a"]
          ++ mkToken TokenAND (lit "AND") :: tok_or :: [tok_title "b"])
     = MainGo.parseTokens ([tok_title "a"] ++ tok_or :: [tok_title "b"]).
Proof.
  split; [reflexivity |]. split; [reflexivity |].
  apply (X15_operator_overridden [tok_title "a"] [tok_title "b"]
           (mkToken TokenAND (lit "AND")) tok_or); reflexivity.
Defined.

(** X16: in both files, a closing parenthesis met while no group is open is
    ignored: the result is that of the tokens without it. *)
Theorem X16_unmatched_close_ignored (before after : list Token)
    (close : Token) :
  Type_ close = TokenCloseParen -> open_groups 0 before = 0 ->
  Part0.parseTokens (before ++ close :: after)
  = Part0.parseTokens (before ++ after)
  /\ MainGo.parseTokens (before ++ close :: after)
     = MainGo.parseTokens (before ++ after).
Proof.
  intros HC H. unfold Part0.parseTokens, MainGo.parseTokens.
  rewrite !part0_loop_app, !main_loop_app.
  pose proof (part0_loop_depth before [] Part0.freshItem) as D0.
  pose proof (main_init_depth before) as D1.
  cbn [length] in D0. rewrite H in D0, D1.
  destruct (Part0.parse_loop before ([], Part0.freshItem)) as [stack current].
  destruct (MainGo.parse_loop before (MainGo.mkState [] None TokenAND))
    as [stack1 g op].
  cbn [fst MainGo.stack] in *.
  destruct stack; [| discriminate]. destruct stack1; [| cbn in D1; lia].
  assert (S0 : Part0.parse_step ([], current) close = ([], current)).
  { unfold Part0.parse_step. now rewrite HC. }
  assert (S1 : MainGo.parse_step (MainGo.mkState [] g op) close
               = MainGo.mkState [] g op).
  { unfold MainGo.parse_step. now rewrite HC. }
  unfold Part0.parse_loop, MainGo.parse_loop. cbn [fold_left].
  now rewrite S0, S1.
Qed.

Lemma X16_unmatched_close_ignored_witness :
  Type_ tok_close = TokenCloseParen
  /\ open_groups 0 [tok_title "a"] = 0
  /\ Part0.parseTokens ([tok_title "a"] ++ tok_close :: [tok_title "b"])
     = Part0.parseTokens ([tok_title "a"] ++ [tok_title "b"])
  /\ MainGo.parseTokens ([tok_title "a"] ++ tok_close :: [tok_title "b"])
     = MainGo.parseTokens ([tok_title "a"] ++ [tok_title "b"]).
Proof.
  split; [reflexivity |]. split; [reflexivity |].
  apply (X16_unmatched_close_ignored [tok_title "a"] [tok_title "b"]
           tok_close); reflexivity.
Defined.


(** ** The parentheses of a preprocessed line *)

Lemma Count_replace_from (old new : gostring) (c : ascii) :
  old <> [] -> Count old c = Count new c ->
  forall s, Count (replace_from old new 0 s) c = Count s c.
Proof.
  intros Hold Hc s.
  induction s as [s IH] using (induction_ltof1 _ (@length ascii)).
  unfold ltof in IH. destruct s as [| x s]; [reflexivity |].
  cbn [replace_from]. destruct (HasPrefix (x :: s) old) eqn:E.
  - apply HasPrefix_true in E. destruct old as [| o old]; [contradiction |].
    cbn in E. injection E as -> E.
    replace (length (o :: old) - 1) with (length old) by (cbn; lia).
    rewrite E at 1. rewrite replace_from_skip, Count_app, IH.
    + rewrite <- Hc.
      change (o :: s) with ([o] ++ s). rewrite E at 2.
      change (o :: old) with ([o] ++ old). rewrite !Count_app. lia.
    + rewrite E at 2. cbn. rewrite length_app. lia.
  - change (x :: replace_from old new 0 s)
      with ([x] ++ replace_from old new 0 s).
    change (x :: s) with ([x] ++ s). rewrite !Count_app. f_equal.
    apply IH. cbn. lia.
Qed.

Lemma Count_preprocess (line : gostring) (c : ascii) :
  c = "("%char \/ c = ")"%char ->
  Count (preprocess line) c
  = Count (if Count line ")" <? Count line "("
           then line ++ Repeat ")" (Count line "(" - Count line ")")
           else line) c.
Proof.
  intros Hc. unfold preprocess, ReplaceAll.
  rewrite !Count_replace_from; try discriminate; try reflexivity;
    destruct Hc as [-> | ->]; reflexivity.
Qed.

(** X17: preprocessing a line leaves its opening parentheses as many as they
    are and raises its closing parentheses to that number at least, so a
    preprocessed line never has more opening than closing parentheses. *)
Theorem X17_preprocess_parentheses (line : gostring) :
  Count (preprocess line) "(" = Count line "("
  /\ Count (preprocess line) ")" = Nat.max (Count line "(") (Count line ")").
Proof.
  rewrite !Count_preprocess by auto.
  destruct (Count line ")" <? Count line "(") eqn:E.
  - apply Nat.ltb_lt in E. rewrite !Count_app, !Count_Repeat. cbn. lia.
  - apply Nat.ltb_ge in E. lia.
Qed.

(** ** Lines without a token *)

Lemma starts_token_false (c : ascii) :
  starts_token c = false ->
  Ascii.eqb c "T" = false /\ Ascii.eqb c "A" = false
  /\ Ascii.eqb c "O" = false /\ Ascii.eqb c "(" = false
  /\ Ascii.eqb c ")" = false /\ Ascii.eqb c dquote = false.
Proof.
  unfold starts_token. rewrite !orb_false_iff. tauto.
Qed.

Lemma exec_token_none (V : regex) (c : ascii) (s : gostring) :
  starts_token c = false -> exec (token_regex V) (c :: s) = None.
Proof.
  intros H. apply starts_token_false in H.
  destruct H as (HT & HA & HO & HP & HC & HQ).
  unfold exec, token_regex, field_call, field_names, str.
  cbn -[Ascii.eqb dquote].
  rewrite ?(Ascii.eqb_sym _ c).
  now rewrite HT, HA, HO, HP, HC, HQ.
Qed.

Lemma search_token_none (V : regex) (s : gostring) :
  forallb (fun c => negb (starts_token c)) s = true ->
  forall pos, search (token_regex V) pos s = None.
Proof.
  induction s as [| c s IH]; intros H pos; [reflexivity |].
  cbn [forallb] in H. apply andb_true_iff in H. destruct H as [Hc Hs].
  apply negb_true_iff in Hc.
  rewrite search_cons, (exec_token_none V c s Hc). now apply IH.
Qed.

Lemma no_token_In (s : gostring) (c : ascii) :
  forallb (fun c => negb (starts_token c)) s = true ->
  starts_token c = true -> ~ In c s.
Proof.
  rewrite forallb_forall. intros H Hc Hin. specialize (H c Hin).
  now rewrite Hc in H.
Qed.

Lemma preprocess_no_token (line : gostring) :
  forallb (fun c => negb (starts_token c)) line = true ->
  preprocess line = line.
Proof.
  intros H. unfold preprocess.
  rewrite (Count_absent line "("), (Count_absent line ")")
    by (apply no_token_In; [exact H | reflexivity]).
  cbn [Nat.ltb Nat.leb].
  rewrite (ReplaceAll_absent "(" (lit "( "))
    by (first [now left | apply no_token_In; [exact H | reflexivity]]).
  rewrite (ReplaceAll_absent ")" (lit " )"))
    by (first [cbn; tauto | apply no_token_In; [exact H | reflexivity]]).
  rewrite (ReplaceAll_absent "A" (lit " AND NOT "))
    by (first [cbn; tauto | apply no_token_In; [exact H | reflexivity]]).
  rewrite (ReplaceAll_absent "A" (lit " AND "))
    by (first [cbn; tauto | apply no_token_In; [exact H | reflexivity]]).
  rewrite (ReplaceAll_absent "O" (lit " OR "))
    by (first [cbn; tauto | apply no_token_In; [exact H | reflexivity]]).
  reflexivity.
Qed.

Lemma tokenize_no_token (V W : regex) (line : gostring) :
  forallb (fun c => negb (starts_token c)) line = true ->
  Lexer.tokenize (token_regex V) W line = [].
Proof.
  intros H. unfold Lexer.tokenize. rewrite (preprocess_no_token line H).
  unfold FindAllStringSubmatchIndex. cbn [find_all].
  now rewrite (search_token_none V line H).
Qed.

(** X18: in both files, a line with none of the bytes a token can start
    with (the letters T, A and O, the parentheses, the double quote) has no
    token, and [processQuery] returns the error for it; the empty line and
    the lines of white space are among them. *)
Theorem X18_line_without_token (line : gostring) :
  forallb (fun c => negb (starts_token c)) line = true ->
  Part0.tokenize line = [] /\ MainGo.tokenize line = []
  /\ Part0.processQuery line = (None, Some empty_error)
  /\ MainGo.processQuery line = (None, Some empty_error).
Proof.
  intros H. unfold Part0.processQuery, MainGo.processQuery.
  unfold Part0.tokenize, MainGo.tokenize.
  rewrite !(tokenize_no_token _ _ line H). repeat split.
Qed.

Lemma X18_line_without_token_witness :
  forallb (fun c => negb (starts_token c)) (lit "  machine learning ") = true
  /\ Part0.tokenize (lit "  machine learning ") = []
  /\ MainGo.tokenize (lit "  machine learning ") = []
  /\ Part0.processQuery (lit "  machine learning ")
     = (None, Some empty_error)
  /\ MainGo.processQuery (lit "  machine learning ")
     = (None, Some empty_error).
Proof.
  split; [reflexivity |].
  apply (X18_line_without_token (lit "  machine learning ")). reflexivity.
Defined.

(** ** The tokens [tokenize] emits *)

Lemma classify_ok (W : regex) (s : gostring) :
  classify W s = zeroToken \/ token_ok (classify W s) = true.
Proof.
  unfold classify.
  destruct (eqs s (lit "OR")) eqn:E1.
  { right. unfold token_ok. cbn [Type_ Value]. rewrite E1. reflexivity. }
  destruct (eqs s (lit "AND")) eqn:E2.
  { right. unfold token_ok. cbn [Type_ Value]. rewrite E2. reflexivity. }
  destruct (eqs s (lit "AND_NOT")) eqn:E3.
  { right. unfold token_ok. cbn [Type_ Value]. rewrite E3. reflexivity. }
  destruct (eqs s (lit "(")) eqn:E4.
  { right. unfold token_ok. cbn [Type_ Value]. rewrite E4. reflexivity. }
  destruct (eqs s (lit ")")) eqn:E5.
  { right. unfold token_ok. cbn [Type_ Value]. rewrite E5. reflexivity. }
  assert (K : forall a b : gostring,
            token_ok (mkToken TokenField (a ++ lit ":" ++ b)) = true).
  { intros a b. unfold token_ok. cbn [Type_ Value].
    replace (existsb (Ascii.eqb ":") (a ++ lit ":" ++ b)) with true;
      [reflexivity |].
    symmetry. rewrite existsb_app. cbn. now rewrite orb_true_r. }
  destruct (Contains s (lit "(")).
  - destruct (FindStringSubmatch W 2 s) as [| m [| ft [| v [| x l]]]];
      auto.
  - destruct (HasPrefix s q && HasSuffix s q); [| now left].
    right. apply (K (lit "ANY") (Trim s dquote)).
Qed.

Lemma tokenize_step_ok (W : regex) (query : gostring)
    (matches : list (nat * nat)) (i : nat) (m : nat * nat)
    (tokens : list Token) :
  Forall (fun t => token_ok t = true) tokens ->
  Forall (fun t => token_ok t = true)
         (tokenize_step W query matches i m tokens).
Proof.
  intros H. unfold tokenize_step.
  destruct (classify_ok W (TrimSpace (slice query (fst m) (snd m))))
    as [-> | K]; [exact H |].
  set (token := classify W (TrimSpace (slice query (fst m) (snd m)))) in *.
  assert (H1 : Forall (fun t => token_ok t = true) (tokens ++ [token])).
  { apply Forall_app. split; [exact H | now constructor]. }
  assert (H2 : Forall (fun t => token_ok t = true)
                 ((tokens ++ [token]) ++ [mkToken TokenAND (lit "AND")])).
  { apply Forall_app. split; [exact H1 | now constructor]. }
  repeat match goal with
         | |- Forall _ (if ?b then _ else _) => destruct b
         end; assumption.
Qed.

Lemma tokenize_loop_ok (W : regex) (query : gostring)
    (matches rest : list (nat * nat)) :
  forall i tokens,
    Forall (fun t => token_ok t = true) tokens ->
    Forall (fun t => token_ok t = true)
           (tokenize_loop W query matches i rest tokens).
Proof.
  induction rest as [| m rest IH]; intros i tokens H; [exact H |].
  cbn [tokenize_loop]. apply IH. now apply tokenize_step_ok.
Qed.

(** X19: whatever the line, in both files, every token [tokenize] emits is
    a [Field] token whose payload has a colon, or an operator or parenthesis
    token of the matching type that carries its spelling; the zero token is
    never emitted. *)
Theorem X19_tokens_well_formed (line : gostring) :
  Forall (fun t => token_ok t = true) (Part0.tokenize line)
  /\ Forall (fun t => token_ok t = true) (MainGo.tokenize line).
Proof.
  split; apply tokenize_loop_ok; constructor.
Qed.


(** ** The output path of [processFile] *)

Lemma ext_scan_plain (r rest tail : gostring) :
  forallb (fun c => negb (Ascii.eqb c "/") && negb (Ascii.eqb c ".")) r
  = true ->
  ext_scan (r ++ rest) tail = ext_scan rest (rev r ++ tail).
Proof.
  revert tail. induction r as [| c r IH]; intros tail H; [reflexivity |].
  cbn [forallb] in H. apply andb_true_iff in H. destruct H as [Hc Hr].
  apply andb_true_iff in Hc. destruct Hc as [H1 H2].
  apply negb_true_iff in H1, H2. cbn [app ext_scan]. rewrite H1, H2.
  rewrite (IH _ Hr). cbn [rev]. now rewrite <- app_assoc.
Qed.

Lemma forallb_rev {A : Type} (p : A -> bool) (l : list A) :
  forallb p (rev l) = forallb p l.
Proof.
  induction l as [| x l IH]; [reflexivity |].
  cbn. rewrite forallb_app, IH. cbn. rewrite andb_true_r. apply andb_comm.
Qed.

Lemma TrimSuffix_app (b x : gostring) : TrimSuffix (b ++ x) x = b.
Proof.
  unfold TrimSuffix, HasSuffix. rewrite rev_app_distr, HasPrefix_app.
  rewrite length_app, Nat.add_sub, firstn_app, Nat.sub_diag, firstn_all.
  cbn. apply app_nil_r.
Qed.

Lemma Ext_dot (b e : gostring) :
  forallb (fun c => negb (Ascii.eqb c "/") && negb (Ascii.eqb c ".")) e
  = true ->
  Ext (b ++ "."%char :: e) = "."%char :: e.
Proof.
  intros H. unfold Ext. rewrite rev_app_distr. cbn [rev].
  rewrite <- app_assoc. rewrite ext_scan_plain by now rewrite forallb_rev.
  cbn. now rewrite rev_involutive, app_nil_r.
Qed.

Lemma outputPath_dot (b e : gostring) :
  forallb (fun c => negb (Ascii.eqb c "/") && negb (Ascii.eqb c ".")) e
  = true ->
  outputPath (b ++ "."%char :: e) = b ++ lit ".json".
Proof.
  intros H. unfold outputPath. now rewrite (Ext_dot b e H), TrimSuffix_app.
Qed.

(** X20: the output path of [processFile] is the input path with what
    follows the last dot of its last element replaced by [json]: for every
    [base] and every [ext] without dot or slash, the input [base.ext] gives
    [base.json].  An input named [base.json] is therefore its own output
    path, and the path of an output is left as it is. *)
Theorem X20_outputPath_extension (base ext : gostring) :
  forallb (fun c => negb (Ascii.eqb c "/") && negb (Ascii.eqb c ".")) ext
  = true ->
  outputPath (base ++ lit "." ++ ext) = base ++ lit ".json"
  /\ outputPath (base ++ lit ".json") = base ++ lit ".json"
  /\ outputPath (outputPath (base ++ lit "." ++ ext))
     = outputPath (base ++ lit "." ++ ext).
Proof.
  intros H.
  assert (J : outputPath (base ++ lit ".json") = base ++ lit ".json")
    by now apply (outputPath_dot base (lit "json")).
  split; [now apply outputPath_dot |]. split; [exact J |].
  cbn [lit list_ascii_of_string app]. now rewrite (outputPath_dot base ext H).
Qed.

Lemma X20_outputPath_extension_witness :
  forallb (fun c => negb (Ascii.eqb c "/") && negb (Ascii.eqb c "."))
          (lit "txt") = true
  /\ outputPath (lit "data/v1.2/queries" ++ lit "." ++ lit "txt")
     = lit "data/v1.2/queries" ++ lit ".json"
  /\ outputPath (lit "data/v1.2/queries" ++ lit ".json")
     = lit "data/v1.2/queries" ++ lit ".json"
  /\ outputPath (outputPath (lit "data/v1.2/queries" ++ lit "." ++ lit "txt"))
     = outputPath (lit "data/v1.2/queries" ++ lit "." ++ lit "txt").
Proof.
  split; [reflexivity |].
  apply (X20_outputPath_extension (lit "data/v1.2/queries") (lit "txt")).
  reflexivity.
Defined.

(** X21: when the last element of the input path has no dot, the output
    path of [processFile] is the input path with [.json] appended, whatever
    dots the directories have. *)
Theorem X21_outputPath_no_extension (dir name : gostring) :
  forallb (fun c => negb (Ascii.eqb c "/") && negb (Ascii.eqb c ".")) name
  = true ->
  dir = [] \/ (exists d, dir = d ++ lit "/") ->
  outputPath (dir ++ name) = dir ++ name ++ lit ".json".
Proof.
  intros H Hd. unfold outputPath.
  assert (E : Ext (dir ++ name) = []).
  { unfold Ext. rewrite rev_app_distr.
    rewrite ext_scan_plain by now rewrite forallb_rev.
    destruct Hd as [-> | [d ->]]; [reflexivity |].
    rewrite rev_app_distr. reflexivity. }
  rewrite E. unfold TrimSuffix, HasSuffix. cbn [rev HasPrefix length].
  now rewrite Nat.sub_0_r, firstn_all, app_assoc.
Qed.

Lemma X21_outputPath_no_extension_witness :
  forallb (fun c => negb (Ascii.eqb c "/") && negb (Ascii.eqb c "."))
          (lit "queries") = true
  /\ (lit "data/v1.2/" = []
      \/ exists d, lit "data/v1.2/" = d ++ lit "/")
  /\ outputPath (lit "data/v1.2/" ++ lit "queries")
     = lit "data/v1.2/" ++ lit "queries" ++ lit ".json".
Proof.
  split; [reflexivity |].
  assert (Hd : lit "data/v1.2/" = []
               \/ exists d, lit "data/v1.2/" = d ++ lit "/")
    by (right; exists (lit "data/v1.2"); reflexivity).
  split; [exact Hd |].
  apply (X21_outputPath_no_extension (lit "data/v1.2/") (lit "queries"));
    [reflexivity | exact Hd].
Defined.

(** ** The loop of [processFile] *)

Section LoopFacts.
Variable Tree : Type.
Variable processQuery : gostring -> option Tree * option gostring.
Variable isEmptyQuery : option Tree -> bool.

(** What [processQuery] returns in both files: the error and no tree, or a
    tree that is not empty and no error. *)
Hypothesis processQuery_shape : forall line,
  (exists e, processQuery line = (None, Some e))
  \/ (exists t, processQuery line = (Some t, None)
                /\ isEmptyQuery (Some t) = false).

Lemma scan_step_accounted (done : list gostring) (p : progress Tree)
    (text : gostring) :
  accounted Tree processQuery done p ->
  accounted Tree processQuery (done ++ [text])
            (scan_step Tree processQuery isEmptyQuery p text).
Proof.
  intros (L & C & G & W).
  assert (G' : Forall (collected Tree processQuery (done ++ [text]))
                      (allQueries p)).
  { eapply Forall_impl; [| exact G]. intros t [x [Hx E]].
    exists x. split; [apply in_or_app; now left | exact E]. }
  assert (W' : Forall (warned Tree processQuery (done ++ [text]))
                      (warnings p)).
  { eapply Forall_impl; [| exact W]. intros n [Hn [x [e [Hx E]]]].
    split; [exact Hn |]. exists x, e. split; [| exact E].
    rewrite nth_error_app1; [exact Hx |].
    apply nth_error_Some. now rewrite Hx. }
  unfold accounted, scan_step.
  rewrite filter_app, !length_app. cbn [filter].
  destruct (eqs (TrimSpace text) []) eqn:B; cbn [negb].
  { cbn. repeat split; auto; lia. }
  destruct (processQuery_shape (TrimSpace text)) as [[e E] | [t [E NE]]];
    rewrite E.
  - cbn. rewrite length_app. cbn. repeat split; auto; try lia.
    apply Forall_app. split; [exact W' |]. constructor; [| constructor].
    split; [lia |]. exists text, e. split; [| exact E].
    rewrite L. cbn. rewrite Nat.sub_0_r, nth_error_app2, Nat.sub_diag by lia.
    reflexivity.
  - rewrite NE. cbn. rewrite length_app. cbn. repeat split; auto; try lia.
    apply Forall_app. split; [exact G' |]. constructor; [| constructor].
    exists text. split; [apply in_or_app; right; now left | exact E].
Qed.

Lemma scan_loop_accounted (lines : list gostring) :
  forall done (p : progress Tree),
    accounted Tree processQuery done p ->
    accounted Tree processQuery (done ++ lines)
              (fold_left (scan_step Tree processQuery isEmptyQuery) lines p).
Proof.
  induction lines as [| text lines IH]; intros done p H.
  - now rewrite app_nil_r.
  - cbn [fold_left]. change (text :: lines) with ([text] ++ lines).
    rewrite app_assoc. apply IH. now apply scan_step_accounted.
Qed.

Lemma scan_lines_accounted (lines : list gostring) :
  accounted Tree processQuery lines
            (scan_lines Tree processQuery isEmptyQuery lines).
Proof.
  apply (scan_loop_accounted lines [] (mkProgress Tree 0 [] [])).
  repeat split; constructor.
Qed.
End LoopFacts.

Lemma part0_processQuery_shape (line : gostring) :
  (exists e, Part0.processQuery line = (None, Some e))
  \/ (exists t, Part0.processQuery line = (Some t, None)
                /\ Part0.isEmptyQuery (Some t) = false).
Proof.
  unfold Part0.processQuery.
  destruct (Part0.isEmptyQuery (Part0.parseTokens (Part0.tokenize line)))
    eqn:E; [left; eauto |].
  right. destruct (Part0.parseTokens (Part0.tokenize line)) as [t |];
    [eauto | discriminate].
Qed.

Lemma main_processQuery_shape (line : gostring) :
  (exists e, MainGo.processQuery line = (None, Some e))
  \/ (exists t, MainGo.processQuery line = (Some t, None)
                /\ MainGo.isEmptyQuery (Some t) = false).
Proof.
  unfold MainGo.processQuery.
  destruct (MainGo.isEmptyQuery (MainGo.parseTokens (MainGo.tokenize line)))
    eqn:E; [left; eauto |].
  right. destruct (MainGo.parseTokens (MainGo.tokenize line)) as [t |];
    [eauto | discriminate].
Qed.

(** X22: the loop of [processFile] in part_000 accounts for every line
    once: [lineNumber] counts all the lines, blank ones too; the trees
    collected and the warnings printed are together as many as the lines
    that are not blank; every collected tree is the tree [processQuery]
    returns for a line, so the final test for an empty tree never drops
    one; and every warning carries the number of a line for which
    [processQuery] returns the error. *)
Theorem X22_part0_processFile_accounts (lines : list gostring) :
  let r := Part0File.processFile lines in
  lineNumber r = length lines
  /\ length (allQueries r) + length (warnings r)
     = length (filter (fun text => negb (eqs (TrimSpace text) [])) lines)
  /\ Forall (collected Part0.ParsedQuery Part0.processQuery lines)
            (allQueries r)
  /\ Forall (warned Part0.ParsedQuery Part0.processQuery lines)
            (warnings r).
Proof.
  exact (scan_lines_accounted _ _ _ part0_processQuery_shape lines).
Qed.

(** X23: the same for the loop of [processFile] in [main.go]. *)
Theorem X23_main_processFile_accounts (lines : list gostring) :
  let r := MainGoFile.processFile lines in
  lineNumber r = length lines
  /\ length (allQueries r) + length (warnings r)
     = length (filter (fun text => negb (eqs (TrimSpace text) [])) lines)
  /\ Forall (collected MainGo.ParsedQuery MainGo.processQuery lines)
            (allQueries r)
  /\ Forall (warned MainGo.ParsedQuery MainGo.processQuery lines)
            (warnings r).
Proof.
  exact (scan_lines_accounted _ _ _ main_processQuery_shape lines).
Qed.


(** ** A line that is one term *)

Lemma Split_lacks (s : gostring) (sep : ascii) :
  lacks sep s = true -> Split s sep = [s].
Proof.
  unfold lacks. induction s as [| c s IH]; [reflexivity |].
  cbn [forallb Split]. intros H. apply andb_true_iff in H.
  destruct H as [Hc Hs]. apply negb_true_iff in Hc.
  now rewrite Hc, (IH Hs).
Qed.

Lemma Split_pair (a b : gostring) (sep : ascii) :
  lacks sep a = true -> lacks sep b = true ->
  Split (a ++ sep :: b) sep = [a; b].
Proof.
  unfold lacks. intros Ha Hb. induction a as [| c a IH].
  - cbn [app Split]. now rewrite Ascii.eqb_refl, (Split_lacks b sep Hb).
  - cbn [forallb] in Ha. apply andb_true_iff in Ha. destruct Ha as [Hc Ha].
    apply negb_true_iff in Hc. cbn [app Split]. now rewrite Hc, (IH Ha).
Qed.

Lemma ReplaceAll_nonempty (s old new : gostring) :
  s <> [] -> new <> [] -> ReplaceAll s old new <> [].
Proof.
  intros Hs Hn. destruct s as [| c s]; [contradiction |].
  unfold ReplaceAll. cbn [replace_from].
  destruct (HasPrefix (c :: s) old); [| discriminate].
  destruct new; [contradiction | discriminate].
Qed.

Lemma scan_value_nonempty (v : gostring) : v <> [] -> scan_value v <> [].
Proof.
  intros H. unfold scan_value.
  repeat (apply ReplaceAll_nonempty; [| discriminate]). exact H.
Qed.

Lemma field_name_no_colon (name : gostring) :
  is_field_name name = true -> lacks ":" name = true.
Proof.
  intros H.
  destruct (is_field_name_cases name H) as [-> | [-> | [-> | ->]]];
    reflexivity.
Qed.

Lemma part0_parse_term (name value : gostring) :
  lacks ":" name = true -> lacks ":" value = true ->
  Part0.parseTokens [field_token name value]
  = Some (Part0.mkQuery [] [] [] (Some (mkField name value))).
Proof.
  intros Hn Hv. unfold Part0.parseTokens, Part0.parse_loop.
  cbn [fold_left]. unfold Part0.parse_step, field_token.
  cbn [Type_ Value]. change (lit ":" ++ value) with (":"%char :: value).
  rewrite (Split_pair name value ":" Hn Hv). reflexivity.
Qed.

Lemma main_parse_term (name value : gostring) :
  lacks ":" name = true -> lacks ":" value = true ->
  MainGo.parseTokens [field_token name value]
  = Some (main_and_wrapper (main_leaf (mkField name value))).
Proof.
  intros Hn Hv. unfold MainGo.parseTokens, MainGo.parse_loop.
  cbn [fold_left]. unfold MainGo.parse_step, field_token.
  cbn [Type_ Value]. change (lit ":" ++ value) with (":"%char :: value).
  rewrite (Split_pair name value ":" Hn Hv). reflexivity.
Qed.

(** X24: a line that is one field term [NAME(QvalueQ)], the value not empty,
    without double quote, backslash or colon and with its parentheses
    closed, gives the leaf of that name in part_000 and that leaf in an
    [AND] group in [main.go].  The value of the leaf is the value as
    preprocessed ([scan_value]): the respelling of the operators and the
    removal of spaces next to parentheses reach inside the quotes. *)
Theorem X24_single_field_term (name value : gostring) :
  is_field_name name = true -> value <> [] ->
  lacks dquote value = true -> lacks backslash value = true ->
  lacks ":" value = true -> parens_closed value = true ->
  Part0.processQuery (call name value)
  = (Some (Part0.mkQuery [] [] []
             (Some (mkField name (scan_value value)))), None)
  /\ MainGo.processQuery (call name value)
     = (Some (main_and_wrapper
                (main_leaf (mkField name (scan_value value)))), None).
Proof.
  intros Hn Hne Hq Hb Hc Hp.
  pose proof (scan_value_nonempty value Hne) as Hne'.
  assert (Hq' : lacks dquote (scan_value value) = true)
    by (apply scan_value_lacks; auto; right; discriminate).
  assert (Hb' : lacks backslash (scan_value value) = true)
    by (apply scan_value_lacks; auto; right; discriminate).
  assert (Hc' : lacks ":" (scan_value value) = true)
    by (apply scan_value_lacks; auto; right; discriminate).
  pose proof (field_name_no_colon name Hn) as Hn'.
  unfold Part0.processQuery, MainGo.processQuery.
  rewrite (part0_tokenize_call name value Hn Hp Hne' Hq' Hb').
  rewrite (main_tokenize_call name value Hn Hp Hne' Hq').
  rewrite (part0_parse_term _ _ Hn' Hc'), (main_parse_term _ _ Hn' Hc').
  split; reflexivity.
Qed.

Lemma X24_single_field_term_witness :
  is_field_name (lit "TITLE") = true
  /\ lit "cats AND NOT dogs" <> []
  /\ lacks dquote (lit "cats AND NOT dogs") = true
  /\ lacks backslash (lit "cats AND NOT dogs") = true
  /\ lacks ":" (lit "cats AND NOT dogs") = true
  /\ parens_closed (lit "cats AND NOT dogs") = true
  /\ scan_value (lit "cats AND NOT dogs") = lit "cats AND_NOT dogs"
  /\ Part0.processQuery (call (lit "TITLE") (lit "cats AND NOT dogs"))
     = (Some (Part0.mkQuery [] [] []
                (Some (mkField (lit "TITLE")
                               (scan_value (lit "cats AND NOT dogs"))))),
        None)
  /\ MainGo.processQuery (call (lit "TITLE") (lit "cats AND NOT dogs"))
     = (Some (main_and_wrapper
                (main_leaf
                   (mkField (lit "TITLE")
                            (scan_value (lit "cats AND NOT dogs"))))),
        None).
Proof.
  split; [reflexivity |]. split; [discriminate |].
  split; [reflexivity |]. split; [reflexivity |].
  split; [reflexivity |]. split; [reflexivity |].
  split; [reflexivity |].
  apply (X24_single_field_term (lit "TITLE") (lit "cats AND NOT dogs"));
    try reflexivity; discriminate.
Defined.

(** X25: a line that is one bare quoted value [QvalueQ], the value not
    empty and without double quote, colon or opening parenthesis, gives the
    leaf of field [ANY] in part_000 and that leaf in an [AND] group in
    [main.go], its value preprocessed in the same way. *)
Theorem X25_single_quoted_term (value : gostring) :
  value <> [] -> lacks dquote value = true -> lacks ":" value = true ->
  lacks "(" value = true ->
  Part0.processQuery (quoted value)
  = (Some (Part0.mkQuery [] [] []
             (Some (mkField (lit "ANY") (scan_value value)))), None)
  /\ MainGo.processQuery (quoted value)
     = (Some (main_and_wrapper
                (main_leaf (mkField (lit "ANY") (scan_value value)))), None).
Proof.
  intros Hne Hq Hc Ho.
  pose proof (scan_value_nonempty value Hne) as Hne'.
  assert (Hq' : lacks dquote (scan_value value) = true)
    by (apply scan_value_lacks; auto; right; discriminate).
  assert (Hc' : lacks ":" (scan_value value) = true)
    by (apply scan_value_lacks; auto; right; discriminate).
  assert (Ho' : lacks "(" (scan_value value) = true)
    by (apply scan_value_lacks; auto).
  destruct (tokenize_quoted value Ho Hne' Hq' Ho') as [T0 T1].
  unfold Part0.processQuery, MainGo.processQuery. rewrite T0, T1.
  rewrite (part0_parse_term (lit "ANY") _ eq_refl Hc'),
    (main_parse_term (lit "ANY") _ eq_refl Hc').
  split; reflexivity.
Qed.

Lemma X25_single_quoted_term_witness :
  lit "deep learning" <> []
  /\ lacks dquote (lit "deep learning") = true
  /\ lacks ":" (lit "deep learning") = true
  /\ lacks "(" (lit "deep learning") = true
  /\ Part0.processQuery (quoted (lit "deep learning"))
     = (Some (Part0.mkQuery [] [] []
                (Some (mkField (lit "ANY")
                               (scan_value (lit "deep learning"))))), None)
  /\ MainGo.processQuery (quoted (lit "deep learning"))
     = (Some (main_and_wrapper
                (main_leaf (mkField (lit "ANY")
                                    (scan_value (lit "deep learning"))))),
        None).
Proof.
  split; [discriminate |]. split; [reflexivity |]. split; [reflexivity |].
  split; [reflexivity |].
  apply (X25_single_quoted_term (lit "deep learning"));
    try reflexivity; discriminate.
Defined.


(** ** The two files on the same line *)

Lemma part0_processQuery_leaves (line : gostring) :
  result_leaves (fst (Part0.processQuery line))
  = result_leaves (Part0.parseTokens (Part0.tokenize line)).
Proof.
  unfold Part0.processQuery.
  destruct (Part0.isEmptyQuery (Part0.parseTokens (Part0.tokenize line)))
    eqn:E; [| reflexivity].
  unfold Part0.parseTokens in *. apply part0_cleanupQuery_nonempty in E.
  now rewrite E.
Qed.

Lemma main_processQuery_leaves (line : gostring) :
  main_result_leaves (fst (MainGo.processQuery line))
  = main_result_leaves (MainGo.parseTokens (MainGo.tokenize line)).
Proof.
  unfold MainGo.processQuery.
  destruct (MainGo.isEmptyQuery (MainGo.parseTokens (MainGo.tokenize line)))
    eqn:E; [| reflexivity].
  destruct (MainGo.parseTokens (MainGo.tokenize line)) as [t |];
    [| reflexivity].
  cbn. symmetry. now apply main_empty_leaves.
Qed.

(** X26: on a line without backslash whose tokens close every group they
    open, the two files return trees with the same terms, each as many
    times, whatever the shapes of the trees; and one returns the error
    exactly when the other does. *)
Theorem X26_files_agree_on_terms (line : gostring) :
  no_backslash line = true -> open_groups 0 (Part0.tokenize line) = 0 ->
  Permutation (result_leaves (fst (Part0.processQuery line)))
              (main_result_leaves (fst (MainGo.processQuery line)))
  /\ snd (Part0.processQuery line) = snd (MainGo.processQuery line).
Proof.
  intros HB HG. pose proof (tokenize_same line HB) as T. split.
  - rewrite part0_processQuery_leaves, main_processQuery_leaves, T.
    rewrite (part0_parse_terms _ HG). symmetry. now apply main_parse_terms.
  - unfold Part0.processQuery, MainGo.processQuery. rewrite T.
    pose proof (part0_parse_nil_iff _ HG) as P0.
    pose proof (main_parse_empty_iff _ HG) as P1.
    destruct (Part0.isEmptyQuery (Part0.parseTokens (Part0.tokenize line)))
      eqn:E0;
      destruct (MainGo.isEmptyQuery
                  (MainGo.parseTokens (Part0.tokenize line))) eqn:E1;
      try reflexivity; exfalso.
    + assert (F : fields_of (Part0.tokenize line) = []) by now apply P0.
      apply P1 in F. discriminate.
    + assert (F : fields_of (Part0.tokenize line) = []) by now apply P1.
      apply P0 in F. discriminate.
Qed.

Lemma X26_files_agree_on_terms_witness :
  no_backslash line_survey = true
  /\ open_groups 0 (Part0.tokenize line_survey) = 0
  /\ Permutation (result_leaves (fst (Part0.processQuery line_survey)))
                 (main_result_leaves (fst (MainGo.processQuery line_survey)))
  /\ snd (Part0.processQuery line_survey)
     = snd (MainGo.processQuery line_survey).
Proof.
  split; [reflexivity |]. split; [reflexivity |].
  apply (X26_files_agree_on_terms line_survey); reflexivity.
Defined.

(** ** The matches of a line, piece by piece *)

Lemma find_all_match (r : regex) (pos : nat) (m rest : gostring)
    (cs : captures) :
  m <> [] -> exec r (m ++ rest) = Some (rest, cs) ->
  find_all r (S (length (m ++ rest))) pos (m ++ rest)
  = (pos, pos + length m) :: find_all r (S (length rest)) (pos + length m) rest.
Proof.
  intros Hne He. destruct m as [| c m]; [contradiction |].
  remember (find_all r (S (length rest)) (pos + length (c :: m)) rest)
    as tail eqn:ET.
  cbn [find_all]. cbn [app] in *. rewrite search_cons, He.
  cbn [length]. rewrite length_app.
  replace (pos + (S (length m + length rest) - length rest))
    with (pos + S (length m)) by lia.
  replace (pos + S (length m) <=? pos) with false
    by (symmetry; apply Nat.leb_gt; lia).
  replace (pos + S (length m) - pos) with (length (c :: m)) by (cbn; lia).
  change (c :: m ++ rest) with ((c :: m) ++ rest).
  rewrite skipn_app, skipn_all, Nat.sub_diag. cbn [app skipn].
  f_equal. subst tail. cbn [length]. apply find_all_bound; lia.
Qed.

Lemma find_all_skip (r : regex) (pos : nat) (c : ascii) (rest : gostring) :
  exec r (c :: rest) = None ->
  find_all r (S (length (c :: rest))) pos (c :: rest)
  = find_all r (S (length rest)) (S pos) rest.
Proof.
  intros He. rewrite (find_all_bound r _ (S (S (length rest))) (S pos) rest)
    by (cbn; lia).
  cbn [length]. cbn [find_all]. rewrite search_cons, He.
  destruct (search r (S pos) rest) as [[[a b] cs] |] eqn:E; [| reflexivity].
  destruct (b <=? a) eqn:L; [reflexivity |]. apply Nat.leb_gt in L.
  apply search_within in E.
  replace (b - pos) with (S (b - S pos)) by lia. reflexivity.
Qed.

Lemma find_all_end (r : regex) (pos : nat) :
  exec r [] = None -> find_all r (S (length (@nil ascii))) pos [] = [].
Proof. intros He. cbn [length find_all search]. now rewrite He. Qed.

Lemma slice_mid (a b c : gostring) :
  slice (a ++ b ++ c) (length a) (length a + length b) = b.
Proof.
  unfold slice. rewrite skipn_app, skipn_all, Nat.sub_diag. cbn [app skipn].
  replace (length a + length b - length a) with (length b) by lia.
  rewrite firstn_app, firstn_all, Nat.sub_diag. cbn. apply app_nil_r.
Qed.

(** ** The scan of a term that is followed by more *)

Lemma exec_field_call_rest (P : ascii -> Prop) (V : regex)
    (name v rest : gostring) :
  value_on P V -> is_field_name name = true ->
  v <> [] -> forallb not_quote v = true ->
  Forall P (v ++ dquote :: ")"%char :: rest) ->
  exists cs, exec (field_call V) (call name v ++ rest) = Some (rest, cs).
Proof.
  intros HV Hn Hne Hq HP. unfold exec, field_call.
  remember (Cat (Group 2 V) (Cat (Chr dquote) (Chr ")"))) as tail eqn:ER.
  destruct (is_field_name_cases name Hn) as [-> | [-> | [-> | ->]]];
    eexists; unfold call, q; rewrite <- !app_assoc; cbn; subst tail;
    change (v ++ "034"%char :: ")"%char :: rest)
      with (v ++ dquote :: ")"%char :: rest);
    rewrite (rmatch_value_quote P) by assumption; cbn; reflexivity.
Qed.

Lemma exec_token_call_rest (P : ascii -> Prop) (V : regex)
    (name v rest : gostring) :
  value_on P V -> is_field_name name = true ->
  v <> [] -> forallb not_quote v = true ->
  Forall P (v ++ dquote :: ")"%char :: rest) ->
  exists cs, exec (token_regex V) (call name v ++ rest) = Some (rest, cs).
Proof.
  intros HV Hn Hne Hq HP.
  destruct (exec_field_call_rest P V name v rest HV Hn Hne Hq HP) as [cs He].
  exists cs. unfold exec, token_regex in *. cbn [rmatch]. now rewrite He.
Qed.

(** ** The replacements, between double quotes *)

(** No [old] of the tokenizer holds a double quote, so the replacements
    are made in the stretches between the double quotes, one by one. *)
Lemma ReplaceAll_at_quote (old new s1 s2 : gostring) (o : ascii)
    (old' : gostring) :
  old = o :: old' -> forallb not_quote old = true ->
  ReplaceAll (s1 ++ dquote :: s2) old new
  = ReplaceAll s1 old new ++ dquote :: ReplaceAll s2 old new.
Proof.
  intros -> Hq. unfold ReplaceAll.
  rewrite replace_from_before_quote; [| discriminate | exact Hq | lia].
  f_equal. cbn [replace_from HasPrefix].
  cbn [forallb] in Hq. apply andb_true_iff in Hq. destruct Hq as [Ho _].
  unfold not_quote in Ho. apply negb_true_iff in Ho.
  now rewrite Ho.
Qed.

(** The five replacements of [preprocess], in their order. *)
Lemma scan_value_at_quote (s1 s2 : gostring) :
  scan_value (s1 ++ dquote :: s2) = scan_value s1 ++ dquote :: scan_value s2.
Proof.
  unfold scan_value.
  repeat (erewrite ReplaceAll_at_quote; [| reflexivity | reflexivity]).
  reflexivity.
Qed.

Lemma preprocess_closed (line : gostring) :
  Count line "(" <= Count line ")" -> preprocess line = scan_value line.
Proof.
  intros H. unfold preprocess, scan_value.
  replace (Count line ")" <? Count line "(") with false
    by (symmetry; apply Nat.ltb_ge; exact H).
  reflexivity.
Qed.

Lemma binary_line_shape (n1 v1 word n2 v2 : gostring) :
  binary_line (call n1 v1) word (call n2 v2)
  = (n1 ++ lit "(") ++ dquote
    :: v1 ++ dquote
    :: (lit ") " ++ word ++ lit " " ++ n2 ++ lit "(") ++ dquote
    :: v2 ++ dquote :: lit ")".
Proof.
  unfold binary_line, call, q. rewrite <- !app_assoc. reflexivity.
Qed.

Lemma preprocess_binary (n1 v1 n2 v2 word : gostring) (token : Token) :
  is_field_name n1 = true -> is_field_name n2 = true ->
  In (word, token) operator_words ->
  parens_closed v1 = true -> parens_closed v2 = true ->
  preprocess (binary_line (call n1 v1) word (call n2 v2))
  = binary_line (call n1 (scan_value v1)) (Value token)
                (call n2 (scan_value v2)).
Proof.
  intros H1 H2 Hw C1 C2.
  rewrite preprocess_closed.
  - rewrite !binary_line_shape, !scan_value_at_quote.
    destruct (is_field_name_cases n1 H1) as [-> | [-> | [-> | ->]]];
      destruct (is_field_name_cases n2 H2) as [-> | [-> | [-> | ->]]];
      destruct Hw as [E | [E | [E | []]]]; injection E as <- <-;
      reflexivity.
  - unfold binary_line. rewrite !Count_app, !Count_call by auto.
    unfold parens_closed in *. apply Nat.leb_le in C1, C2.
    destruct Hw as [E | [E | [E | []]]]; injection E as <- <-; cbn; lia.
Qed.

(** ** The tokens of a line of two terms *)

Lemma exec_token_word (V : regex) (word : gostring) (token : Token)
    (rest : gostring) :
  In (word, token) operator_words ->
  exec (token_regex V) (Value token ++ " "%char :: rest)
  = Some (" "%char :: rest, []).
Proof.
  intros [E | [E | [E | []]]]; injection E as <- <-; reflexivity.
Qed.

Lemma exec_token_space (V : regex) (rest : gostring) :
  exec (token_regex V) (" "%char :: rest) = None.
Proof. now apply exec_token_none. Qed.

Lemma FindAll_binary (P : ascii -> Prop) (V : regex)
    (n1 v1 n2 v2 word : gostring) (token : Token) :
  value_on P V -> is_field_name n1 = true -> is_field_name n2 = true ->
  In (word, token) operator_words ->
  v1 <> [] -> forallb not_quote v1 = true ->
  v2 <> [] -> forallb not_quote v2 = true ->
  Forall P v1 -> Forall P v2 -> P dquote -> P ")"%char -> P " "%char ->
  Forall P (Value token) -> Forall P n2 -> P "("%char ->
  let a := length (call n1 v1) in
  let b := S a + length (Value token) in
  FindAllStringSubmatchIndex (token_regex V)
    (binary_line (call n1 v1) (Value token) (call n2 v2))
  = [(0, a); (S a, b); (S b, S b + length (call n2 v2))].
Proof.
  intros HV H1 H2 Hw Hn1 Hq1 Hn2 Hq2 P1 P2 Pq Pc Ps Pw Pn Po a b.
  unfold FindAllStringSubmatchIndex, binary_line.
  cbn [lit list_ascii_of_string app].
  destruct (exec_token_call_rest P V n1 v1
              (" "%char :: Value token ++ " "%char :: call n2 v2))
    as [cs1 E1]; auto.
  { apply Forall_app. split; [exact P1 |].
    constructor; [exact Pq |]. constructor; [exact Pc |].
    constructor; [exact Ps |]. apply Forall_app. split; [exact Pw |].
    constructor; [exact Ps |]. unfold call, q.
    repeat (apply Forall_app; split); auto; repeat constructor; auto. }
  destruct (exec_token_call P V n2 v2) as [cs2 E2]; auto.
  { apply Forall_app. split; [exact P2 |]. repeat constructor; auto. }
  assert (Hne : Value token <> [])
    by (destruct Hw as [E | [E | [E | []]]]; injection E as <- <-;
        discriminate).
  rewrite (find_all_match _ 0 _ _ cs1 (call_nonempty _ _) E1).
  rewrite (find_all_skip _ _ _ _ (exec_token_space V _)).
  rewrite (find_all_match _ _ _ _ [] Hne (exec_token_word V word token _ Hw)).
  rewrite (find_all_skip _ _ _ _ (exec_token_space V _)).
  rewrite <- (app_nil_r (call n2 v2)) at 1 2.
  rewrite (find_all_match _ _ _ [] cs2 (call_nonempty _ _)).
  - rewrite (find_all_end _ _ (exec_token_nil V)). reflexivity.
  - rewrite app_nil_r. exact E2.
Qed.

Lemma slice_at (a b c : gostring) (i j : nat) :
  i = length a -> j = i + length b -> slice (a ++ b ++ c) i j = b.
Proof. intros -> ->. apply slice_mid. Qed.

Lemma classify_word (W : regex) (word : gostring) (token : Token) :
  In (word, token) operator_words ->
  TrimSpace (Value token) = Value token
  /\ classify W (Value token) = token
  /\ is_operator (Type_ token) = true.
Proof.
  intros [E | [E | [E | []]]]; injection E as <- <-; repeat split.
Qed.

Lemma tokenize_loop_binary (W : regex) (t1 t2 : gostring) (token : Token)
    (word : gostring) (f1 f2 : Token) :
  In (word, token) operator_words ->
  TrimSpace t1 = t1 -> TrimSpace t2 = t2 ->
  classify W t1 = f1 -> classify W t2 = f2 ->
  Type_ f1 = TokenField -> Value f1 <> [] -> Value f2 <> [] ->
  let query := binary_line t1 (Value token) t2 in
  let a := length t1 in
  let b := S a + length (Value token) in
  let matches := [(0, a); (S a, b); (S b, S b + length t2)] in
  tokenize_loop W query matches 0 matches [] = [f1; token; f2].
Proof.
  intros Hw T1 T2 C1 C2 F1 V1 V2 query a b matches.
  destruct (classify_word W word token Hw) as (TW & CW & OW).
  assert (S1 : slice query 0 a = t1).
  { unfold query, binary_line. apply (slice_at [] t1); reflexivity. }
  assert (S2 : slice query a (S a) = lit " ").
  { unfold query, binary_line. apply (slice_at t1 (lit " ")); cbn; lia. }
  assert (S3 : slice query (S a) b = Value token).
  { unfold query, binary_line. rewrite (app_assoc t1).
    apply (slice_at (t1 ++ lit " ") (Value token));
      rewrite ?length_app; cbn; lia. }
  assert (S4 : slice query (S b) (S b + length t2) = t2).
  { unfold query, binary_line.
    rewrite (app_assoc (Value token)), (app_assoc (lit " ")),
      (app_assoc t1).
    rewrite <- (app_nil_r t2) at 1.
    apply (slice_at (t1 ++ lit " " ++ Value token ++ lit " ") t2 []);
      rewrite ?length_app; cbn; unfold b, a; lia. }
  assert (NZ : forall f, Value f <> [] ->
                 negb (Type_ f =? 0)%Z || negb (eqs (Value f) []) = true).
  { intros f Hf. rewrite (eqs_false _ _ Hf). cbn. apply orb_true_r. }
  assert (OT : (Type_ token =? TokenField)%Z = false).
  { now destruct (is_operator_cases _ OW) as [-> | [-> | ->]]. }
  assert (ON : negb (Type_ token =? 0)%Z
               || negb (eqs (Value token) []) = true).
  { change 0%Z with TokenField. now rewrite OT. }
  unfold matches. cbn [tokenize_loop]. unfold tokenize_step.
  cbn [fst snd nth length].
  rewrite S1, T1, C1, (NZ f1 V1), F1.
  cbn [app length Nat.ltb Nat.leb andb Z.eqb TokenField].
  rewrite S2. change (TrimSpace (lit " ")) with (@nil ascii).
  cbn [eqs andb]. replace (eqs [] []) with true by reflexivity.
  cbn [andb].
  rewrite S3, TW, CW, ON, OT. cbn [andb app].
  rewrite S4, T2, C2, (NZ f2 V2). reflexivity.
Qed.

Lemma plain_value_cases (v : gostring) :
  plain_value v = true ->
  v <> [] /\ lacks dquote v = true /\ lacks backslash v = true
  /\ lacks ":" v = true /\ parens_closed v = true.
Proof.
  unfold plain_value. rewrite !andb_true_iff, negb_true_iff.
  intros [[[[H1 H2] H3] H4] H5]. repeat split; auto.
  intros ->. discriminate.
Qed.

Lemma plain_scan_value (v : gostring) :
  plain_value v = true ->
  scan_value v <> [] /\ forallb not_quote (scan_value v) = true
  /\ lacks backslash (scan_value v) = true
  /\ lacks ":" (scan_value v) = true.
Proof.
  intros H. destruct (plain_value_cases v H) as (Hne & Hq & Hb & Hc & _).
  split; [now apply scan_value_nonempty |].
  repeat split; try apply lacks_not_quote;
    apply scan_value_lacks; auto; right; discriminate.
Qed.

Lemma field_token_value (name v : gostring) :
  Type_ (field_token name v) = TokenField /\ Value (field_token name v) <> [].
Proof.
  split; [reflexivity |]. cbn. intros E. apply app_eq_nil in E.
  destruct E as [_ E]. discriminate.
Qed.

Lemma tokenize_binary (n1 v1 n2 v2 word : gostring) (token : Token) :
  is_field_name n1 = true -> is_field_name n2 = true ->
  In (word, token) operator_words ->
  plain_value v1 = true -> plain_value v2 = true ->
  let tokens := [field_token n1 (scan_value v1); token;
                 field_token n2 (scan_value v2)] in
  Part0.tokenize (binary_line (call n1 v1) word (call n2 v2)) = tokens
  /\ MainGo.tokenize (binary_line (call n1 v1) word (call n2 v2)) = tokens.
Proof.
  intros H1 H2 Hw P1 P2 tokens.
  destruct (plain_value_cases v1 P1) as (_ & _ & _ & _ & C1).
  destruct (plain_value_cases v2 P2) as (_ & _ & _ & _ & C2).
  destruct (plain_scan_value v1 P1) as (N1 & Q1 & B1 & _).
  destruct (plain_scan_value v2 P2) as (N2 & Q2 & B2 & _).
  pose proof (preprocess_binary n1 v1 n2 v2 word token H1 H2 Hw C1 C2) as Hp.
  assert (HT : forall s : gostring, Forall (fun _ => True) s)
    by (intros s; apply Forall_forall; auto).
  assert (HB : forall v, lacks backslash v = true ->
                 Forall not_backslash (v ++ dquote :: [")"%char])).
  { intros v Hv. apply lacks_not_backslash; [exact Hv |].
    repeat constructor; discriminate. }
  destruct (field_token_value n1 (scan_value v1)) as [F1 V1].
  destruct (field_token_value n2 (scan_value v2)) as [_ V2].
  split.
  - unfold Part0.tokenize, tokenize. rewrite Hp.
    rewrite (FindAll_binary (fun _ => True) Part0.quoted_value
               n1 (scan_value v1) n2 (scan_value v2) word token);
      auto using value_on_lazy.
    apply (tokenize_loop_binary _ _ _ token word); auto using TrimSpace_call.
    + apply (classify_call not_backslash); auto using value_on_escaped.
    + apply (classify_call not_backslash); auto using value_on_escaped.
  - unfold MainGo.tokenize, tokenize. rewrite Hp.
    rewrite (FindAll_binary (fun _ => True) MainGo.quoted_value
               n1 (scan_value v1) n2 (scan_value v2) word token);
      auto using value_on_plus.
    apply (tokenize_loop_binary _ _ _ token word); auto using TrimSpace_call.
    + apply (classify_call (fun _ => True)); auto using value_on_plus.
    + apply (classify_call (fun _ => True)); auto using value_on_plus.
Qed.

Lemma parse_binary (n1 s1 n2 s2 word : gostring) (token : Token) :
  lacks ":" n1 = true -> lacks ":" s1 = true ->
  lacks ":" n2 = true -> lacks ":" s2 = true ->
  In (word, token) operator_words ->
  let tokens := [field_token n1 s1; token; field_token n2 s2] in
  let tree := binary_tree (Type_ token)
                (Part0.mkQuery [] [] [] (Some (mkField n1 s1)))
                (Part0.mkQuery [] [] [] (Some (mkField n2 s2))) in
  Part0.parseTokens tokens = Some tree
  /\ MainGo.parseTokens tokens = Some (embed tree).
Proof.
  intros N1 C1 N2 C2 Hw tokens tree. subst tokens tree.
  unfold Part0.parseTokens, MainGo.parseTokens, Part0.parse_loop,
    MainGo.parse_loop.
  cbn [fold_left]. unfold Part0.parse_step, MainGo.parse_step, field_token.
  cbn [Type_ Value]. change (lit ":" ++ s1) with (":"%char :: s1).
  change (lit ":" ++ s2) with (":"%char :: s2).
  rewrite (Split_pair n1 s1 ":" N1 C1), (Split_pair n2 s2 ":" N2 C2).
  destruct Hw as [E | [E | [E | []]]]; injection E as <- <-;
    split; reflexivity.
Qed.

(** X27: a line [TERM1 WORD TERM2] of two field terms joined by [OR],
    [AND] or [AND NOT], the values plain (not empty, without double quote,
    backslash or colon, parentheses closed), gives in both files the group
    that has the first term in its [AND] bucket, whatever the operator, and
    the second term in the bucket of the operator; the values are those
    preprocessing leaves. *)
Theorem X27_two_terms (n1 v1 n2 v2 word : gostring) (token : Token) :
  is_field_name n1 = true -> is_field_name n2 = true ->
  In (word, token) operator_words ->
  plain_value v1 = true -> plain_value v2 = true ->
  let tree := binary_tree (Type_ token)
                (Part0.mkQuery [] [] []
                   (Some (mkField n1 (scan_value v1))))
                (Part0.mkQuery [] [] []
                   (Some (mkField n2 (scan_value v2)))) in
  Part0.processQuery (binary_line (call n1 v1) word (call n2 v2))
  = (Some tree, None)
  /\ MainGo.processQuery (binary_line (call n1 v1) word (call n2 v2))
     = (Some (embed tree), None).
Proof.
  intros H1 H2 Hw P1 P2 tree.
  destruct (tokenize_binary n1 v1 n2 v2 word token H1 H2 Hw P1 P2)
    as [T0 T1].
  destruct (plain_scan_value v1 P1) as (_ & _ & _ & C1).
  destruct (plain_scan_value v2 P2) as (_ & _ & _ & C2).
  destruct (parse_binary n1 (scan_value v1) n2 (scan_value v2) word token
              (field_name_no_colon n1 H1) C1 (field_name_no_colon n2 H2) C2
              Hw) as [R0 R1].
  unfold Part0.processQuery, MainGo.processQuery.
  rewrite T0, T1, R0, R1. subst tree.
  destruct Hw as [E | [E | [E | []]]]; injection E as <- <-;
    split; reflexivity.
Qed.

Lemma X27_two_terms_witness :
  is_field_name (lit "TITLE") = true
  /\ is_field_name (lit "AUTHKEY") = true
  /\ In (lit "AND NOT", tok TokenANDNOT "AND_NOT") operator_words
  /\ plain_value (lit "deep learning") = true
  /\ plain_value (lit "survey") = true
  /\ Part0.processQuery
       (binary_line (call (lit "TITLE") (lit "deep learning"))
                    (lit "AND NOT")
                    (call (lit "AUTHKEY") (lit "survey")))
     = (Some (Part0.mkQuery [leaf "TITLE" "deep learning"] []
                            [leaf "AUTHKEY" "survey"] None), None)
  /\ MainGo.processQuery
       (binary_line (call (lit "TITLE") (lit "deep learning"))
                    (lit "AND NOT")
                    (call (lit "AUTHKEY") (lit "survey")))
     = (Some (embed (Part0.mkQuery [leaf "TITLE" "deep learning"] []
                                   [leaf "AUTHKEY" "survey"] None)), None).
Proof.
  assert (Hw : In (lit "AND NOT", tok TokenANDNOT "AND_NOT") operator_words)
    by (right; right; left; reflexivity).
  split; [reflexivity |]. split; [reflexivity |]. split; [exact Hw |].
  split; [reflexivity |]. split; [reflexivity |].
  exact (X27_two_terms (lit "TITLE") (lit "deep learning") (lit "AUTHKEY")
           (lit "survey") (lit "AND NOT") (tok TokenANDNOT "AND_NOT")
           eq_refl eq_refl Hw eq_refl eq_refl).
Defined.
